(** * Smooth Ratio Exploration Engine: a shallow embedding

    The development follows the JavaScript sources of the explorer:
    - [index.js]: [extract23Powers], [computeLogRatio], the generator
      [generateCandidates] and the streaming controller [computeData] /
      [handleStop] of the React component;
    - the two other variants of the component in the repository, "Erdos #933
      Explorer (log-safe)" (module [LogSafe]) and "High-Performance R(n)
      Explorer" (module [HighPerf]), which carry the standalone
      [extract23PowersBigInt] and the [handleSetMaxN] input guard.

    BigInt values are [Z]; BigInt [%] and [/] truncate towards zero and are
    [Z.rem] and [Z.quot].  Small non-negative counters held in JavaScript
    Numbers ([pow2], [processed], batch lengths) are [nat] or [Z]: they stay
    far below 2^53, where Number arithmetic on integers is exact. *)

From Stdlib Require Import ZArith List Bool Lia Reals Lra.
From Stdlib Require Import Sorting.Sorted Sorting.Permutation.
Import ListNotations.
Local Open Scope Z_scope.

(** ** Partial computations

    [None] stands for a computation that never returns. *)

Notation "x <- e ;; k" := (match e with Some x => k | None => None end)
  (at level 61, e at next level, right associativity).
Notation "' p <- e ;; k" := (match e with Some p => k | None => None end)
  (at level 61, p pattern, e at next level, right associativity).

(** [while (cond) body]: the loop is unrolled at most [fuel] times; running
    out of fuel is reported as [None]. *)
Fixpoint while {St : Type} (fuel : nat) (cond : St -> bool) (body : St -> St)
    (s : St) : option St :=
  match fuel with
  | O => None
  | S fuel' => if cond s then while fuel' cond body (body s) else Some s
  end.

(** Every pass of a stripping loop at least halves a non-zero [product], so
    one more pass than its binary length is enough for the loop to leave by
    its own test (see [strip_terminates] and [while_fuel_mono]); on
    [product = 0] the test [0 % d === 0] never fails and the loop spins for
    ever (see [strip_zero_diverges]). *)
Definition loop_fuel (product : Z) : nat :=
  S (Z.to_nat (Z.log2 (Z.abs product))).

(** ** Exact factorizer *)

Module Powers.
Record t := mk { pow2 : nat; pow3 : nat; remainder : Z }.
End Powers.

(** One stripping loop, [while (product % d === 0n) { pow++; product = product / d; }],
    on the two variables it touches. *)
Definition strip_cond (d : Z) (s : Z * nat) : bool := Z.rem (fst s) d =? 0.
Definition strip_body (d : Z) (s : Z * nat) : Z * nat :=
  (Z.quot (fst s) d, S (snd s)).

(** index.js, [extract23Powers(n)]. *)
Definition extract23Powers (n : Z) : option Powers.t :=
  let num := n in
  let nPlus1 := num + 1 in
  let product := num * nPlus1 in
  '(product, pow2) <-
     while (loop_fuel product) (strip_cond 2) (strip_body 2) (product, 0%nat) ;;
  '(product, pow3) <-
     while (loop_fuel product) (strip_cond 3) (strip_body 3) (product, 0%nat) ;;
  Some (Powers.mk pow2 pow3 product).

(** The log-safe variant: [extract23PowersBigInt(n)] returns
    [{k, l, remainder}] and is called by [computeLogR] on the product it
    forms itself. *)
Module LogSafe.
Record KL := mkKL { k : nat; l : nat; remainder : Z }.

Definition extract23PowersBigInt (n : Z) : option KL :=
  let num := n in
  '(num, k) <-
     while (loop_fuel num) (fun s => Z.rem (fst s) 2 =? 0)
           (fun s => (Z.quot (fst s) 2, S (snd s))) (num, 0%nat) ;;
  '(num, l) <-
     while (loop_fuel num) (fun s => Z.rem (fst s) 3 =? 0)
           (fun s => (Z.quot (fst s) 3, S (snd s))) (num, 0%nat) ;;
  Some (mkKL k l num).

(** The exact part of [computeLogR(n)]: the product and its factorization. *)
Definition computeLogR_factors (n : Z) : option KL :=
  let nBig := n in
  let product := nBig * (nBig + 1) in
  extract23PowersBigInt product.
End LogSafe.

(** The high-performance variant: [extract23PowersBigInt(n)] returns
    [{pow2, pow3, remainder}] and is called by [computeRatioBigInt]. *)
Module HighPerf.
Definition extract23PowersBigInt (n : Z) : option Powers.t :=
  let num := n in
  '(num, pow2) <-
     while (loop_fuel num) (fun s => Z.rem (fst s) 2 =? 0)
           (fun s => (Z.quot (fst s) 2, S (snd s))) (num, 0%nat) ;;
  '(num, pow3) <-
     while (loop_fuel num) (fun s => Z.rem (fst s) 3 =? 0)
           (fun s => (Z.quot (fst s) 3, S (snd s))) (num, 0%nat) ;;
  Some (Powers.mk pow2 pow3 num).

(** The exact part of [computeRatioBigInt(n)]. *)
Definition computeRatioBigInt_factors (n : Z) : option Powers.t :=
  let nBig := n in
  let product := nBig * (nBig + 1) in
  extract23PowersBigInt product.

(** [handleSetMaxN]: [val] is what [parseInt] returned ([None] for NaN);
    the result is the component's [maxN] afterwards. *)
Definition handleSetMaxN (val : option Z) (maxN : Z) : Z :=
  match val with
  | Some v => if (0 <? v) && (v <=? 10 ^ 15) then v else maxN
  | None => maxN
  end.
End HighPerf.

(** ** JavaScript Numbers

    A Number is NaN, an infinity, or a finite double; every finite double is
    a real, so comparison and [isFinite] are exact on this type.  The rounded
    operations themselves (arithmetic, [Math.log], [Math.exp], the conversion
    from BigInt) are an interface [MathOps]: the controller is verified for
    every implementation of it, the double-precision one of a JavaScript
    engine included.  [idealMath] is the implementation without rounding. *)

Inductive Number : Type :=
  | NaN
  | PosInf
  | NegInf
  | Fin (r : R).

(** [isFinite(x)] *)
Definition isFinite (x : Number) : bool :=
  match x with Fin _ => true | _ => false end.

(** [a > b] *)
Definition num_gt (a b : Number) : bool :=
  match a, b with
  | NaN, _ => false
  | _, NaN => false
  | PosInf, PosInf => false
  | PosInf, _ => true
  | NegInf, _ => false
  | Fin _, PosInf => false
  | Fin _, NegInf => true
  | Fin x, Fin y => if Rlt_dec y x then true else false
  end.

(** A counter held in a Number. *)
Definition Number_of_nat (c : nat) : Number := Fin (INR c).

Class MathOps : Type := {
  Number_of_BigInt : Z -> Number;           (* Number(n) *)
  Math_log : Number -> Number;
  Math_exp : Number -> Number;
  num_add : Number -> Number -> Number;     (* a + b *)
  num_sub : Number -> Number -> Number;     (* a - b *)
  num_mul : Number -> Number -> Number      (* a * b *)
}.

Module Ideal.
Definition log (x : Number) : Number :=
  match x with
  | NaN => NaN
  | PosInf => PosInf
  | NegInf => NaN
  | Fin r => if Rlt_dec 0 r then Fin (ln r)
             else if Req_dec_T r 0 then NegInf else NaN
  end.

Definition exp (x : Number) : Number :=
  match x with
  | NaN => NaN
  | PosInf => PosInf
  | NegInf => Fin 0
  | Fin r => Fin (Rtrigo_def.exp r)
  end.

Definition neg (x : Number) : Number :=
  match x with
  | NaN => NaN
  | PosInf => NegInf
  | NegInf => PosInf
  | Fin r => Fin (- r)
  end.

Definition add (a b : Number) : Number :=
  match a, b with
  | NaN, _ => NaN
  | _, NaN => NaN
  | PosInf, NegInf => NaN
  | NegInf, PosInf => NaN
  | PosInf, _ => PosInf
  | _, PosInf => PosInf
  | NegInf, _ => NegInf
  | _, NegInf => NegInf
  | Fin x, Fin y => Fin (x + y)
  end.

Definition sub (a b : Number) : Number := add a (neg b).

(** The sign of an infinite product: [inf * r]. *)
Definition scale_inf (positive : bool) (r : R) : Number :=
  if Rlt_dec 0 r then (if positive then PosInf else NegInf)
  else if Rlt_dec r 0 then (if positive then NegInf else PosInf)
  else NaN.

Definition mul (a b : Number) : Number :=
  match a, b with
  | NaN, _ => NaN
  | _, NaN => NaN
  | PosInf, PosInf => PosInf
  | NegInf, NegInf => PosInf
  | PosInf, NegInf => NegInf
  | NegInf, PosInf => NegInf
  | PosInf, Fin r => scale_inf true r
  | Fin r, PosInf => scale_inf true r
  | NegInf, Fin r => scale_inf false r
  | Fin r, NegInf => scale_inf false r
  | Fin x, Fin y => Fin (x * y)
  end.
End Ideal.

(** Arithmetic on the reals behind the doubles, nothing rounded. *)
Definition idealMath : MathOps := {|
  Number_of_BigInt := fun n => Fin (IZR n);
  Math_log := Ideal.log;
  Math_exp := Ideal.exp;
  num_add := Ideal.add;
  num_sub := Ideal.sub;
  num_mul := Ideal.mul
|}.

(** ** Ratio evaluator *)

Module Result.
Record t := mk {
  n : Number;
  pow2 : nat;
  pow3 : nat;
  remainder : Z;
  logRn : Number;
  ratio : Number
}.
End Result.

Section Evaluator.
Context {M : MathOps}.

Definition LOG2 : Number := Math_log (Fin 2).
Definition LOG3 : Number := Math_log (Fin 3).

(** index.js, [computeLogRatio(n)]; [n] is a BigInt candidate. *)
Definition computeLogRatio (n : Z) : option Result.t :=
  p <- extract23Powers n ;;
  let pow2 := Powers.pow2 p in
  let pow3 := Powers.pow3 p in
  let remainder := Powers.remainder p in
  let nNum := Number_of_BigInt n in
  let logN := Math_log nNum in
  let logLogN := Math_log logN in
  let logRn :=
    num_sub
      (num_sub
         (num_add (num_mul (Number_of_nat pow2) LOG2)
                  (num_mul (Number_of_nat pow3) LOG3))
         logN)
      logLogN in
  Some (Result.mk nNum pow2 pow3 remainder logRn (Math_exp logRn)).
End Evaluator.

(** ** Loops and sorting *)

(** What one pass of a [for] body asks for: go on, or [break]. *)
Inductive Flow (St : Type) : Type :=
  | Continue (s : St)
  | Break (s : St).
Arguments Continue {St} s.
Arguments Break {St} s.

(** [for (let k = lo; k <= hi; k++) body]: [count] passes from [k] on. *)
Fixpoint for_range {St : Type} (count : nat) (k : Z)
    (body : Z -> St -> Flow St) (s : St) : St :=
  match count with
  | O => s
  | S count' =>
      match body k s with
      | Break s' => s'
      | Continue s' => for_range count' (k + 1) body s'
      end
  end.

Definition for_to {St : Type} (lo hi : Z) (body : Z -> St -> Flow St) (s : St) : St :=
  for_range (Z.to_nat (hi - lo + 1)) lo body s.

(** [for (let n = start; n <= bound; n += step) body], unrolled at most
    [count] times. *)
Fixpoint for_step {St : Type} (count : nat) (n step bound : Z)
    (body : Z -> St -> St) (s : St) : St :=
  match count with
  | O => s
  | S count' =>
      if n <=? bound then for_step count' (n + step) step bound body (body n s)
      else s
  end.

(** The number of passes of that loop for a positive [step]; with as many
    unrollings the loop leaves by its own test (see [for_step_passes]). *)
Definition passes (start step bound : Z) : nat :=
  Z.to_nat ((bound - start) / step + 1).

(** [Array.prototype.sort(cmp)] is stable; [after a b] says that [cmp(a, b)]
    is positive.  For a consistent comparator the result is the one stable
    sorted arrangement, which insertion from the right computes. *)
Fixpoint insert {A : Type} (after : A -> A -> bool) (x : A) (l : list A) : list A :=
  match l with
  | [] => [x]
  | y :: l' => if after x y then y :: insert after x l' else x :: l
  end.

Definition Array_sort {A : Type} (after : A -> A -> bool) (l : list A) : list A :=
  fold_right (insert after) [] l.

(** ** Candidate generator *)

(** The [density] argument: the three options of the select box, and [other]
    for any other string for which [densityMap[density]] is undefined. *)
Inductive Density : Type := low | medium | high | other.

(** [densityMap[density] || 200] *)
Definition radius_of (density : Density) : Z :=
  match density with
  | low => 50
  | medium => 200
  | high => 500
  | other => 200
  end.

(** [density === 'high' ? 1000 : density === 'medium' ? 10000 : 100000] *)
Definition step_of (density : Density) : Z :=
  match density with
  | high => 1000
  | medium => 10000
  | _ => 100000
  end.

(** The [Set] of BigInts, in insertion order. *)
Definition has (candidates : list Z) (n : Z) : bool :=
  existsb (Z.eqb n) candidates.

(** [tryAdd(n)]: the set afterwards and the returned flag. *)
Definition tryAdd (maxNBig : Z) (candidates : list Z) (n : Z) : list Z * bool :=
  if (n >=? 2) && (n <=? maxNBig) && negb (has candidates n)
  then (candidates ++ [n], true)
  else (candidates, false).

(** The comparator handed to [sort]. *)
Definition compareBigInt (a b : Z) : Z :=
  if a <? b then -1 else if a >? b then 1 else 0.

(** index.js, [generateCandidates(maxN, density)]: the sequence it yields.
    The counter [n] of the sparse sampling is a Number; its additions are
    exact as long as [maxN + step] stays below 2^53, which covers the
    supported range. *)
Definition generateCandidates (maxN : Z) (density : Density) : list Z :=
  let maxNBig := maxN in
  let add := fun candidates n => fst (tryAdd maxNBig candidates n) in
  let candidates := [] in
  (* 1. Powers of 2 minus 1 *)
  let candidates :=
    for_to 2 200 (fun k candidates =>
      let pow := 2 ^ k in
      if pow >? maxNBig then Break candidates
      else Continue (add candidates (pow - 1))) candidates in
  (* 2. Powers of 3 minus 1 *)
  let candidates :=
    for_to 2 130 (fun k candidates =>
      let pow := 3 ^ k in
      if pow >? maxNBig then Break candidates
      else Continue (add candidates (pow - 1))) candidates in
  (* 3. 2^a * 3^b - 1 and + 1 *)
  let candidates :=
    for_to 1 100 (fun a candidates =>
      let pow2 := 2 ^ a in
      if pow2 >? maxNBig then Break candidates
      else Continue
        (for_to 1 80 (fun b candidates =>
           let product := pow2 * 3 ^ b in
           if product >? maxNBig then Break candidates
           else Continue (add (add candidates (product - 1)) (product + 1)))
         candidates)) candidates in
  (* 4. Dense sampling around powers of 2 *)
  let radius := radius_of density in
  let candidates :=
    for_to 10 200 (fun k candidates =>
      let center := 2 ^ k in
      if center >? maxNBig then Break candidates
      else Continue
        (for_to (- radius) radius (fun offset candidates =>
           Continue (add candidates (center + offset))) candidates)) candidates in
  (* 5. Dense sampling around powers of 3 *)
  let candidates :=
    for_to 6 130 (fun k candidates =>
      let center := 3 ^ k in
      if center >? maxNBig then Break candidates
      else Continue
        (for_to (- radius) radius (fun offset candidates =>
           Continue (add candidates (center + offset))) candidates)) candidates in
  (* 6. Sparse linear sampling *)
  let step := step_of density in
  let candidates :=
    for_step (passes 2 step maxN) 2 step maxN (fun n candidates =>
      add candidates n) candidates in
  (* Convert to sorted array and yield *)
  let sorted := Array_sort (fun a b => compareBigInt a b >? 0) candidates in
  sorted.

(** ** Streaming search controller *)

(** [Math.min(...xs)] and [Math.max(...xs)]; neither rounds. *)
Definition num_min (a b : Number) : Number :=
  match a, b with
  | NaN, _ => NaN
  | _, NaN => NaN
  | _, _ => if num_gt a b then b else a
  end.

Definition num_max (a b : Number) : Number :=
  match a, b with
  | NaN, _ => NaN
  | _, NaN => NaN
  | _, _ => if num_gt b a then b else a
  end.

Definition Math_min (xs : list Number) : Number := fold_left num_min xs PosInf.
Definition Math_max (xs : list Number) : Number := fold_left num_max xs NegInf.

(** The object handed to [setStats], before its fields are formatted
    ([toFixed], [toExponential], [toLocaleString]). *)
Module Stats.
Record t := mk {
  total : nat;
  maxLogRn : Number;
  maxRatio : Number;
  maxN : Number;
  minLogRn : Number;
  largestN : Number;
  spikes : nat
}.
End Stats.

(** The React state of the component that [computeData] and [handleStop]
    write, and the [abortRef] box. *)
Record UI : Type := mkUI {
  computing : bool;
  progress : Z;
  currentN : option Number;
  spikes : list Result.t;
  allData : list Result.t;
  stats : option Stats.t;
  abortRef : bool
}.

(** Where the body of [computeData] stands. *)
Inductive PC : Type :=
  | Pull (rest : list Z)            (* head of [for (const n of candidateGen)] *)
  | Await (rest : list Z)           (* suspended in [await new Promise(...)] *)
  | Inner (todo rest : list Z)      (* [for (const candidate of batch)] of a full batch *)
  | Tail (todo : list Z)            (* the loop over the remaining batch *)
  | Epilogue                        (* [if (!abortRef.current) {...}; setComputing(false)] *)
  | Halted.

(** One run: the locals of [computeData], the component state, the number
    of suspensions so far, and the values handed to [setProgress] by this
    run, oldest first. *)
Record Machine : Type := mkMachine {
  pc : PC;
  results : list Result.t;
  spikeResults : list Result.t;
  maxLogRn : Number;
  processed : Z;
  totalEstimate : Z;
  batch : list Z;
  ui : UI;
  awaits : nat;
  progressLog : list Z
}.

Definition goto (p : PC) (m : Machine) : Machine :=
  mkMachine p (results m) (spikeResults m) (maxLogRn m) (processed m)
            (totalEstimate m) (batch m) (ui m) (awaits m) (progressLog m).

Definition set_batch (b : list Z) (m : Machine) : Machine :=
  mkMachine (pc m) (results m) (spikeResults m) (maxLogRn m) (processed m)
            (totalEstimate m) b (ui m) (awaits m) (progressLog m).

Definition set_results (rs : list Result.t) (m : Machine) : Machine :=
  mkMachine (pc m) rs (spikeResults m) (maxLogRn m) (processed m)
            (totalEstimate m) (batch m) (ui m) (awaits m) (progressLog m).

Definition set_spike (r : Result.t) (m : Machine) : Machine :=
  mkMachine (pc m) (results m) (spikeResults m ++ [r]) (Result.logRn r)
            (processed m) (totalEstimate m) (batch m) (ui m) (awaits m)
            (progressLog m).

Definition set_processed (c : Z) (m : Machine) : Machine :=
  mkMachine (pc m) (results m) (spikeResults m) (maxLogRn m) c
            (totalEstimate m) (batch m) (ui m) (awaits m) (progressLog m).

Definition set_ui (u : UI) (m : Machine) : Machine :=
  mkMachine (pc m) (results m) (spikeResults m) (maxLogRn m) (processed m)
            (totalEstimate m) (batch m) u (awaits m) (progressLog m).

Definition suspended (m : Machine) : Machine :=
  mkMachine (pc m) (results m) (spikeResults m) (maxLogRn m) (processed m)
            (totalEstimate m) (batch m) (ui m) (S (awaits m)) (progressLog m).

Definition setComputing (b : bool) (u : UI) : UI :=
  mkUI b (progress u) (currentN u) (spikes u) (allData u) (stats u) (abortRef u).
Definition setCurrentN (x : Number) (u : UI) : UI :=
  mkUI (computing u) (progress u) (Some x) (spikes u) (allData u) (stats u) (abortRef u).
Definition setSpikes (rs : list Result.t) (u : UI) : UI :=
  mkUI (computing u) (progress u) (currentN u) rs (allData u) (stats u) (abortRef u).
Definition setAllData (rs : list Result.t) (u : UI) : UI :=
  mkUI (computing u) (progress u) (currentN u) (spikes u) rs (stats u) (abortRef u).
Definition setStats (s : option Stats.t) (u : UI) : UI :=
  mkUI (computing u) (progress u) (currentN u) (spikes u) (allData u) s (abortRef u).
Definition set_abortRef (b : bool) (u : UI) : UI :=
  mkUI (computing u) (progress u) (currentN u) (spikes u) (allData u) (stats u) b.

(** [setProgress(v)], logged. *)
Definition setProgress (v : Z) (m : Machine) : Machine :=
  mkMachine (pc m) (results m) (spikeResults m) (maxLogRn m) (processed m)
            (totalEstimate m) (batch m)
            (mkUI (computing (ui m)) v (currentN (ui m)) (spikes (ui m))
                  (allData (ui m)) (stats (ui m)) (abortRef (ui m)))
            (awaits m) (progressLog m ++ [v]).

(** index.js, [handleStop]. *)
Definition handleStop (u : UI) : UI :=
  setComputing false (set_abortRef true u).

Definition batchSize : nat := 500.

(** What a call of [computeData] leaves behind when it returns or first
    suspends: nothing touched, or a run under way. *)
Inductive Entry : Type :=
  | Rejected (u : UI)
  | Started (m : Machine).

(** What a run takes from its host: the checkbox state captured by the
    closure of [computeData], and the clicks on the Stop button, where
    [stopAt i] says whether it is clicked while the run is suspended for the
    [i]-th time.  The run is suspended only in its [await], so that is the
    only place where [abortRef] can change under it.  One run is followed at
    a time: the host does not start a second [computeData] while this one
    is in flight. *)
Class Host : Type := {
  autoTrackSpikes : bool;
  stopAt : nat -> bool
}.

Section Controller.
Context {M : MathOps} {H : Host}.

(** [results.push(result)] and the spike tracking that follows it. *)
Definition track (result : Result.t) (m : Machine) : Machine :=
  let m := set_results (results m ++ [result]) m in
  if autoTrackSpikes && num_gt (Result.logRn result) (maxLogRn m)
  then set_spike result m
  else m.

(** The body of the loop over a full batch.  [computeLogRatio] throws on
    no BigInt, so the [catch] branch is never entered. *)
Definition process_full (candidate : Z) (m : Machine) : option Machine :=
  result <- computeLogRatio candidate ;;
  if isFinite (Result.logRn result) then
    let m := track result m in
    let m := set_processed (processed m + 1) m in
    if Z.rem (processed m) 100 =? 0 then
      let m := set_ui (setCurrentN (Result.n result) (ui m)) m in
      Some (setProgress
              (Z.min 99 (100 * processed m
                         / Z.max (totalEstimate m) (processed m))) m)
    else Some m
  else Some m.

(** The body of the loop over the remaining batch, after its abort test. *)
Definition process_rest (candidate : Z) (m : Machine) : option Machine :=
  result <- computeLogRatio candidate ;;
  if isFinite (Result.logRn result) then Some (track result m)
  else Some m.

(** The block after the loops. *)
Definition finish (m : Machine) : Machine :=
  let m :=
    if negb (abortRef (ui m)) then
      let results :=
        Array_sort (fun a b =>
          num_gt (num_sub (Result.n a) (Result.n b)) (Fin 0)) (results m) in
      let m := set_results results m in
      let topResults :=
        firstn 50
          (Array_sort (fun a b =>
             num_gt (num_sub (Result.logRn b) (Result.logRn a)) (Fin 0))
             results) in
      let m := set_ui (setAllData results (ui m)) m in
      let shown := if autoTrackSpikes then spikeResults m else topResults in
      let m := set_ui (setSpikes shown (ui m)) m in
      let m :=
        match topResults with
        | maxResult :: _ =>
            let minLogRn := Math_min (map Result.logRn results) in
            let maxNComputed := Math_max (map Result.n results) in
            set_ui (setStats
              (Some (Stats.mk (length results) (Result.logRn maxResult)
                       (Result.ratio maxResult) (Result.n maxResult)
                       minLogRn maxNComputed (length shown))) (ui m)) m
        | [] => m
        end in
      setProgress 100 m
    else m in
  set_ui (setComputing false (ui m)) m.

(** One step of the run. *)
Definition step (m : Machine) : option Machine :=
  match pc m with
  | Pull [] => Some (goto (Tail (batch m)) m)
  | Pull (n :: rest) =>
      if abortRef (ui m) then Some (goto (Tail (batch m)) m)
      else
        let m := set_batch (batch m ++ [n]) m in
        if (batchSize <=? length (batch m))%nat
        then Some (goto (Await rest) m)
        else Some (goto (Pull rest) m)
  | Await rest =>
      let m := if stopAt (awaits m) then set_ui (handleStop (ui m)) m else m in
      Some (goto (Inner (batch m) rest) (suspended m))
  | Inner [] rest => Some (goto (Pull rest) (set_batch [] m))
  | Inner (candidate :: todo) rest =>
      m' <- process_full candidate m ;;
      Some (goto (Inner todo rest) m')
  | Tail [] => Some (goto Epilogue m)
  | Tail (candidate :: todo) =>
      if abortRef (ui m) then Some (goto Epilogue m)
      else
        m' <- process_rest candidate m ;;
        Some (goto (Tail todo) m')
  | Epilogue => Some (goto Halted (finish m))
  | Halted => Some m
  end.

(** [k] steps from [m]. *)
Fixpoint exec (k : nat) (m : Machine) : option Machine :=
  match k with
  | O => Some m
  | S k' => m' <- step m ;; exec k' m'
  end.

(** A bound on the steps left; it falls with every step (see
    [step_weight]). *)
Definition weight (m : Machine) : nat :=
  match pc m with
  | Pull rest => 3 + length (batch m) + 4 * length rest
  | Await rest => 5 + length (batch m) + 4 * length rest
  | Inner todo rest => 4 + length todo + 4 * length rest
  | Tail todo => 2 + length todo
  | Epilogue => 1
  | Halted => 0
  end.

(** The run to its end. *)
Definition run (m : Machine) : option Machine := exec (weight m) m.

(** index.js, [computeData] from its resets to the head of the main loop:
    the state is cleared, the candidates are counted by a first pass of
    the generator (at most 50001 of them), and a second generator is about
    to be consumed. *)
Definition begin (u : UI) (maxN : Z) (density : Density) : Machine :=
  let u := setComputing true u in
  let u := mkUI (computing u) 0 (currentN u) [] [] None false in
  let tempCandidates :=
    firstn (Z.to_nat 50001) (generateCandidates maxN density) in
  let totalEstimate := Z.of_nat (length tempCandidates) in
  mkMachine (Pull (generateCandidates maxN density))
            [] [] NegInf 0 totalEstimate [] u 0 [0].

(** index.js, [computeData]; [maxN] is what [parseInt] returned ([None]
    for NaN), and the guard is [if (!maxN || maxN < 2) return;]. *)
Definition computeData (u : UI) (maxN : option Z) (density : Density) : Entry :=
  match maxN with
  | None => Rejected u
  | Some maxN =>
      if (maxN =? 0) || (maxN <? 2) then Rejected u
      else Started (begin u maxN density)
  end.
End Controller.

(** ** Vocabulary of the properties *)

Section Vocabulary.
Context {M : MathOps}.

(** The state a pass of a [for] body leaves. *)
Definition flow_state {St : Type} (f : Flow St) : St :=
  match f with Continue s => s | Break s => s end.

(** A candidate set without duplicates and inside [[2, maxN]]. *)
Definition in_range_set (maxN : Z) (candidates : list Z) : Prop :=
  NoDup candidates /\ Forall (fun n => 2 <= n <= maxN) candidates.

(** The candidates a run still has to look at. *)
Definition pending (m : Machine) : list Z :=
  match pc m with
  | Pull rest => batch m ++ rest
  | Await rest => batch m ++ rest
  | Inner todo rest => todo ++ rest
  | Tail todo => todo
  | Epilogue => []
  | Halted => []
  end.

(** The value the main loop hands to [setProgress]. *)
Definition percent (m : Machine) : Z :=
  Z.min 99 (100 * processed m / Z.max (totalEstimate m) (processed m)).

(** [b] is a new all-time high over [a]. *)
Definition exceeds (a b : Result.t) : Prop :=
  num_gt (Result.logRn b) (Result.logRn a) = true.

(** The spike history is strictly increasing, nothing in it is above the
    running maximum, and its last element is the running maximum. *)
Definition spike_inv (m : Machine) : Prop :=
  StronglySorted exceeds (spikeResults m) /\
  Forall (fun a => Result.logRn a = maxLogRn m \/
                   num_gt (maxLogRn m) (Result.logRn a) = true) (spikeResults m) /\
  (forall earlier r, spikeResults m = earlier ++ [r] ->
                     Result.logRn r = maxLogRn m) /\
  (spikeResults m = [] -> maxLogRn m = NegInf).

(** A progress value of a run under way. *)
Definition in99 (p : Z) : Prop := 0 <= p <= 99.

(** Either nothing above 99 was reported and the run has not completed,
    or the run has completed and 100 was reported last. *)
Definition progress_inv (m : Machine) : Prop :=
  0 <= processed m /\
  ((Forall in99 (progressLog m) /\ in99 (progress (ui m)) /\
    (pc m = Halted -> abortRef (ui m) = true)) \/
   (pc m = Halted /\ abortRef (ui m) = false /\ progress (ui m) = 100 /\
    exists l, progressLog m = l ++ [100] /\ Forall in99 l)).

(** Until a run completes, what it has published is what [begin] reset;
    once the abort flag is set the component is no longer computing. *)
Definition unpublished (m : Machine) : Prop :=
  (allData (ui m) = [] /\ spikes (ui m) = [] /\ stats (ui m) = None /\
   (abortRef (ui m) = true -> computing (ui m) = false)) \/
  (pc m = Halted /\ abortRef (ui m) = false).

(** The record a candidate contributes: its result when the log-ratio is
    finite, nothing otherwise. *)
Definition record_of (c : Z) : list Result.t :=
  match computeLogRatio c with
  | Some r => if isFinite (Result.logRn r) then [r] else []
  | None => []
  end.

(** The comparator of the final sort. *)
Definition after_n (a b : Result.t) : bool :=
  num_gt (num_sub (Result.n a) (Result.n b)) (Fin 0).

(** The candidates [all] of a run split into those evaluated, those still
    ahead, and those given up on after a cancellation; the accumulated
    results are the records of those evaluated, in order, until the final
    sort of a completed run. *)
Definition traced (all : list Z) (m : Machine) : Prop :=
  exists done dropped,
    all = done ++ pending m ++ dropped /\
    (abortRef (ui m) = false -> dropped = []) /\
    (results m = flat_map record_of done \/
     (pc m = Halted /\ abortRef (ui m) = false /\
      results m = Array_sort after_n (flat_map record_of done))).

(** What holds at every point of a run over the candidates [all]. *)
Definition run_inv (all : list Z) (m : Machine) : Prop :=
  Forall (fun c => 2 <= c) (pending m) /\
  spike_inv m /\ progress_inv m /\ unpublished m /\ traced all m.

(** A host that never clicks Stop. *)
Definition neverStopped : Host :=
  {| autoTrackSpikes := true; stopAt := fun _ => false |}.

(** A host that clicks Stop during the first suspension of the run. *)
Definition stoppedAtFirstYield : Host :=
  {| autoTrackSpikes := true; stopAt := fun i => Nat.eqb i 0 |}.

(** The component before its first run. *)
Definition idle : UI := mkUI false 0 None [] [] None false.
End Vocabulary.

(** ** The generator as a list of attempts *)

(** [tryAdd] applied to each of [ns] in turn. *)
Definition addAll (maxNBig : Z) (ns : list Z) (candidates : list Z) : list Z :=
  fold_left (fun candidates n => fst (tryAdd maxNBig candidates n)) ns candidates.

(** The values [lo, lo + 1, ..., hi] of a counting loop. *)
Definition upto (lo hi : Z) : list Z :=
  map (fun i => lo + Z.of_nat i) (seq 0 (Z.to_nat (hi - lo + 1))).

(** The passes of a counting loop that come before its [break]. *)
Definition visited (lo hi : Z) (stop : Z -> bool) : list Z :=
  filter (fun k => negb (stop k)) (upto lo hi).

(** The values of the stepping loop of the sparse sampling. *)
Definition lattice (step maxN : Z) : list Z :=
  map (fun i => 2 + step * Z.of_nat i) (seq 0 (passes 2 step maxN)).

(** Every argument [generateCandidates] hands to [tryAdd], in order. *)
Definition attempts (maxN : Z) (density : Density) : list Z :=
  flat_map (fun k => [2 ^ k - 1]) (visited 2 200 (fun k => 2 ^ k >? maxN)) ++
  flat_map (fun k => [3 ^ k - 1]) (visited 2 130 (fun k => 3 ^ k >? maxN)) ++
  flat_map (fun a =>
      flat_map (fun b => [2 ^ a * 3 ^ b - 1; 2 ^ a * 3 ^ b + 1])
               (visited 1 80 (fun b => 2 ^ a * 3 ^ b >? maxN)))
    (visited 1 100 (fun a => 2 ^ a >? maxN)) ++
  flat_map (fun k =>
      flat_map (fun offset => [2 ^ k + offset])
               (upto (- radius_of density) (radius_of density)))
    (visited 10 200 (fun k => 2 ^ k >? maxN)) ++
  flat_map (fun k =>
      flat_map (fun offset => [3 ^ k + offset])
               (upto (- radius_of density) (radius_of density)))
    (visited 6 130 (fun k => 3 ^ k >? maxN)) ++
  lattice (step_of density) maxN.

(** The forms of the integers the generator looks for: one less than a power
    of 2 or of 3, next to a product 2^a * 3^b, within the radius of a power
    of 2 (from 2^10 on) or of 3 (from 3^6 on), or on the sampling lattice
    that starts at 2. *)
Definition candidate_form (maxN : Z) (density : Density) (n : Z) : Prop :=
  (exists k, 2 <= k <= 200 /\ 2 ^ k <= maxN /\ n = 2 ^ k - 1) \/
  (exists k, 2 <= k <= 130 /\ 3 ^ k <= maxN /\ n = 3 ^ k - 1) \/
  (exists a b, 1 <= a <= 100 /\ 1 <= b <= 80 /\ 2 ^ a * 3 ^ b <= maxN /\
               (n = 2 ^ a * 3 ^ b - 1 \/ n = 2 ^ a * 3 ^ b + 1)) \/
  (exists k offset, 10 <= k <= 200 /\ 2 ^ k <= maxN /\
                    - radius_of density <= offset <= radius_of density /\
                    n = 2 ^ k + offset) \/
  (exists k offset, 6 <= k <= 130 /\ 3 ^ k <= maxN /\
                    - radius_of density <= offset <= radius_of density /\
                    n = 3 ^ k + offset) \/
  (exists i, 0 <= i /\ n = 2 + i * step_of density).

(** ** Vocabulary of the further properties *)

(** No accumulated record is above the running maximum, every spike is an
    accumulated record, and every accumulated record is finite; without
    auto-tracking nothing is tracked at all. *)
Definition max_inv {H : Host} (m : Machine) : Prop :=
  Forall (fun r => isFinite (Result.logRn r) = true) (results m) /\
  (autoTrackSpikes = true ->
   Forall (fun r => num_gt (Result.logRn r) (maxLogRn m) = false) (results m) /\
   incl (spikeResults m) (results m)) /\
  (autoTrackSpikes = false -> spikeResults m = [] /\ maxLogRn m = NegInf).

(** The comparator of the top-50 sort, [(a, b) => b.logRn - a.logRn]. *)
Definition after_logRn {M : MathOps} (a b : Result.t) : bool :=
  num_gt (num_sub (Result.logRn b) (Result.logRn a)) (Fin 0).

(** A run over fewer candidates than a batch holds: it has not suspended,
    has counted nothing and has reported nothing but the initial 0, until
    its epilogue reports 100. *)
Definition short_inv (m : Machine) : Prop :=
  awaits m = 0%nat /\ abortRef (ui m) = false /\ processed m = 0 /\
  match pc m with
  | Pull rest =>
      (length (batch m) + length rest < batchSize)%nat /\ progressLog m = [0]
  | Tail _ => progressLog m = [0]
  | Epilogue => progressLog m = [0]
  | Halted => progressLog m = [0; 100]
  | Await _ => False
  | Inner _ _ => False
  end.

(** ** Downsampling for the chart *)

(** [xs.filter((x, i) => keep(x, i))], the index starting at [i]. *)
Fixpoint filter_index {A : Type} (keep : A -> nat -> bool) (i : nat) (xs : list A)
    : list A :=
  match xs with
  | [] => []
  | x :: xs' =>
      if keep x i then x :: filter_index keep (S i) xs'
      else filter_index keep (S i) xs'
  end.

(** [Math.ceil(a / b)] on non-negative integers. *)
Definition ceil_div (a b : nat) : nat := ((a + b - 1) / b)%nat.

(** index.js, [getVisualData], on the [allData] of the component. *)
Definition getVisualData {A : Type} (allData : list A) : list A :=
  if (length allData <=? 5000)%nat then allData
  else
    let step := ceil_div (length allData) 5000 in
    filter_index (fun _ i => (i mod step =? 0)%nat) 0 allData.

(** How far index [i] is from the next multiple of [step]. *)
Definition to_next_multiple (step i : nat) : nat :=
  if (i mod step =? 0)%nat then 0%nat else (step - i mod step)%nat.

(** ** The generator of the high-performance variant *)

(** [set.add(n)] on a [Set] of integer Numbers, in insertion order. *)
Definition Set_add (candidates : list Z) (n : Z) : list Z :=
  if has candidates n then candidates else candidates ++ [n].

Module Sampler.
(** [generateCandidates(maxN, sampleCount)] of the high-performance variant.
    [maxN] is the component's setting, a positive integer of at most 10^15
    (see [HighPerf.handleSetMaxN]); in that range every Number the function
    forms below [maxN] is exact, and so is the floored quotient of the
    sampling step for a [sampleCount] of at least 1. *)
Definition generateCandidates (maxN sampleCount : Z) : list Z :=
  let candidates := [] in
  (* Regular sampling (sparse for large ranges) *)
  let step := Z.max 1 (maxN / Z.min sampleCount 1000) in
  let candidates :=
    for_step (passes 2 step maxN) 2 step maxN (fun n candidates =>
      Set_add candidates n) candidates in
  (* Powers of 2 minus 1 *)
  let candidates :=
    for_to 2 100 (fun k candidates =>
      let n := 2 ^ k - 1 in
      Continue (if n <=? maxN then Set_add candidates n else candidates))
      candidates in
  (* Powers of 3 minus 1 *)
  let candidates :=
    for_to 2 65 (fun k candidates =>
      let n := 3 ^ k - 1 in
      Continue (if n <=? maxN then Set_add candidates n else candidates))
      candidates in
  (* 2^a * 3^b - 1 *)
  let candidates :=
    for_to 1 40 (fun a candidates =>
      Continue
        (for_to 1 25 (fun b candidates =>
           let n := 2 ^ a * 3 ^ b - 1 in
           Continue (if n <=? maxN then Set_add candidates n else candidates))
         candidates)) candidates in
  (* 2^a * 3^b + 1 *)
  let candidates :=
    for_to 1 40 (fun a candidates =>
      Continue
        (for_to 1 25 (fun b candidates =>
           let n := 2 ^ a * 3 ^ b + 1 in
           Continue (if n <=? maxN then Set_add candidates n else candidates))
         candidates)) candidates in
  (* Dense sampling around powers of 2 and 3 *)
  let candidates :=
    for_to 10 60 (fun k candidates =>
      let center := 2 ^ k in
      Continue
        (if center <=? maxN then
           for_to (-100) 100 (fun offset candidates =>
             let n := center + offset in
             Continue (if (n >=? 2) && (n <=? maxN) then Set_add candidates n
                       else candidates)) candidates
         else candidates)) candidates in
  let candidates :=
    for_to 6 40 (fun k candidates =>
      let center := 3 ^ k in
      Continue
        (if center <=? maxN then
           for_to (-100) 100 (fun offset candidates =>
             let n := center + offset in
             Continue (if (n >=? 2) && (n <=? maxN) then Set_add candidates n
                       else candidates)) candidates
         else candidates)) candidates in
  Array_sort (fun a b => a - b >? 0) candidates.
End Sampler.

(** ** The controller of the high-performance variant *)

(** The operations of [computeRatioBigInt] that [MathOps] does not have. *)
Class RatioOps : Type := {
  num_div : Number -> Number -> Number;     (* a / b *)
  Math_log10 : Number -> Number
}.

Module Ratio.
Record t := mk {
  n : Z;
  pow2 : nat;
  pow3 : nat;
  remainder : Number;
  smoothPartLog : Number;
  ratio : Number;
  logRatio : Number
}.
End Ratio.

(** The summary of [setStats]; the numbers are kept as they are before
    [toFixed] and [toLocaleString] format them. *)
Module RatioStats.
Record t := mk {
  totalComputed : nat;
  maxRatio : Number;
  maxRatioN : Z;
  medianRatio : Number;
  largestN : Z
}.
End RatioStats.

(** The React state of the high-performance component. *)
Record Panel : Type := mkPanel {
  p_maxN : Z;
  p_computing : bool;
  p_progress : Z;
  p_data : list Ratio.t;
  p_topValues : list Ratio.t;
  p_stats : option RatioStats.t
}.

(** [candidates.slice(i, i + size)] for [i = 0, size, 2 * size, ...] below
    the length; [fuel] bounds the number of slices. *)
Fixpoint slices {A : Type} (fuel size : nat) (xs : list A) : list (list A) :=
  match fuel with
  | O => []
  | S fuel' =>
      match xs with
      | [] => []
      | _ :: _ => firstn size xs :: slices fuel' size (skipn size xs)
      end
  end.

Section RatioController.
Context {M : MathOps} {D : RatioOps}.

(** [computeRatioBigInt(n)] for an integer Number [n] below 2^53; [None]
    when the factorizer does not return. *)
Definition computeRatioBigInt (n : Z) : option Ratio.t :=
  let nBig := n in
  let product := nBig * (nBig + 1) in
  p <- HighPerf.extract23PowersBigInt product ;;
  let pow2 := Powers.pow2 p in
  let pow3 := Powers.pow3 p in
  let remainder := Powers.remainder p in
  let smoothPart := 2 ^ Z.of_nat pow2 * 3 ^ Z.of_nat pow3 in
  let logN := Math_log (Fin (IZR n)) in
  let ratio := num_div (Number_of_BigInt smoothPart) (num_mul (Fin (IZR n)) logN) in
  Some (Ratio.mk n pow2 pow3 (Number_of_BigInt remainder)
          (num_add (num_mul (Number_of_nat pow2) (Math_log (Fin 2)))
                   (num_mul (Number_of_nat pow3) (Math_log (Fin 3))))
          ratio (Math_log10 ratio)).

(** The loop of a timer callback over its batch. *)
Fixpoint evaluate_batch (batch : list Z) (results : list Ratio.t)
    : option (list Ratio.t) :=
  match batch with
  | [] => Some results
  | n :: batch' =>
      result <- computeRatioBigInt n ;;
      if isFinite (Ratio.ratio result) && num_gt (Ratio.ratio result) (Fin 0)
      then evaluate_batch batch' (results ++ [result])
      else evaluate_batch batch' results
  end.

(** The completion block of the last callback.  Reading [sorted[0].ratio]
    of an empty array throws; the callback ends there, after [setData] and
    [setTopValues] and before [setStats] and [setComputing(false)]. *)
Definition complete (results : list Ratio.t) (st : Panel) : list Ratio.t * Panel :=
  let results := Array_sort (fun a b => Ratio.n a - Ratio.n b >? 0) results in
  let sorted :=
    Array_sort (fun a b =>
      num_gt (num_sub (Ratio.ratio b) (Ratio.ratio a)) (Fin 0)) results in
  let st := mkPanel (p_maxN st) (p_computing st) (p_progress st)
                    results (firstn 30 sorted) (p_stats st) in
  match sorted, rev results with
  | first :: _, last :: _ =>
      let median := nth (length sorted / 2) sorted first in
      (results,
       mkPanel (p_maxN st) false (p_progress st) (p_data st) (p_topValues st)
         (Some (RatioStats.mk (length results) (Ratio.ratio first) (Ratio.n first)
                  (Ratio.ratio median) (Ratio.n last))))
  | _, _ => (results, st)
  end.

(** The locals shared by the callbacks, the component, and the values
    handed to [setProgress] so far. *)
Record Job : Type := mkJob {
  j_results : list Ratio.t;
  j_processed : Z;
  j_panel : Panel;
  j_reported : list Z
}.

(** One timer callback on its [batch]; [total] is [candidates.length].
    [processed] and [total] are counts far below 2^46, for which the floor
    of the rounded quotient is the floor of the exact one. *)
Definition callback (total : Z) (batch : list Z) (j : Job) : option Job :=
  results <- evaluate_batch batch (j_results j) ;;
  let processed := j_processed j + Z.of_nat (length batch) in
  let percent := 100 * processed / total in
  let st := j_panel j in
  let st := mkPanel (p_maxN st) (p_computing st) percent
                    (p_data st) (p_topValues st) (p_stats st) in
  if processed >=? total then
    let '(results, st) := complete results st in
    Some (mkJob results processed st (j_reported j ++ [percent]))
  else Some (mkJob results processed st (j_reported j ++ [percent])).

(** The callbacks in the order they were scheduled. *)
Fixpoint run_callbacks (total : Z) (batches : list (list Z)) (j : Job) : option Job :=
  match batches with
  | [] => Some j
  | batch :: batches' =>
      j' <- callback total batch j ;; run_callbacks total batches' j'
  end.

(** [computeData] of the high-performance variant, from the call to the
    return of the last timer callback. *)
Definition ratio_computeData (st : Panel) : option Job :=
  let st := mkPanel (p_maxN st) true 0 (p_data st) (p_topValues st) (p_stats st) in
  let candidates := Sampler.generateCandidates (p_maxN st) 10000 in
  let batchSize := 1000%nat in
  run_callbacks (Z.of_nat (length candidates))
                (slices (length candidates) batchSize candidates)
                (mkJob [] 0 st [0]).

(** The Compute button: [handleSetMaxN], then the effect on [maxN], which
    runs [computeData] when the setting has changed.  The result is the
    component once the timers have run. *)
Definition press_compute (val : option Z) (st : Panel) : option Panel :=
  let maxN := HighPerf.handleSetMaxN val (p_maxN st) in
  if maxN =? p_maxN st then Some st
  else
    j <- ratio_computeData
           (mkPanel maxN (p_computing st) (p_progress st) (p_data st)
                    (p_topValues st) (p_stats st)) ;;
    Some (j_panel j).

(** What one candidate contributes to [results]. *)
Definition kept_result (n : Z) : list Ratio.t :=
  match computeRatioBigInt n with
  | Some result =>
      if isFinite (Ratio.ratio result) && num_gt (Ratio.ratio result) (Fin 0)
      then [result] else []
  | None => []
  end.
End RatioController.

Module IdealRatio.
Definition div (a b : Number) : Number :=
  match a, b with
  | NaN, _ => NaN
  | _, NaN => NaN
  | Fin _, PosInf => Fin 0
  | Fin _, NegInf => Fin 0
  | _, PosInf => NaN
  | _, NegInf => NaN
  | PosInf, Fin y => if Rlt_dec y 0 then NegInf else PosInf
  | NegInf, Fin y => if Rlt_dec y 0 then PosInf else NegInf
  | Fin x, Fin y =>
      if Req_dec_T y 0 then
        (if Rlt_dec 0 x then PosInf else if Rlt_dec x 0 then NegInf else NaN)
      else Fin (x / y)
  end.

Definition log10 (x : Number) : Number := div (Ideal.log x) (Fin (ln 10)).
End IdealRatio.

(** Division and [Math.log10] on the reals behind the doubles. *)
Definition idealRatio : RatioOps := {|
  num_div := IdealRatio.div;
  Math_log10 := IdealRatio.log10
|}.

(** An idle component of the high-performance variant, as it is mounted. *)
Definition mounted : Panel := mkPanel 1000000 false 0 [] [] None.

(** ** The conversion from BigInt, replaced *)

(** [M] with [Number(...)] on BigInts replaced by [f]; how a computation
    depends on [f] shows which BigInts it converts. *)
Definition with_conversion (M : MathOps) (f : Z -> Number) : MathOps := {|
  Number_of_BigInt := f;
  Math_log := @Math_log M;
  Math_exp := @Math_exp M;
  num_add := @num_add M;
  num_sub := @num_sub M;
  num_mul := @num_mul M
|}.

(** * Properties *)

(** ** The stripping loops *)

Lemma while_fuel_mono {St : Type} (cond : St -> bool) (body : St -> St) :
  forall (fuel fuel' : nat) (s r : St),
    while fuel cond body s = Some r -> (fuel <= fuel')%nat ->
    while fuel' cond body s = Some r.
Proof.
  induction fuel as [|fuel IH]; intros fuel' s r Hrun Hle; simpl in Hrun.
  - discriminate.
  - destruct fuel' as [|fuel']; [lia|]. simpl.
    destruct (cond s); [|assumption].
    apply IH; [assumption | lia].
Qed.

(** On a zero product the test never fails. *)
Lemma strip_zero_diverges (d : Z) :
  forall (fuel : nat) (pow : nat),
    while fuel (strip_cond d) (strip_body d) (0, pow) = None.
Proof.
  induction fuel as [|fuel IH]; intros pow; [reflexivity|].
  cbn. apply IH.
Qed.

Lemma rem_zero_factor (p d : Z) :
  Z.rem p d = 0 -> p = d * Z.quot p d.
Proof.
  intros H. pose proof (Z.quot_rem' p d) as E. lia.
Qed.

(** What a stripping loop returns: the quotient left over is not divisible
    by [d] any more, and the counter has grown by the number of factors
    taken out. *)
Lemma strip_result (d : Z) :
  forall (fuel : nat) (p : Z) (c : nat) (p' : Z) (c' : nat),
    while fuel (strip_cond d) (strip_body d) (p, c) = Some (p', c') ->
    exists j : nat, c' = (c + j)%nat /\ p = d ^ Z.of_nat j * p' /\ Z.rem p' d <> 0.
Proof.
  induction fuel as [|fuel IH]; intros p c p' c' Hrun.
  - discriminate.
  - change (while (S fuel) (strip_cond d) (strip_body d) (p, c))
      with (if Z.rem p d =? 0
            then while fuel (strip_cond d) (strip_body d) (Z.quot p d, S c)
            else Some (p, c)) in Hrun.
    destruct (Z.eqb_spec (Z.rem p d) 0) as [Hz|Hnz].
    + destruct (IH _ _ _ _ Hrun) as (j & Hc & Hp & Hr).
      exists (S j). split; [lia|]. split; [|assumption].
      rewrite Nat2Z.inj_succ, Z.pow_succ_r by lia.
      rewrite (rem_zero_factor p d Hz) at 1. rewrite Hp. ring.
    + inversion Hrun; subst. exists 0%nat. split; [lia|].
      split; [|assumption]. change (Z.of_nat 0) with 0. rewrite Z.pow_0_r. lia.
Qed.

Lemma log2_quot_lt (p d : Z) :
  p <> 0 -> 2 <= d -> Z.rem p d = 0 ->
  Z.quot p d <> 0 /\ Z.log2 (Z.abs (Z.quot p d)) < Z.log2 (Z.abs p).
Proof.
  intros Hp Hd Hz. pose proof (rem_zero_factor p d Hz) as E.
  set (q := Z.quot p d) in *.
  assert (Hq : q <> 0) by (intros ->; lia).
  split; [assumption|].
  assert (Habs : Z.abs p = d * Z.abs q) by (rewrite E, Z.abs_mul; lia).
  assert (H2 : 2 * Z.abs q <= Z.abs p) by nia.
  pose proof (Z.log2_double (Z.abs q) ltac:(lia)) as Hdbl.
  pose proof (Z.log2_le_mono _ _ H2). lia.
Qed.

(** A stripping loop on a non-zero product leaves by its own test within
    [loop_fuel] passes. *)
Lemma strip_terminates (d : Z) :
  2 <= d ->
  forall (fuel : nat) (p : Z) (c : nat),
    p <> 0 -> Z.log2 (Z.abs p) < Z.of_nat fuel ->
    exists p' c', while fuel (strip_cond d) (strip_body d) (p, c) = Some (p', c').
Proof.
  intros Hd. induction fuel as [|fuel IH]; intros p c Hp Hlog.
  - pose proof (Z.log2_nonneg (Z.abs p)). lia.
  - change (while (S fuel) (strip_cond d) (strip_body d) (p, c))
      with (if Z.rem p d =? 0
            then while fuel (strip_cond d) (strip_body d) (Z.quot p d, S c)
            else Some (p, c)).
    destruct (Z.eqb_spec (Z.rem p d) 0) as [Hz|Hnz].
    + destruct (log2_quot_lt p d Hp Hd Hz) as [Hq Hlt].
      apply IH; [assumption | lia].
    + eauto.
Qed.

Lemma loop_fuel_enough (p : Z) : Z.log2 (Z.abs p) < Z.of_nat (loop_fuel p).
Proof.
  unfold loop_fuel. pose proof (Z.log2_nonneg (Z.abs p)). lia.
Qed.

(** ** The factorizer *)

(** [extract23Powers] runs the loops of the standalone function on the
    product it forms. *)
Lemma extract23Powers_on_product (n : Z) :
  extract23Powers n = HighPerf.extract23PowersBigInt (n * (n + 1)).
Proof. reflexivity. Qed.

Lemma LogSafe_extract_as_HighPerf (P : Z) :
  LogSafe.extract23PowersBigInt P =
  option_map (fun r => LogSafe.mkKL (Powers.pow2 r) (Powers.pow3 r) (Powers.remainder r))
             (HighPerf.extract23PowersBigInt P).
Proof.
  unfold LogSafe.extract23PowersBigInt, HighPerf.extract23PowersBigInt.
  destruct (while (loop_fuel P) _ _ _) as [[p1 c1]|]; [|reflexivity].
  destruct (while (loop_fuel p1) _ _ _) as [[p2 c2]|]; reflexivity.
Qed.

(** The standalone factorizer on a non-zero argument. *)
Lemma extract23PowersBigInt_factors (P : Z) :
  P <> 0 ->
  exists r, HighPerf.extract23PowersBigInt P = Some r /\
    2 ^ Z.of_nat (Powers.pow2 r) * 3 ^ Z.of_nat (Powers.pow3 r) * Powers.remainder r = P /\
    Z.rem (Powers.remainder r) 2 <> 0 /\
    Z.rem (Powers.remainder r) 3 <> 0 /\
    (Z.rem P 2 = 0 -> (1 <= Powers.pow2 r)%nat).
Proof.
  intros HP. unfold HighPerf.extract23PowersBigInt.
  destruct (strip_terminates 2 ltac:(lia) (loop_fuel P) P 0%nat HP (loop_fuel_enough P))
    as (p1 & c1 & Hrun1).
  change (while (loop_fuel P) (strip_cond 2) (strip_body 2) (P, 0%nat) = Some (p1, c1)) in Hrun1.
  destruct (strip_result 2 _ _ _ _ _ Hrun1) as (j1 & Hc1 & HP1 & Hodd).
  assert (Hp1 : p1 <> 0) by (intros ->; apply Hodd; reflexivity).
  destruct (strip_terminates 3 ltac:(lia) (loop_fuel p1) p1 0%nat Hp1 (loop_fuel_enough p1))
    as (p2 & c2 & Hrun2).
  destruct (strip_result 3 _ _ _ _ _ Hrun2) as (j2 & Hc2 & HP2 & Hno3).
  change (while (loop_fuel P) (fun s => Z.rem (fst s) 2 =? 0)
            (fun s => (Z.quot (fst s) 2, S (snd s))) (P, 0%nat))
    with (while (loop_fuel P) (strip_cond 2) (strip_body 2) (P, 0%nat)).
  rewrite Hrun1.
  change (while (loop_fuel p1) (fun s => Z.rem (fst s) 3 =? 0)
            (fun s => (Z.quot (fst s) 3, S (snd s))) (p1, 0%nat))
    with (while (loop_fuel p1) (strip_cond 3) (strip_body 3) (p1, 0%nat)).
  rewrite Hrun2.
  eexists. split; [reflexivity|]. simpl.
  simpl in Hc1, Hc2. subst c1 c2.
  split; [rewrite HP1, HP2; ring|].
  split.
  - intros Heven. apply Hodd. rewrite HP2.
    rewrite (rem_zero_factor p2 2 Heven).
    replace (3 ^ Z.of_nat j2 * (2 * Z.quot p2 2))
      with ((3 ^ Z.of_nat j2 * Z.quot p2 2) * 2) by ring.
    apply Z.rem_mul. lia.
  - split; [assumption|].
    intros Heven. destruct j1 as [|j1]; [|lia].
    exfalso. apply Hodd. change (Z.of_nat 0) with 0 in HP1.
    rewrite Z.pow_0_r in HP1. replace p1 with P by lia. assumption.
Qed.

Lemma consecutive_product_even (n : Z) : Z.rem (n * (n + 1)) 2 = 0.
Proof.
  destruct (Z.Even_or_Odd n) as [[q Hq]|[q Hq]]; subst n.
  - replace (2 * q * (2 * q + 1)) with (q * (2 * q + 1) * 2) by ring.
    apply Z.rem_mul. lia.
  - replace ((2 * q + 1) * (2 * q + 1 + 1)) with ((2 * q + 1) * (q + 1) * 2) by ring.
    apply Z.rem_mul. lia.
Qed.

(** C1. For every integer n >= 2 the factorizer returns (pow2, pow3,
    remainder) with 2^pow2 * 3^pow3 * remainder = n * (n + 1) exactly,
    remainder divisible by neither 2 nor 3, and pow2 >= 1; for n = 8 it
    returns pow2 = 3, pow3 = 2, remainder = 1.  The earlier variant, which
    forms the product before calling its standalone factorizer, returns the
    same three values. *)
Theorem extract23Powers_correct (n : Z) :
  2 <= n ->
  exists r,
    extract23Powers n = Some r /\
    2 ^ Z.of_nat (Powers.pow2 r) * 3 ^ Z.of_nat (Powers.pow3 r) * Powers.remainder r
      = n * (n + 1) /\
    Z.rem (Powers.remainder r) 2 <> 0 /\
    Z.rem (Powers.remainder r) 3 <> 0 /\
    (1 <= Powers.pow2 r)%nat /\
    (n = 8 -> r = Powers.mk 3 2 1) /\
    LogSafe.computeLogR_factors n =
      Some (LogSafe.mkKL (Powers.pow2 r) (Powers.pow3 r) (Powers.remainder r)).
Proof.
  intros Hn.
  destruct (extract23PowersBigInt_factors (n * (n + 1)) ltac:(nia))
    as (r & Hr & Hprod & H2 & H3 & Hpow2).
  exists r. rewrite extract23Powers_on_product.
  repeat split; try assumption.
  - apply Hpow2, consecutive_product_even.
  - intros ->. vm_compute in Hr. congruence.
  - unfold LogSafe.computeLogR_factors.
    rewrite LogSafe_extract_as_HighPerf, Hr. reflexivity.
Qed.

Lemma extract23Powers_correct_witness :
  exists r,
    extract23Powers 8 = Some r /\
    2 ^ Z.of_nat (Powers.pow2 r) * 3 ^ Z.of_nat (Powers.pow3 r) * Powers.remainder r
      = 8 * (8 + 1) /\
    Z.rem (Powers.remainder r) 2 <> 0 /\
    Z.rem (Powers.remainder r) 3 <> 0 /\
    (1 <= Powers.pow2 r)%nat /\
    (8 = 8 -> r = Powers.mk 3 2 1) /\
    LogSafe.computeLogR_factors 8 =
      Some (LogSafe.mkKL (Powers.pow2 r) (Powers.pow3 r) (Powers.remainder r)).
Proof. apply (extract23Powers_correct 8). lia. Defined.

(** C10. For every n >= 2, [extract23Powers n] of index.js returns the same
    (pow2, pow3, remainder) as the standalone [extract23PowersBigInt] of
    either earlier variant applied to the product n * (n + 1). *)
Theorem extract23Powers_equiv_BigInt (n : Z) :
  2 <= n ->
  exists pow2 pow3 remainder,
    extract23Powers n = Some (Powers.mk pow2 pow3 remainder) /\
    HighPerf.extract23PowersBigInt (n * (n + 1)) = Some (Powers.mk pow2 pow3 remainder) /\
    LogSafe.extract23PowersBigInt (n * (n + 1)) = Some (LogSafe.mkKL pow2 pow3 remainder).
Proof.
  intros Hn.
  destruct (extract23PowersBigInt_factors (n * (n + 1)) ltac:(nia)) as ([p2 p3 m] & Hr & _).
  exists p2, p3, m. rewrite extract23Powers_on_product, LogSafe_extract_as_HighPerf, Hr.
  repeat split.
Qed.

Lemma extract23Powers_equiv_BigInt_witness :
  exists pow2 pow3 remainder,
    extract23Powers 9 = Some (Powers.mk pow2 pow3 remainder) /\
    HighPerf.extract23PowersBigInt (9 * (9 + 1)) = Some (Powers.mk pow2 pow3 remainder) /\
    LogSafe.extract23PowersBigInt (9 * (9 + 1)) = Some (LogSafe.mkKL pow2 pow3 remainder).
Proof. apply (extract23Powers_equiv_BigInt 9). lia. Defined.

(** ** The loop combinators *)

(** A property kept by every pass is kept by the loop. *)
Lemma for_range_invariant {St : Type} (P : St -> Prop) (body : Z -> St -> Flow St) :
  (forall k s, P s -> P (flow_state (body k s))) ->
  forall count k s, P s -> P (for_range count k body s).
Proof.
  intros Hbody. induction count as [|count IH]; intros k s Hs; simpl.
  - assumption.
  - specialize (Hbody k s Hs). destruct (body k s) as [s'|s']; simpl in Hbody.
    + apply IH. assumption.
    + assumption.
Qed.

Lemma for_to_invariant {St : Type} (P : St -> Prop) (body : Z -> St -> Flow St) :
  (forall k s, P s -> P (flow_state (body k s))) ->
  forall lo hi s, P s -> P (for_to lo hi body s).
Proof.
  intros Hbody lo hi s Hs. unfold for_to.
  apply for_range_invariant; assumption.
Qed.

Lemma for_step_invariant {St : Type} (P : St -> Prop) (body : Z -> St -> St)
    (step bound : Z) :
  (forall n s, P s -> P (body n s)) ->
  forall count n s, P s -> P (for_step count n step bound body s).
Proof.
  intros Hbody. induction count as [|count IH]; intros n s Hs; simpl.
  - assumption.
  - destruct (n <=? bound); [apply IH, Hbody|]; assumption.
Qed.

Lemma for_step_past_bound {St : Type} (body : Z -> St -> St) (step bound : Z) :
  forall count n s, bound < n -> for_step count n step bound body s = s.
Proof.
  intros [|count] n s Hn; simpl; [reflexivity|].
  destruct (Z.leb_spec n bound); [lia | reflexivity].
Qed.

(** With [passes] unrollings the stepping loop leaves by its own test: more
    unrollings change nothing. *)
Lemma for_step_passes {St : Type} (body : Z -> St -> St) (step bound : Z) :
  0 < step ->
  forall count n s,
    (passes n step bound <= count)%nat ->
    for_step count n step bound body s
    = for_step (passes n step bound) n step bound body s.
Proof.
  intros Hstep count n s. remember (passes n step bound) as p eqn:Hp.
  revert count n s Hp. induction p as [|p IH]; intros count n s Hp Hle.
  - simpl. apply for_step_past_bound. unfold passes in Hp.
    destruct (Z.lt_ge_cases bound n) as [|Hge]; [assumption|].
    pose proof (Z.div_pos (bound - n) step ltac:(lia) Hstep). lia.
  - destruct count as [|count]; [lia|]. simpl.
    assert (Hn : n <= bound).
    { unfold passes in Hp. destruct (Z.le_gt_cases n bound) as [|Hgt]; [assumption|].
      assert ((bound - n) / step < 0) by (apply Z.div_lt_upper_bound; lia). lia. }
    destruct (Z.leb_spec n bound); [|lia].
    apply IH; [|lia]. unfold passes in *.
    replace (bound - (n + step)) with ((bound - n) + (-1) * step) by ring.
    rewrite Z.div_add by lia. lia.
Qed.

(** ** The candidate generator *)

Lemma has_true_iff (candidates : list Z) (n : Z) :
  has candidates n = true <-> In n candidates.
Proof.
  unfold has. rewrite existsb_exists. split.
  - intros (x & Hin & Heq). apply Z.eqb_eq in Heq. subst. assumption.
  - intros Hin. exists n. split; [assumption | apply Z.eqb_refl].
Qed.

(** Every way the generator changes its set goes through [tryAdd]: a
    property of sets that [tryAdd] keeps holds of the set handed to [sort]. *)
Lemma generateCandidates_invariant (P : list Z -> Prop) (maxN : Z) (density : Density) :
  P [] ->
  (forall candidates n, P candidates -> P (fst (tryAdd maxN candidates n))) ->
  exists candidates,
    generateCandidates maxN density
      = Array_sort (fun a b => compareBigInt a b >? 0) candidates /\
    P candidates.
Proof.
  intros Hempty Hadd. unfold generateCandidates. cbv zeta.
  eexists. split; [reflexivity|].
  apply for_step_invariant; [intros; apply Hadd; assumption|].
  repeat (apply for_to_invariant;
          [ intros k s Hs;
            match goal with
            | |- context [if ?c then _ else _] => destruct c
            end; simpl;
            try assumption;
            repeat (apply for_to_invariant;
                    [ intros k' s' Hs';
                      try match goal with
                          | |- context [if ?c then _ else _] => destruct c
                          end; simpl; try assumption;
                      repeat apply Hadd; assumption | ]);
            repeat apply Hadd; assumption
          | ]).
  assumption.
Qed.

Lemma tryAdd_in_range_set (maxN : Z) (candidates : list Z) (n : Z) :
  in_range_set maxN candidates ->
  in_range_set maxN (fst (tryAdd maxN candidates n)).
Proof.
  intros [Hnd Hall]. unfold tryAdd.
  destruct (Z.geb_spec n 2) as [Hlo|Hlo]; simpl; [|split; assumption].
  destruct (Z.leb_spec n maxN) as [Hhi|Hhi]; simpl; [|split; assumption].
  destruct (has candidates n) eqn:Hhas; simpl; [split; assumption|].
  assert (Hnotin : ~ In n candidates).
  { intros Hin. apply has_true_iff in Hin. congruence. }
  split.
  - apply NoDup_app; [assumption | constructor; [intros [] | constructor] |].
    intros x Hx [Hxn|[]]. subst. contradiction.
  - apply Forall_app. split; [assumption|]. constructor; [lia | constructor].
Qed.

Lemma tryAdd_keeps (maxN : Z) (candidates : list Z) (n x : Z) :
  In x candidates -> In x (fst (tryAdd maxN candidates n)).
Proof.
  intros Hin. unfold tryAdd.
  destruct ((n >=? 2) && (n <=? maxN) && negb (has candidates n)); simpl;
    [apply in_or_app; left|]; assumption.
Qed.

Lemma tryAdd_member (maxN : Z) (candidates : list Z) (n : Z) :
  2 <= n <= maxN -> In n (fst (tryAdd maxN candidates n)).
Proof.
  intros [Hlo Hhi]. unfold tryAdd.
  destruct (Z.geb_spec n 2); [|lia]. destruct (Z.leb_spec n maxN); [|lia]. simpl.
  destruct (has candidates n) eqn:Hhas; simpl.
  - apply has_true_iff. assumption.
  - apply in_or_app. right. left. reflexivity.
Qed.

(** *** Sorting *)

Lemma insert_perm {A : Type} (after : A -> A -> bool) (x : A) (l : list A) :
  Permutation (insert after x l) (x :: l).
Proof.
  induction l as [|y l IH]; simpl; [apply Permutation_refl|].
  destruct (after x y); [|apply Permutation_refl].
  eapply perm_trans; [apply perm_skip, IH | apply perm_swap].
Qed.

Lemma Array_sort_perm {A : Type} (after : A -> A -> bool) (l : list A) :
  Permutation (Array_sort after l) l.
Proof.
  induction l as [|x l IH]; simpl; [apply perm_nil|].
  eapply perm_trans; [apply insert_perm | apply perm_skip, IH].
Qed.

Lemma compareBigInt_pos (a b : Z) : (compareBigInt a b >? 0) = (b <? a).
Proof.
  unfold compareBigInt.
  destruct (Z.ltb_spec a b), (Z.gtb_spec a b), (Z.ltb_spec b a); try reflexivity; lia.
Qed.

Lemma insert_ascending (x : Z) (l : list Z) :
  StronglySorted Z.le l ->
  StronglySorted Z.le (insert (fun a b => compareBigInt a b >? 0) x l).
Proof.
  induction l as [|y l IH]; intros Hs; simpl.
  - constructor; constructor.
  - rewrite compareBigInt_pos. inversion Hs as [|? ? Hl Hy]; subst.
    destruct (Z.ltb_spec y x) as [Hlt|Hge].
    + constructor; [apply IH; assumption|].
      eapply Permutation_Forall; [apply Permutation_sym, insert_perm|].
      constructor; [lia | assumption].
    + constructor; [assumption|]. constructor; [assumption|].
      eapply Forall_impl; [|apply Hy]. simpl. intros. lia.
Qed.

Lemma Array_sort_ascending (l : list Z) :
  StronglySorted Z.le (Array_sort (fun a b => compareBigInt a b >? 0) l).
Proof.
  induction l as [|x l IH]; simpl; [constructor | apply insert_ascending, IH].
Qed.

Lemma ascending_nodup_strict (l : list Z) :
  StronglySorted Z.le l -> NoDup l -> StronglySorted Z.lt l.
Proof.
  induction 1 as [|x l Hs IH Hx]; intros Hnd; [constructor|].
  inversion Hnd as [|? ? Hnotin Hnd']; subst.
  constructor; [apply IH; assumption|].
  rewrite Forall_forall in *. intros y Hy.
  specialize (Hx y Hy). assert (x <> y) by (intros ->; contradiction). lia.
Qed.

(** The sequence the generator yields. *)
Lemma generateCandidates_sound (maxN : Z) (density : Density) :
  Forall (fun n => 2 <= n <= maxN) (generateCandidates maxN density) /\
  NoDup (generateCandidates maxN density) /\
  StronglySorted Z.lt (generateCandidates maxN density).
Proof.
  destruct (generateCandidates_invariant (in_range_set maxN) maxN density)
    as (candidates & -> & Hnd & Hall).
  - split; constructor.
  - intros. apply tryAdd_in_range_set. assumption.
  - pose proof (Array_sort_perm (fun a b => compareBigInt a b >? 0) candidates) as Hperm.
    assert (Hnd' : NoDup (Array_sort (fun a b => compareBigInt a b >? 0) candidates)).
    { eapply Permutation_NoDup; [apply Permutation_sym, Hperm | assumption]. }
    split; [|split].
    + eapply Permutation_Forall; [apply Permutation_sym, Hperm | assumption].
    + assumption.
    + apply ascending_nodup_strict; [apply Array_sort_ascending | assumption].
Qed.

(** The candidate 2 is always there: the sparse sampling starts at it. *)
Lemma generateCandidates_yields_two (maxN : Z) (density : Density) :
  2 <= maxN -> In 2 (generateCandidates maxN density).
Proof.
  intros HmaxN.
  assert (Hshape : exists candidates,
            generateCandidates maxN density
            = Array_sort (fun a b => compareBigInt a b >? 0)
                (for_step (passes 2 (step_of density) maxN) 2 (step_of density) maxN
                   (fun n candidates => fst (tryAdd maxN candidates n)) candidates)).
  { unfold generateCandidates. cbv zeta. eexists. reflexivity. }
  destruct Hshape as (candidates & ->).
  eapply Permutation_in; [apply Permutation_sym, Array_sort_perm|].
  assert (Hstep : 0 < step_of density) by (destruct density; reflexivity).
  assert (Hpasses : exists p, passes 2 (step_of density) maxN = S p).
  { unfold passes.
    pose proof (Z.div_pos (maxN - 2) (step_of density) ltac:(lia) Hstep).
    exists (Z.to_nat ((maxN - 2) / step_of density)). lia. }
  destruct Hpasses as (p & ->). simpl.
  destruct (Z.leb_spec 2 maxN); [|lia].
  apply for_step_invariant.
  - intros. apply tryAdd_keeps. assumption.
  - apply tryAdd_member. lia.
Qed.

(** C3. For every maxN >= 2 and every density setting, every element the
    generator yields lies in [2, maxN], no value is yielded twice, and the
    sequence is ascending; it is not empty, for it starts with the candidate
    2 of the sparse sampling. *)
Theorem generateCandidates_in_range_unique_sorted (maxN : Z) (density : Density) :
  2 <= maxN ->
  Forall (fun n => 2 <= n <= maxN) (generateCandidates maxN density) /\
  NoDup (generateCandidates maxN density) /\
  StronglySorted Z.lt (generateCandidates maxN density) /\
  In 2 (generateCandidates maxN density).
Proof.
  intros HmaxN.
  destruct (generateCandidates_sound maxN density) as (Hrange & Hnodup & Hsorted).
  repeat split; try assumption.
  apply generateCandidates_yields_two. assumption.
Qed.

Lemma generateCandidates_in_range_unique_sorted_witness :
  Forall (fun n => 2 <= n <= 30) (generateCandidates 30 low) /\
  NoDup (generateCandidates 30 low) /\
  StronglySorted Z.lt (generateCandidates 30 low) /\
  In 2 (generateCandidates 30 low).
Proof. apply (generateCandidates_in_range_unique_sorted 30 low). lia. Defined.

(** ** Numbers *)

Lemma num_gt_trans (a b c : Number) :
  num_gt a b = true -> num_gt b c = true -> num_gt a c = true.
Proof.
  destruct a as [| | |x], b as [| | |y], c as [| | |z]; simpl;
    try discriminate; try reflexivity.
  destruct (Rlt_dec y x), (Rlt_dec z y), (Rlt_dec z x);
    try discriminate; try reflexivity.
  intros _ _. exfalso. lra.
Qed.

Lemma num_gt_irrefl (a : Number) : num_gt a a = false.
Proof.
  destruct a as [| | |x]; simpl; try reflexivity.
  destruct (Rlt_dec x x); [exfalso; lra | reflexivity].
Qed.

(** ** The evaluator *)

Section EvaluatorFacts.
Context {M : MathOps}.

(** On a candidate of the generator the evaluator returns. *)
Lemma computeLogRatio_returns (n : Z) :
  2 <= n -> exists r, computeLogRatio n = Some r.
Proof.
  intros Hn. unfold computeLogRatio.
  destruct (extract23PowersBigInt_factors (n * (n + 1)) ltac:(nia)) as (p & Hp & _).
  rewrite extract23Powers_on_product, Hp. eexists. reflexivity.
Qed.
End EvaluatorFacts.

(** Without rounding the log-ratio of every candidate from 2 on is finite. *)
Lemma ideal_logRn_finite (n : Z) :
  2 <= n ->
  exists r, computeLogRatio (M := idealMath) n = Some r /\
            isFinite (Result.logRn r) = true.
Proof.
  intros Hn. unfold computeLogRatio.
  destruct (extract23PowersBigInt_factors (n * (n + 1)) ltac:(nia)) as (p & Hp & _).
  rewrite extract23Powers_on_product, Hp. eexists. split; [reflexivity|].
  cbn [Result.logRn]. unfold LOG2, LOG3, Number_of_nat. cbn.
  assert (H1 : (1 < IZR n)%R) by (apply IZR_lt; lia).
  destruct (Rlt_dec 0 (IZR n)) as [_|Hneg]; [|exfalso; lra].
  assert (Hln : (0 < ln (IZR n))%R).
  { rewrite <- ln_1. apply ln_increasing; lra. }
  cbn. destruct (Rlt_dec 0 (ln (IZR n))) as [_|Hneg]; [|exfalso; lra].
  destruct (Rlt_dec 0 2) as [_|Hneg]; [|exfalso; lra].
  destruct (Rlt_dec 0 3) as [_|Hneg]; [|exfalso; lra].
  reflexivity.
Qed.

(** ** The evaluator in log space *)

Lemma Ideal_log_pos (x : R) : (0 < x)%R -> Ideal.log (Fin x) = Fin (ln x).
Proof.
  intros Hx. unfold Ideal.log. destruct (Rlt_dec 0 x); [reflexivity | contradiction].
Qed.

Lemma IdealRatio_div_fin (x y : R) :
  y <> 0%R -> IdealRatio.div (Fin x) (Fin y) = Fin (x / y).
Proof.
  intros Hy. unfold IdealRatio.div. destruct (Req_dec_T y 0); [contradiction | reflexivity].
Qed.

Lemma ln_pos (x : R) : (1 < x)%R -> (0 < ln x)%R.
Proof. intros Hx. rewrite <- ln_1. apply ln_increasing; lra. Qed.

(** The exponential of the log-space sum is the ratio itself. *)
Lemma exp_log_space (a b : nat) (x : R) :
  (1 < x)%R ->
  exp (INR a * ln 2 + INR b * ln 3 - ln x - ln (ln x))
  = (2 ^ a * 3 ^ b / (x * ln x))%R.
Proof.
  intros Hx. pose proof (ln_pos x Hx) as Hln.
  unfold Rminus. rewrite !exp_plus, !exp_Ropp, !exp_ln by lra.
  assert (Hpow : forall c (n : nat), (0 < c)%R -> exp (INR n * ln c) = (c ^ n)%R).
  { intros c n Hc. rewrite <- Rpower_pow by assumption. reflexivity. }
  rewrite !Hpow by lra. field. lra.
Qed.

(** C2. For every n >= 3 the evaluator of index.js returns the record of
    the exact exponents of n(n+1) whose logRatio is pow2 * LOG2 + pow3 * LOG3
    - log(n) - log(log(n)) and whose ratio is the exponential of that
    logRatio, whatever the implementation of the Number operations.  It
    works in log space: the only BigInt it converts to a Number is n itself
    (replacing the conversion anywhere else changes nothing), so neither
    2^pow2 * 3^pow3 nor a quotient is ever formed.  Without rounding the
    logRatio is pow2 ln 2 + pow3 ln 3 - ln n - ln ln n, and the ratio is
    2^pow2 * 3^pow3 / (n ln n). *)
Theorem computeLogRatio_in_log_space (n : Z) :
  3 <= n ->
  (forall M : MathOps,
     exists r,
       computeLogRatio (M := M) n = Some r /\
       2 ^ Z.of_nat (Result.pow2 r) * 3 ^ Z.of_nat (Result.pow3 r) * Result.remainder r
       = n * (n + 1) /\
       Z.rem (Result.remainder r) 2 <> 0 /\ Z.rem (Result.remainder r) 3 <> 0 /\
       Result.logRn r
       = num_sub
           (num_sub
              (num_add (num_mul (Number_of_nat (Result.pow2 r)) (Math_log (Fin 2)))
                       (num_mul (Number_of_nat (Result.pow3 r)) (Math_log (Fin 3))))
              (Math_log (Number_of_BigInt n)))
           (Math_log (Math_log (Number_of_BigInt n))) /\
       Result.ratio r = Math_exp (Result.logRn r)) /\
  (forall (M : MathOps) (f : Z -> Number),
     f n = Number_of_BigInt (MathOps := M) n ->
     computeLogRatio (M := with_conversion M f) n = computeLogRatio (M := M) n) /\
  (exists r,
     computeLogRatio (M := idealMath) n = Some r /\
     Result.logRn r
     = Fin (INR (Result.pow2 r) * ln 2 + INR (Result.pow3 r) * ln 3
            - ln (IZR n) - ln (ln (IZR n))) /\
     Result.ratio r
     = Fin (2 ^ Result.pow2 r * 3 ^ Result.pow3 r / (IZR n * ln (IZR n)))).
Proof.
  intros Hn.
  destruct (extract23PowersBigInt_factors (n * (n + 1)) ltac:(nia))
    as (p & Hp & Hprod & H2 & H3 & _).
  assert (Hx : (1 < IZR n)%R) by (apply IZR_lt; lia).
  pose proof (ln_pos _ Hx) as Hln.
  split; [|split].
  - intros M. unfold computeLogRatio. rewrite extract23Powers_on_product, Hp.
    eexists. split; [reflexivity|]. cbn [Result.pow2 Result.pow3 Result.remainder
      Result.logRn Result.ratio].
    split; [assumption|]. split; [assumption|]. split; [assumption|].
    split; reflexivity.
  - intros M f Hf. unfold computeLogRatio.
    destruct (extract23Powers n); [|reflexivity].
    cbv zeta. unfold LOG2, LOG3. cbn [with_conversion Number_of_BigInt Math_log
      Math_exp num_add num_sub num_mul]. rewrite Hf. reflexivity.
  - unfold computeLogRatio. rewrite extract23Powers_on_product, Hp.
    eexists. split; [reflexivity|].
    cbn [Result.pow2 Result.pow3 Result.logRn Result.ratio].
    unfold LOG2, LOG3, Number_of_nat.
    cbn [idealMath Number_of_BigInt Math_log Math_exp num_add num_sub num_mul].
    rewrite !Ideal_log_pos by lra.
    cbn [Ideal.mul Ideal.add Ideal.sub Ideal.neg Ideal.exp].
    split; [reflexivity|].
    rewrite <- (exp_log_space _ _ _ Hx). reflexivity.
Qed.

Lemma computeLogRatio_in_log_space_witness :
  (forall M : MathOps,
     exists r,
       computeLogRatio (M := M) 8 = Some r /\
       2 ^ Z.of_nat (Result.pow2 r) * 3 ^ Z.of_nat (Result.pow3 r) * Result.remainder r
       = 8 * (8 + 1) /\
       Z.rem (Result.remainder r) 2 <> 0 /\ Z.rem (Result.remainder r) 3 <> 0 /\
       Result.logRn r
       = num_sub
           (num_sub
              (num_add (num_mul (Number_of_nat (Result.pow2 r)) (Math_log (Fin 2)))
                       (num_mul (Number_of_nat (Result.pow3 r)) (Math_log (Fin 3))))
              (Math_log (Number_of_BigInt 8)))
           (Math_log (Math_log (Number_of_BigInt 8))) /\
       Result.ratio r = Math_exp (Result.logRn r)) /\
  (forall (M : MathOps) (f : Z -> Number),
     f 8 = Number_of_BigInt (MathOps := M) 8 ->
     computeLogRatio (M := with_conversion M f) 8 = computeLogRatio (M := M) 8) /\
  (exists r,
     computeLogRatio (M := idealMath) 8 = Some r /\
     Result.logRn r
     = Fin (INR (Result.pow2 r) * ln 2 + INR (Result.pow3 r) * ln 3
            - ln (IZR 8) - ln (ln (IZR 8))) /\
     Result.ratio r
     = Fin (2 ^ Result.pow2 r * 3 ^ Result.pow3 r / (IZR 8 * ln (IZR 8)))).
Proof. apply (computeLogRatio_in_log_space 8). lia. Defined.

Lemma ln_below (x : R) : (0 < x)%R -> (ln x < x)%R.
Proof.
  intros Hx. pose proof (exp_ineq1 x ltac:(lra)) as Hexp.
  rewrite <- (ln_exp x) at 2. apply ln_increasing; lra.
Qed.

Lemma ln_10_above_1 : (1 < ln 10)%R.
Proof.
  pose proof exp_le_3 as H3. pose proof (exp_pos 1) as Hpos.
  rewrite <- (ln_exp 1) at 1. apply ln_increasing; lra.
Qed.

Lemma Rdiv_above_1 (a d : R) : (0 < d -> d < a -> 1 < a / d)%R.
Proof.
  intros Hd Hlt. apply (Rmult_lt_reg_r d); [assumption|].
  unfold Rdiv. rewrite Rmult_assoc, Rinv_l by lra. lra.
Qed.

Lemma Rdiv_below (x y : R) : (0 < x -> 1 < y -> x / y < x)%R.
Proof.
  intros Hx Hy. apply (Rmult_lt_reg_r y); [lra|].
  unfold Rdiv. rewrite Rmult_assoc, Rinv_l by lra. nra.
Qed.

(** The ratio of n = 8, [72 / (8 ln 8)], and its two logarithms. *)
Lemma ratio_of_8 :
  (0 < ln 8 /\ 1 < 72 / (8 * ln 8) /\
   ln (72 / (8 * ln 8)) = 3 * ln 2 + 2 * ln 3 - ln 8 - ln (ln 8) /\
   ln (72 / (8 * ln 8)) / ln 10 < ln (72 / (8 * ln 8)))%R.
Proof.
  assert (H8 : (0 < ln 8)%R) by (apply ln_pos; lra).
  pose proof (ln_below 8 ltac:(lra)) as Hlt.
  pose proof ln_10_above_1 as H10.
  assert (Hq : (1 < 72 / (8 * ln 8))%R).
  { apply Rdiv_above_1; lra. }
  split; [assumption|]. split; [assumption|]. split.
  - replace (3 * ln 2 + 2 * ln 3 - ln 8 - ln (ln 8))%R
      with (INR 3 * ln 2 + INR 2 * ln 3 - ln 8 - ln (ln 8))%R by (cbn [INR]; lra).
    rewrite <- (ln_exp (INR 3 * ln 2 + INR 2 * ln 3 - ln 8 - ln (ln 8))).
    rewrite (exp_log_space 3 2 8) by lra. f_equal. lra.
  - pose proof (ln_pos _ Hq) as Hlnq.
    apply Rdiv_below; assumption.
Qed.

(** C2, refuted as stated. The evaluator of the high-performance variant
    does not work in log space.  At n = 8 it forms the ratio 72 / (8 ln 8)
    as a quotient of Numbers, the first of them the converted product
    2^3 * 3^2 (changing that conversion changes the result); its logRatio
    is the base-10 logarithm of that quotient, which is neither
    3 ln 2 + 2 ln 3 - ln 8 - ln ln 8 nor a number whose exponential is the
    ratio. *)
Lemma computeRatioBigInt_forms_the_ratio :
  exists r,
    computeRatioBigInt (M := idealMath) (D := idealRatio) 8 = Some r /\
    Ratio.pow2 r = 3%nat /\ Ratio.pow3 r = 2%nat /\
    Ratio.ratio r = Fin (72 / (8 * ln 8)) /\
    Ratio.logRatio r = Fin (ln (72 / (8 * ln 8)) / ln 10) /\
    Ratio.logRatio r <> Fin (3 * ln 2 + 2 * ln 3 - ln 8 - ln (ln 8)) /\
    Ratio.ratio r <> Math_exp (MathOps := idealMath) (Ratio.logRatio r) /\
    computeRatioBigInt
      (M := with_conversion idealMath (fun z => if z =? 72 then NaN else Fin (IZR z)))
      (D := idealRatio) 8
    <> Some r.
Proof.
  destruct ratio_of_8 as (H8 & Hq & Hformula & Hlog10).
  assert (Hp : HighPerf.extract23PowersBigInt (8 * (8 + 1)) = Some (Powers.mk 3 2 1))
    by (vm_compute; reflexivity).
  assert (Hratio : IdealRatio.div (Fin 72) (Ideal.mul (Fin 8) (Ideal.log (Fin 8)))
                   = Fin (72 / (8 * ln 8))).
  { rewrite Ideal_log_pos by lra. cbn [Ideal.mul]. apply IdealRatio_div_fin. nra. }
  assert (Hlog : IdealRatio.log10 (Fin (72 / (8 * ln 8)))
                 = Fin (ln (72 / (8 * ln 8)) / ln 10)).
  { unfold IdealRatio.log10. rewrite Ideal_log_pos by lra.
    apply IdealRatio_div_fin. pose proof ln_10_above_1. lra. }
  unfold computeRatioBigInt. cbv zeta. rewrite Hp.
  cbn [Powers.pow2 Powers.pow3 Powers.remainder].
  change (2 ^ Z.of_nat 3 * 3 ^ Z.of_nat 2) with 72.
  cbn [idealMath idealRatio with_conversion Number_of_BigInt Math_log Math_exp
       num_add num_sub num_mul num_div Math_log10].
  change (72 =? 72) with true. cbv iota.
  rewrite Hratio, Hlog.
  eexists. split; [reflexivity|].
  cbn [Ratio.pow2 Ratio.pow3 Ratio.ratio Ratio.logRatio Ideal.exp].
  split; [reflexivity|]. split; [reflexivity|]. split; [reflexivity|].
  split; [reflexivity|]. split; [|split].
  - intros Heq. injection Heq as Heq. lra.
  - intros Heq. injection Heq as Heq.
    apply (f_equal ln) in Heq. rewrite ln_exp in Heq. lra.
  - intros Heq. injection Heq as Heq. discriminate Heq.
Qed.

(** ** The controller: steps *)

Ltac break_match H :=
  repeat match type of H with
         | context [match ?x with _ => _ end] => destruct x eqn:?
         | context [if ?x then _ else _] => destruct x eqn:?
         end.

Section ControllerFacts.
Context {M : MathOps} {H : Host}.

Lemma exec_plus (a b : nat) (m : Machine) :
  exec (a + b) m = (m' <- exec a m ;; exec b m').
Proof.
  revert m. induction a as [|a IH]; intros m; simpl; [reflexivity|].
  destruct (step m); [apply IH | reflexivity].
Qed.

Lemma exec_halted (k : nat) (m : Machine) :
  pc m = Halted -> exec k m = Some m.
Proof.
  intros Hpc. induction k as [|k IH]; simpl; [reflexivity|].
  unfold step. rewrite Hpc. exact IH.
Qed.

(** A property kept by every step holds along the whole run. *)
Lemma exec_invariant (P : Machine -> Prop) :
  (forall m m', P m -> step m = Some m' -> P m') ->
  forall k m m', P m -> exec k m = Some m' -> P m'.
Proof.
  intros Hstep. induction k as [|k IH]; intros m m' Hm Hexec; simpl in Hexec.
  - injection Hexec as <-. assumption.
  - destruct (step m) as [m1|] eqn:Hs; [|discriminate].
    eapply IH; [eapply Hstep; eassumption | assumption].
Qed.

(** What processing one candidate leaves untouched. *)
Lemma track_frame (r : Result.t) (m : Machine) :
  pc (track r m) = pc m /\ batch (track r m) = batch m /\
  ui (track r m) = ui m /\ processed (track r m) = processed m /\
  totalEstimate (track r m) = totalEstimate m /\
  progressLog (track r m) = progressLog m /\
  results (track r m) = results m ++ [r].
Proof.
  unfold track. cbn.
  destruct (autoTrackSpikes && num_gt (Result.logRn r) (maxLogRn m));
    cbn; repeat split.
Qed.

Lemma process_full_frame (c : Z) (m m' : Machine) :
  process_full c m = Some m' ->
  pc m' = pc m /\ batch m' = batch m /\
  abortRef (ui m') = abortRef (ui m) /\
  totalEstimate m' = totalEstimate m.
Proof.
  unfold process_full. intros Hp.
  destruct (computeLogRatio c) as [r|]; [|discriminate].
  destruct (track_frame r m) as (Hpc & Hb & Hu & _ & Ht & _).
  break_match Hp; injection Hp as <-; cbn;
    rewrite ?Hpc, ?Hb, ?Hu, ?Ht; repeat split.
Qed.

Lemma process_rest_frame (c : Z) (m m' : Machine) :
  process_rest c m = Some m' ->
  pc m' = pc m /\ batch m' = batch m /\ ui m' = ui m /\
  totalEstimate m' = totalEstimate m /\ progressLog m' = progressLog m.
Proof.
  unfold process_rest. intros Hp.
  break_match Hp; try discriminate; injection Hp as <-.
  - destruct (track_frame t m) as (Hpc & Hb & Hu & _ & Ht & Hl & _).
    repeat split; assumption.
  - repeat split.
Qed.

(** Every step brings the run closer to its end. *)
Lemma step_weight (m m' : Machine) :
  step m = Some m' -> pc m <> Halted -> (weight m' < weight m)%nat.
Proof.
  intros Hs Hpc. unfold step in Hs. unfold weight at 2.
  destruct (pc m) as [[|n rest]|rest|[|c todo] rest|[|c todo]| |] eqn:Epc;
    try contradiction.
  - injection Hs as <-. cbn. lia.
  - destruct (abortRef (ui m)).
    + injection Hs as <-. cbn. lia.
    + cbv zeta in Hs. break_match Hs; injection Hs as <-;
        cbn [weight pc goto set_batch batch]; rewrite length_app; cbn [length]; lia.
  - cbv zeta in Hs. injection Hs as <-. unfold weight. cbn.
    destruct (stopAt (awaits m)); cbn; lia.
  - injection Hs as <-. cbn. lia.
  - destruct (process_full c m) as [m1|] eqn:Hp; [|discriminate].
    injection Hs as <-. cbn. lia.
  - injection Hs as <-. cbn. lia.
  - destruct (abortRef (ui m)).
    + injection Hs as <-. cbn. lia.
    + destruct (process_rest c m) as [m1|] eqn:Hp; [|discriminate].
      injection Hs as <-. cbn. lia.
  - injection Hs as <-. cbn. lia.
Qed.

Lemma process_full_returns (c : Z) (m : Machine) :
  2 <= c -> exists m', process_full c m = Some m'.
Proof.
  intros Hc. unfold process_full.
  destruct (computeLogRatio_returns c Hc) as (r & ->).
  destruct (isFinite (Result.logRn r)); [|eauto].
  cbv zeta. destruct (Z.rem _ 100 =? 0); eauto.
Qed.

Lemma process_rest_returns (c : Z) (m : Machine) :
  2 <= c -> exists m', process_rest c m = Some m'.
Proof.
  intros Hc. unfold process_rest.
  destruct (computeLogRatio_returns c Hc) as (r & ->).
  destruct (isFinite (Result.logRn r)); eauto.
Qed.

(** As long as the candidates ahead are generator output, a step returns
    and leaves generator output ahead. *)
Lemma step_returns (m : Machine) :
  Forall (fun c => 2 <= c) (pending m) ->
  exists m', step m = Some m' /\ Forall (fun c => 2 <= c) (pending m').
Proof.
  unfold pending at 1, step.
  destruct (pc m) as [[|n rest]|rest|[|c todo] rest|[|c todo]| |] eqn:Epc;
    intros Hall.
  - eexists. split; [reflexivity|]. unfold pending. cbn.
    rewrite app_nil_r in Hall. assumption.
  - destruct (abortRef (ui m)).
    + eexists. split; [reflexivity|]. unfold pending. cbn.
      apply Forall_app in Hall. tauto.
    + cbv zeta. destruct (batchSize <=? _)%nat;
        (eexists; split; [reflexivity|]); unfold pending; cbn;
        rewrite <- app_assoc; assumption.
  - cbv zeta. eexists. split; [reflexivity|]. unfold pending.
    destruct (stopAt (awaits m)); cbn; assumption.
  - eexists. split; [reflexivity|]. unfold pending. cbn. assumption.
  - inversion Hall as [|? ? Hc Hrest]; subst.
    destruct (process_full_returns c m Hc) as (m1 & Hp). rewrite Hp.
    eexists. split; [reflexivity|]. unfold pending. cbn. assumption.
  - eexists. split; [reflexivity|]. unfold pending. cbn. constructor.
  - inversion Hall as [|? ? Hc Hrest]; subst.
    destruct (abortRef (ui m)).
    + eexists. split; [reflexivity|]. unfold pending. cbn. constructor.
    + destruct (process_rest_returns c m Hc) as (m1 & Hp). rewrite Hp.
      eexists. split; [reflexivity|]. unfold pending. cbn. assumption.
  - eexists. split; [reflexivity|]. unfold pending. cbn. constructor.
  - eexists. split; [reflexivity|]. unfold pending. rewrite Epc. constructor.
Qed.

(** Given enough steps the run halts. *)
Lemma exec_terminates :
  forall (k : nat) (m : Machine),
    Forall (fun c => 2 <= c) (pending m) -> (weight m <= k)%nat ->
    exists final, exec k m = Some final /\ pc final = Halted.
Proof.
  induction k as [|k IH]; intros m Hall Hw.
  - exists m. split; [reflexivity|].
    unfold weight in Hw. destruct (pc m); try lia. reflexivity.
  - destruct (step_returns m Hall) as (m1 & Hs & Hall1). simpl. rewrite Hs.
    destruct (pc m) eqn:Epc;
      try (apply IH; [assumption|];
           assert (pc m <> Halted) as Hne by (rewrite Epc; discriminate);
           pose proof (step_weight m m1 Hs Hne); lia).
    unfold step in Hs. rewrite Epc in Hs. injection Hs as <-.
    exists m. split; [apply exec_halted|]; assumption.
Qed.

Lemma begin_pending (u : UI) (maxN : Z) (density : Density) :
  Forall (fun c => 2 <= c) (pending (begin u maxN density)).
Proof.
  unfold pending. cbn.
  eapply Forall_impl; [|apply (generateCandidates_sound maxN density)].
  cbn. intros. lia.
Qed.

(** Every run halts. *)
Lemma run_halts (u : UI) (maxN : Z) (density : Density) :
  exists final, run (begin u maxN density) = Some final /\ pc final = Halted.
Proof.
  apply exec_terminates; [apply begin_pending | apply Nat.le_refl].
Qed.

(** *** What evaluating one candidate does *)

(** A spike is pushed only in auto-track mode and above the running
    maximum, which it then becomes. *)
Lemma track_spikes (r : Result.t) (m : Machine) :
  (spikeResults (track r m) = spikeResults m /\
   maxLogRn (track r m) = maxLogRn m) \/
  (autoTrackSpikes = true /\
   num_gt (Result.logRn r) (maxLogRn m) = true /\
   spikeResults (track r m) = spikeResults m ++ [r] /\
   maxLogRn (track r m) = Result.logRn r).
Proof.
  unfold track. cbn.
  destruct autoTrackSpikes; cbn; [|left; split; reflexivity].
  destruct (num_gt (Result.logRn r) (maxLogRn m)); cbn;
    [right | left]; repeat split.
Qed.

Lemma process_full_effect (c : Z) (m m' : Machine) :
  process_full c m = Some m' ->
  exists r, computeLogRatio c = Some r /\
    ((isFinite (Result.logRn r) = false /\ m' = m) \/
     (isFinite (Result.logRn r) = true /\
      results m' = results m ++ [r] /\
      spikeResults m' = spikeResults (track r m) /\
      maxLogRn m' = maxLogRn (track r m) /\
      processed m' = processed m + 1 /\
      computing (ui m') = computing (ui m) /\
      spikes (ui m') = spikes (ui m) /\
      allData (ui m') = allData (ui m) /\
      stats (ui m') = stats (ui m) /\
      ((progressLog m' = progressLog m /\ progress (ui m') = progress (ui m)) \/
       (Z.rem (processed m') 100 = 0 /\
        progressLog m' = progressLog m ++ [percent m'] /\
        progress (ui m') = percent m')))).
Proof.
  unfold process_full. intros Hp.
  destruct (computeLogRatio c) as [r|]; [|discriminate].
  exists r. split; [reflexivity|].
  destruct (isFinite (Result.logRn r)); [right | left; split; congruence].
  split; [reflexivity|].
  destruct (track_frame r m) as (Hpc & Hb & Hu & Hproc & Ht & Hl & Hres).
  cbv zeta in Hp.
  destruct (Z.eqb_spec
              (Z.rem (processed (set_processed (processed (track r m) + 1) (track r m))) 100) 0)
    as [Hrem|Hrem];
    injection Hp as <-; cbn; cbn in Hrem; rewrite ?Hu, ?Hproc, ?Hl, ?Hres.
  - repeat split. right. unfold percent. cbn. rewrite ?Hproc, ?Ht.
    repeat split. rewrite Hproc in Hrem. assumption.
  - repeat split. left. split; reflexivity.
Qed.

Lemma process_rest_effect (c : Z) (m m' : Machine) :
  process_rest c m = Some m' ->
  exists r, computeLogRatio c = Some r /\
    ((isFinite (Result.logRn r) = false /\ m' = m) \/
     (isFinite (Result.logRn r) = true /\ m' = track r m)).
Proof.
  unfold process_rest. intros Hp.
  destruct (computeLogRatio c) as [r|]; [|discriminate].
  exists r. split; [reflexivity|].
  destruct (isFinite (Result.logRn r)); injection Hp as <-;
    [right | left]; split; reflexivity.
Qed.

(** *** Spike history *)

Lemma StronglySorted_snoc {A : Type} (R : A -> A -> Prop) (l : list A) (x : A) :
  StronglySorted R l -> Forall (fun a => R a x) l -> StronglySorted R (l ++ [x]).
Proof.
  induction 1 as [|a l Hs IH Ha]; intros Hall; simpl.
  - constructor; constructor.
  - inversion Hall as [|? ? Hax Hlx]; subst.
    constructor; [apply IH; assumption|].
    apply Forall_app. split; [assumption | constructor; [assumption | constructor]].
Qed.

Lemma track_spike_inv (r : Result.t) (m : Machine) :
  spike_inv m -> spike_inv (track r m).
Proof.
  intros (Hsorted & Hbelow & Hlast & Hnil).
  destruct (track_spikes r m) as [[Hs Hm]|(_ & Hgt & Hs & Hm)];
    unfold spike_inv; rewrite Hs, Hm.
  - repeat split; assumption.
  - split; [|split; [|split]].
    + apply StronglySorted_snoc; [assumption|].
      eapply Forall_impl; [|apply Hbelow]. cbn. unfold exceeds.
      intros a [Ha|Ha]; [rewrite Ha; assumption|].
      eapply num_gt_trans; eassumption.
    + apply Forall_app. split.
      * eapply Forall_impl; [|apply Hbelow]. cbn.
        intros a [Ha|Ha]; right; [rewrite Ha; assumption|].
        eapply num_gt_trans; eassumption.
      * constructor; [left; reflexivity | constructor].
    + intros earlier r' Heq. apply app_inj_tail in Heq. destruct Heq as [_ <-].
      reflexivity.
    + intros Heq. destruct (spikeResults m); discriminate.
Qed.

Lemma spike_inv_frame (m m' : Machine) :
  spikeResults m' = spikeResults m -> maxLogRn m' = maxLogRn m ->
  spike_inv m -> spike_inv m'.
Proof. unfold spike_inv. intros -> ->. tauto. Qed.

Lemma step_spike_inv (m m' : Machine) :
  spike_inv m -> step m = Some m' -> spike_inv m'.
Proof.
  intros Hinv Hs. unfold step in Hs.
  destruct (pc m) as [[|n rest]|rest|[|c todo] rest|[|c todo]| |] eqn:Epc;
    cbv zeta in Hs.
  - injection Hs as <-. assumption.
  - break_match Hs; injection Hs as <-; assumption.
  - injection Hs as <-. destruct (stopAt (awaits m)); assumption.
  - injection Hs as <-. assumption.
  - destruct (process_full c m) as [m1|] eqn:Hp; [|discriminate].
    injection Hs as <-.
    destruct (process_full_effect c m m1 Hp) as (r & _ & [[_ ->]|(_ & _ & Hsp & Hmx & _)]).
    + assumption.
    + eapply spike_inv_frame; [| |apply (track_spike_inv r m Hinv)]; assumption.
  - injection Hs as <-. assumption.
  - destruct (abortRef (ui m)); [injection Hs as <-; assumption|].
    destruct (process_rest c m) as [m1|] eqn:Hp; [|discriminate].
    injection Hs as <-.
    destruct (process_rest_effect c m m1 Hp) as (r & _ & [[_ ->]|[_ ->]]).
    + assumption.
    + apply (track_spike_inv r m Hinv).
  - injection Hs as <-. unfold finish.
    destruct (abortRef (ui m)); cbn -[Array_sort firstn].
    + assumption.
    + destruct (firstn 50 _); assumption.
  - injection Hs as <-. assumption.
Qed.

Lemma begin_spike_inv (u : UI) (maxN : Z) (density : Density) :
  spike_inv (begin u maxN density).
Proof.
  unfold spike_inv. cbn. repeat split; try constructor.
  intros [|? ?] r Heq; discriminate.
Qed.

Lemma exec_returns :
  forall (k : nat) (m : Machine),
    Forall (fun c => 2 <= c) (pending m) ->
    exists m', exec k m = Some m'.
Proof.
  induction k as [|k IH]; intros m Hall; simpl; [eauto|].
  destruct (step_returns m Hall) as (m1 & -> & Hall1). apply IH. assumption.
Qed.

(** *** Progress *)

(** The divisor of the percentage is positive where it is computed, and
    the value is clamped. *)
Lemma percent_in99 (m : Machine) :
  1 <= processed m ->
  0 < Z.max (totalEstimate m) (processed m) /\ in99 (percent m).
Proof.
  intros Hp. split; [lia|]. unfold in99, percent.
  assert (0 <= 100 * processed m / Z.max (totalEstimate m) (processed m))
    by (apply Z.div_pos; lia).
  lia.
Qed.

Lemma step_progress_inv (m m' : Machine) :
  progress_inv m -> step m = Some m' -> progress_inv m'.
Proof.
  intros (Hproc & Hinv) Hs. unfold step in Hs.
  destruct (pc m) as [[|n rest]|rest|[|c todo] rest|[|c todo]| |] eqn:Epc;
    cbv zeta in Hs;
    try (destruct Hinv as [(Hlog & Hcur & _)|(Hpc & _)]; [|congruence]).
  - injection Hs as <-. split; [assumption|]. left. cbn.
    repeat split; try assumption; try apply Hcur; discriminate.
  - break_match Hs; injection Hs as <-; (split; [assumption|]); left; cbn;
      repeat split; try assumption; try apply Hcur; discriminate.
  - injection Hs as <-. split; [destruct (stopAt (awaits m)); assumption|].
    left. destruct (stopAt (awaits m)); cbn;
      repeat split; try assumption; try apply Hcur; discriminate.
  - injection Hs as <-. split; [assumption|]. left. cbn.
    repeat split; try assumption; try apply Hcur; discriminate.
  - destruct (process_full c m) as [m1|] eqn:Hp; [|discriminate].
    injection Hs as <-.
    destruct (process_full_effect c m m1 Hp)
      as (r & _ & [[_ ->]|(_ & _ & _ & _ & Hp1 & _ & _ & _ & _ & Hprog)]).
    + split; [assumption|]. left. cbn. repeat split; try assumption; try apply Hcur; discriminate.
    + split; [cbn; lia|]. left. cbn.
      destruct Hprog as [[-> ->]|(_ & -> & ->)].
      * repeat split; try assumption; try apply Hcur; discriminate.
      * destruct (percent_in99 m1 ltac:(lia)) as [_ Hpct].
        repeat split; try apply Hpct; try discriminate.
        apply Forall_app. split; [assumption|]. constructor; [assumption|constructor].
  - injection Hs as <-. split; [assumption|]. left. cbn.
    repeat split; try assumption; try apply Hcur; discriminate.
  - destruct (abortRef (ui m)) eqn:Eab.
    + injection Hs as <-. split; [assumption|]. left. cbn.
      repeat split; try assumption; try apply Hcur; discriminate.
    + destruct (process_rest c m) as [m1|] eqn:Hp; [|discriminate].
      injection Hs as <-.
      destruct (process_rest_frame c m m1 Hp) as (_ & _ & Hu & _ & Hl).
      destruct (process_rest_effect c m m1 Hp) as (r & _ & [[_ ->]|[_ ->]]).
      * split; [assumption|]. left. cbn. repeat split; try assumption; try apply Hcur; discriminate.
      * destruct (track_frame r m) as (_ & _ & Hu' & Hproc' & _ & Hl' & _).
        split; [cbn; rewrite Hproc'; assumption|]. left. cbn. rewrite Hu', Hl'.
        repeat split; try assumption; try apply Hcur; discriminate.
  - injection Hs as <-. unfold finish.
    destruct (abortRef (ui m)) eqn:Eab; cbn -[Array_sort firstn].
    + split; [assumption|]. left. repeat split; try assumption; try apply Hcur; auto.
    + split; [destruct (firstn 50 _); assumption|]. right.
      destruct (firstn 50 _); cbn -[Array_sort firstn];
        (split; [reflexivity|]); (split; [assumption|]); (split; [reflexivity|]);
        eexists; (split; [reflexivity | assumption]).
  - injection Hs as <-. split; [assumption|]. rewrite Epc. assumption.
Qed.

Lemma begin_progress_inv (u : UI) (maxN : Z) (density : Density) :
  progress_inv (begin u maxN density).
Proof.
  split; [cbn; lia|]. left. cbn. repeat split; try lia; try discriminate.
  constructor; [unfold in99; lia | constructor].
Qed.

(** *** Cancellation *)

(** The abort flag is never reset during a run. *)
Lemma step_abort_mono (m m' : Machine) :
  abortRef (ui m) = true -> step m = Some m' -> abortRef (ui m') = true.
Proof.
  intros Hab Hs. unfold step in Hs.
  destruct (pc m) as [[|n rest]|rest|[|c todo] rest|[|c todo]| |] eqn:Epc;
    cbv zeta in Hs.
  - injection Hs as <-. assumption.
  - rewrite Hab in Hs. injection Hs as <-. assumption.
  - injection Hs as <-. destruct (stopAt (awaits m)); [reflexivity | assumption].
  - injection Hs as <-. assumption.
  - destruct (process_full c m) as [m1|] eqn:Hp; [|discriminate].
    injection Hs as <-. destruct (process_full_frame c m m1 Hp) as (_ & _ & Hu & _).
    cbn. congruence.
  - injection Hs as <-. assumption.
  - rewrite Hab in Hs. injection Hs as <-. assumption.
  - injection Hs as <-. unfold finish. rewrite Hab. cbn. assumption.
  - injection Hs as <-. assumption.
Qed.

Lemma exec_abort_mono :
  forall (k : nat) (m m' : Machine),
    abortRef (ui m) = true -> exec k m = Some m' -> abortRef (ui m') = true.
Proof.
  intros k m m'. apply (exec_invariant (fun m => abortRef (ui m) = true)).
  intros ? ?. apply step_abort_mono.
Qed.

(** A step only appends to the accumulated results, except for the final
    sort of a run that was not cancelled. *)
Lemma step_results_grow (m m' : Machine) :
  step m = Some m' ->
  (exists more, results m' = results m ++ more) \/
  (pc m' = Halted /\ abortRef (ui m') = false).
Proof.
  intros Hs. unfold step in Hs.
  destruct (pc m) as [[|n rest]|rest|[|c todo] rest|[|c todo]| |] eqn:Epc;
    cbv zeta in Hs.
  - injection Hs as <-. left. exists []. cbn. rewrite app_nil_r. reflexivity.
  - break_match Hs; injection Hs as <-; left; exists []; cbn;
      rewrite app_nil_r; reflexivity.
  - injection Hs as <-. left. exists [].
    destruct (stopAt (awaits m)); cbn; rewrite app_nil_r; reflexivity.
  - injection Hs as <-. left. exists []. cbn. rewrite app_nil_r. reflexivity.
  - destruct (process_full c m) as [m1|] eqn:Hp; [|discriminate].
    injection Hs as <-. left.
    destruct (process_full_effect c m m1 Hp) as (r & _ & [[_ ->]|(_ & Hres & _)]).
    + exists []. cbn. rewrite app_nil_r. reflexivity.
    + exists [r]. cbn. assumption.
  - injection Hs as <-. left. exists []. cbn. rewrite app_nil_r. reflexivity.
  - destruct (abortRef (ui m)).
    + injection Hs as <-. left. exists []. cbn. rewrite app_nil_r. reflexivity.
    + destruct (process_rest c m) as [m1|] eqn:Hp; [|discriminate].
      injection Hs as <-. left.
      destruct (process_rest_effect c m m1 Hp) as (r & _ & [[_ ->]|[_ ->]]).
      * exists []. cbn. rewrite app_nil_r. reflexivity.
      * exists [r]. cbn. apply track_frame.
  - injection Hs as <-. unfold finish.
    destruct (abortRef (ui m)) eqn:Eab; cbn -[Array_sort firstn].
    + left. exists []. rewrite app_nil_r. reflexivity.
    + right. destruct (firstn 50 _); cbn -[Array_sort firstn]; split; auto.
  - injection Hs as <-. left. exists []. rewrite app_nil_r. reflexivity.
Qed.

(** No rollback: whatever has been accumulated is still there, in place,
    in every later state of a run whose abort flag is set. *)
Lemma exec_results_prefix :
  forall (j : nat) (m m' : Machine),
    exec j m = Some m' -> abortRef (ui m') = true ->
    exists more, results m' = results m ++ more.
Proof.
  induction j as [|j IH]; intros m m' Hexec Hab; simpl in Hexec.
  - injection Hexec as <-. exists []. rewrite app_nil_r. reflexivity.
  - destruct (step m) as [m1|] eqn:Hs; [|discriminate].
    destruct (IH m1 m' Hexec Hab) as (more' & Hmore').
    destruct (step_results_grow m m1 Hs) as [(more & Hmore)|(Hpc & Hab1)].
    + exists (more ++ more'). rewrite Hmore', Hmore, app_assoc. reflexivity.
    + rewrite (exec_halted j m1 Hpc) in Hexec. injection Hexec as <-. congruence.
Qed.

Lemma step_unpublished (m m' : Machine) :
  unpublished m -> step m = Some m' -> unpublished m'.
Proof.
  intros Hinv Hs. unfold step in Hs.
  destruct (pc m) as [[|n rest]|rest|[|c todo] rest|[|c todo]| |] eqn:Epc;
    cbv zeta in Hs;
    try (destruct Hinv as [(Hall & Hsp & Hst & Hcomp)|(Hpc & _)]; [|congruence]).
  - injection Hs as <-. left. cbn. repeat split; auto; intros; congruence.
  - break_match Hs; injection Hs as <-; left; cbn; repeat split; auto; intros; congruence.
  - injection Hs as <-. left. destruct (stopAt (awaits m)); cbn; repeat split; auto; intros; congruence.
  - injection Hs as <-. left. cbn. repeat split; auto; intros; congruence.
  - destruct (process_full c m) as [m1|] eqn:Hp; [|discriminate].
    injection Hs as <-. left. cbn.
    destruct (process_full_frame c m m1 Hp) as (_ & _ & Hab & _).
    destruct (process_full_effect c m m1 Hp)
      as (r & _ & [[_ ->]|(_ & _ & _ & _ & _ & Hc & Hs' & Ha & Ht & _)]).
    + repeat split; auto; intros; congruence.
    + rewrite Hc, Hs', Ha, Ht, Hab. repeat split; auto; intros; congruence.
  - injection Hs as <-. left. cbn. repeat split; auto; intros; congruence.
  - destruct (abortRef (ui m)) eqn:Eab.
    + injection Hs as <-. left. cbn. repeat split; auto; intros; congruence.
    + destruct (process_rest c m) as [m1|] eqn:Hp; [|discriminate].
      injection Hs as <-. left. cbn.
      destruct (process_rest_frame c m m1 Hp) as (_ & _ & -> & _).
      rewrite Eab. repeat split; try assumption; try discriminate.
  - injection Hs as <-. unfold finish.
    destruct (abortRef (ui m)) eqn:Eab; cbn -[Array_sort firstn].
    + left. repeat split; auto.
    + right. destruct (firstn 50 _); cbn -[Array_sort firstn]; auto.
  - injection Hs as <-. assumption.
Qed.

Lemma begin_unpublished (u : UI) (maxN : Z) (density : Density) :
  unpublished (begin u maxN density).
Proof. left. cbn. repeat split. discriminate. Qed.

(** *** Which candidates leave a record *)

Lemma process_full_record (c : Z) (m m' : Machine) :
  process_full c m = Some m' -> results m' = results m ++ record_of c.
Proof.
  intros Hp. unfold record_of.
  destruct (process_full_effect c m m' Hp) as (r & -> & [[-> ->]|(-> & Hres & _)]).
  - rewrite app_nil_r. reflexivity.
  - assumption.
Qed.

Lemma process_rest_record (c : Z) (m m' : Machine) :
  process_rest c m = Some m' -> results m' = results m ++ record_of c.
Proof.
  intros Hp. unfold record_of.
  destruct (process_rest_effect c m m' Hp) as (r & -> & [[-> ->]|[-> ->]]).
  - rewrite app_nil_r. reflexivity.
  - apply track_frame.
Qed.

Lemma step_traced (all : list Z) (m m' : Machine) :
  traced all m -> step m = Some m' -> traced all m'.
Proof.
  intros (done & dropped & Hall & Hdrop & Hres) Hs.
  unfold step in Hs. unfold pending in Hall.
  destruct (pc m) as [[|n rest]|rest|[|c todo] rest|[|c todo]| |] eqn:Epc;
    cbv zeta in Hs;
    try (destruct Hres as [Hres|(Hpc & _)]; [|congruence]).
  - injection Hs as <-. exists done, dropped. unfold pending. cbn.
    rewrite app_nil_r in Hall. auto.
  - destruct (abortRef (ui m)) eqn:Eab.
    + injection Hs as <-. exists done, ((n :: rest) ++ dropped).
      unfold pending. cbn -[app]. rewrite Eab.
      split; [rewrite Hall; cbn [app]; rewrite <- ?app_assoc; reflexivity|].
      split; [discriminate | auto].
    + break_match Hs; injection Hs as <-; exists done, dropped;
        unfold pending; cbn -[app]; rewrite Eab;
        (split; [rewrite Hall; cbn [app]; rewrite <- ?app_assoc; reflexivity | auto]).
  - injection Hs as <-. exists done, dropped. unfold pending.
    destruct (stopAt (awaits m)); cbn; (split; [assumption|]);
      (split; [try discriminate; assumption | auto]).
  - injection Hs as <-. exists done, dropped. unfold pending. cbn. auto.
  - destruct (process_full c m) as [m1|] eqn:Hp; [|discriminate].
    injection Hs as <-. exists (done ++ [c]), dropped. unfold pending. cbn -[app].
    destruct (process_full_frame c m m1 Hp) as (_ & _ & Hab & _).
    rewrite Hab, (process_full_record c m m1 Hp), Hres, flat_map_app.
    cbn [flat_map]. rewrite app_nil_r.
    split; [rewrite Hall; cbn [app]; rewrite <- ?app_assoc; reflexivity | auto].
  - injection Hs as <-. exists done, dropped. unfold pending. cbn. auto.
  - destruct (abortRef (ui m)) eqn:Eab.
    + injection Hs as <-. exists done, ((c :: todo) ++ dropped).
      unfold pending. cbn -[app]. rewrite Eab.
      split; [rewrite Hall; cbn [app]; rewrite <- ?app_assoc; reflexivity|].
      split; [discriminate | auto].
    + destruct (process_rest c m) as [m1|] eqn:Hp; [|discriminate].
      injection Hs as <-. exists (done ++ [c]), dropped. unfold pending. cbn -[app].
      destruct (process_rest_frame c m m1 Hp) as (_ & _ & Hu & _).
      rewrite Hu, Eab, (process_rest_record c m m1 Hp), Hres, flat_map_app.
      cbn [flat_map]. rewrite app_nil_r.
      split; [rewrite Hall; cbn [app]; rewrite <- ?app_assoc; reflexivity | auto].
  - injection Hs as <-. exists done, dropped. unfold pending, finish.
    destruct (abortRef (ui m)) eqn:Eab; cbn -[Array_sort firstn].
    + split; [assumption|]. split; [intros; congruence | auto].
    + destruct (firstn 50 _); cbn -[Array_sort firstn];
        (split; [assumption|]); (split; [intros; apply Hdrop; reflexivity|]);
        right; (split; [reflexivity|]); (split; [assumption|]);
        rewrite <- Hres; reflexivity.
  - injection Hs as <-. exists done, dropped. unfold pending. rewrite Epc. auto.
Qed.

Lemma begin_traced (u : UI) (maxN : Z) (density : Density) :
  traced (generateCandidates maxN density) (begin u maxN density).
Proof.
  exists [], []. unfold pending. cbn. rewrite app_nil_r. auto.
Qed.

(** *** Runs from [begin] *)

Lemma step_run_inv (all : list Z) (m : Machine) :
  run_inv all m -> exists m', step m = Some m' /\ run_inv all m'.
Proof.
  intros (Hpend & Hspike & Hprog & Hpub & Htr).
  destruct (step_returns m Hpend) as (m' & Hs & Hpend').
  exists m'. split; [assumption|].
  split; [assumption|].
  split; [eapply step_spike_inv; eassumption|].
  split; [eapply step_progress_inv; eassumption|].
  split; [eapply step_unpublished | eapply step_traced]; eassumption.
Qed.

Lemma exec_run_inv (all : list Z) :
  forall (k : nat) (m : Machine),
    run_inv all m -> exists m', exec k m = Some m' /\ run_inv all m'.
Proof.
  induction k as [|k IH]; intros m Hinv; simpl; [eauto|].
  destruct (step_run_inv all m Hinv) as (m1 & -> & Hinv1). apply IH. assumption.
Qed.

Lemma begin_run_inv (u : UI) (maxN : Z) (density : Density) :
  run_inv (generateCandidates maxN density) (begin u maxN density).
Proof.
  split; [apply begin_pending|].
  split; [apply begin_spike_inv|].
  split; [apply begin_progress_inv|].
  split; [apply begin_unpublished | apply begin_traced].
Qed.

(** A run has one final state, whatever the number of steps taken beyond
    it. *)
Lemma exec_halted_unique (a b : nat) (m f f' : Machine) :
  exec a m = Some f -> pc f = Halted ->
  exec b m = Some f' -> pc f' = Halted -> f = f'.
Proof.
  assert (Hle : forall a b m f f',
             (a <= b)%nat -> exec a m = Some f -> pc f = Halted ->
             exec b m = Some f' -> f = f').
  { clear. intros a b m f f' Hab Ha Hf Hb.
    replace b with (a + (b - a))%nat in Hb by lia.
    rewrite exec_plus, Ha, (exec_halted _ _ Hf) in Hb. congruence. }
  intros Ha Hf Hb Hf'. destruct (Nat.le_ge_cases a b) as [Hab|Hab].
  - eapply Hle; eassumption.
  - symmetry. eapply Hle; eassumption.
Qed.

(** From any point of a run, the run goes on to its final state. *)
Lemma run_from (u : UI) (maxN : Z) (density : Density) (k : nat) (m : Machine) :
  exec k (begin u maxN density) = Some m ->
  exists j final,
    exec j m = Some final /\ pc final = Halted /\
    run (begin u maxN density) = Some final /\
    run_inv (generateCandidates maxN density) final.
Proof.
  intros Hk.
  destruct (exec_run_inv _ k _ (begin_run_inv u maxN density)) as (m0 & Hk' & Hinv).
  assert (m0 = m) by congruence. subst m0.
  destruct Hinv as (Hpend & Hrest).
  destruct (exec_terminates (weight m) m Hpend (Nat.le_refl _)) as (final & Hfin & Hpc).
  destruct (run_halts u maxN density) as (final' & Hrun & Hpc').
  assert (Hboth : exec (k + weight m) (begin u maxN density) = Some final)
    by (rewrite exec_plus, Hk; assumption).
  assert (final = final') by (eapply exec_halted_unique; eassumption).
  subst final'.
  exists (weight m), final.
  split; [assumption|]. split; [assumption|]. split; [assumption|].
  destruct (exec_run_inv _ (k + weight m) _ (begin_run_inv u maxN density))
    as (f & Hf & Hinv).
  assert (f = final) by congruence. subst f. assumption.
Qed.
End ControllerFacts.

(** ** The claims about the controller *)

Section ControllerClaims.
Context {M : MathOps} {H : Host}.

(** C4. During a run the spike history is strictly increasing in logRatio
    in discovery order: every record appended exceeds every earlier one;
    and the logRatio of its last element is the running maximum, at every
    point of the run and so at its completion, which every run reaches. *)
Theorem spikeHistory_strictly_increasing (u : UI) (maxN : Z) (density : Density) :
  (forall k, exists m,
      exec k (begin u maxN density) = Some m /\
      StronglySorted exceeds (spikeResults m) /\
      (forall earlier r, spikeResults m = earlier ++ [r] ->
                         Result.logRn r = maxLogRn m)) /\
  (exists final,
      run (begin u maxN density) = Some final /\ pc final = Halted /\
      StronglySorted exceeds (spikeResults final) /\
      (forall earlier r, spikeResults final = earlier ++ [r] ->
                         Result.logRn r = maxLogRn final)).
Proof.
  split.
  - intros k.
    destruct (exec_run_inv _ k _ (begin_run_inv u maxN density))
      as (m & Hk & _ & (Hsorted & _ & Hlast & _) & _).
    exists m. auto.
  - destruct (run_from u maxN density 0 _ eq_refl)
      as (_ & final & _ & Hpc & Hrun & _ & (Hsorted & _ & Hlast & _) & _).
    exists final. auto.
Qed.

(** C9. While a run is in progress every progress value it reports, and the
    value on display, lies in [0, 99]; 100 is reported only by a run that
    has halted without being cancelled, and such a run shows 100. *)
Theorem progress_below_100_until_completion
    (u : UI) (maxN : Z) (density : Density) (k : nat) :
  exists m,
    exec k (begin u maxN density) = Some m /\
    (pc m <> Halted ->
     Forall in99 (progressLog m) /\ in99 (progress (ui m))) /\
    (In 100 (progressLog m) \/ progress (ui m) = 100 ->
     pc m = Halted /\ abortRef (ui m) = false) /\
    (pc m = Halted -> abortRef (ui m) = false ->
     progress (ui m) = 100 /\ exists l, progressLog m = l ++ [100]).
Proof.
  destruct (exec_run_inv _ k _ (begin_run_inv u maxN density))
    as (m & Hk & _ & _ & (_ & Hprog) & _).
  exists m. split; [assumption|].
  destruct Hprog as [(Hlog & Hcur & Hhalt)|(Hpc & Hab & Hcur & l & Hl & Hlog)].
  - split; [auto|]. split.
    + intros [Hin|Heq]; exfalso.
      * rewrite Forall_forall in Hlog. specialize (Hlog 100 Hin).
        unfold in99 in Hlog. lia.
      * unfold in99 in Hcur. lia.
    + intros Hpc Hab. specialize (Hhalt Hpc). congruence.
  - split; [intros Hne; contradiction|]. split; [auto|].
    intros _ _. split; [assumption|]. exists l. assumption.
Qed.

(** What a run accumulates: only records with a finite logRatio, each the
    result of a generated candidate; and when the run was not cancelled,
    the record of every generated candidate whose logRatio is finite. *)
Lemma run_records (u : UI) (maxN : Z) (density : Density) :
  exists final,
    run (begin u maxN density) = Some final /\ pc final = Halted /\
    (forall r, In r (results final) ->
       isFinite (Result.logRn r) = true /\
       exists c, In c (generateCandidates maxN density) /\
                 computeLogRatio c = Some r) /\
    (abortRef (ui final) = false ->
     forall c r, In c (generateCandidates maxN density) ->
       computeLogRatio c = Some r -> isFinite (Result.logRn r) = true ->
       In r (results final)).
Proof.
  destruct (run_from u maxN density 0 _ eq_refl)
    as (_ & final & _ & Hpc & Hrun & _ & _ & _ & _ & Htr).
  exists final. split; [assumption|]. split; [assumption|].
  destruct Htr as (done & dropped & Hall & Hdrop & Hres).
  unfold pending in Hall. rewrite Hpc in Hall. cbn [app] in Hall.
  assert (Hmem : forall r, In r (results final) <-> In r (flat_map record_of done)).
  { intros r. destruct Hres as [->|(_ & _ & ->)]; [tauto|].
    split; apply Permutation_in;
      [apply Array_sort_perm | apply Permutation_sym, Array_sort_perm]. }
  assert (Hrec : forall c r, In r (record_of c) <->
                   computeLogRatio c = Some r /\ isFinite (Result.logRn r) = true).
  { intros c r. unfold record_of.
    destruct (computeLogRatio c) as [r'|]; [|cbn; split; [tauto | intros [? _]; discriminate]].
    destruct (isFinite (Result.logRn r')) eqn:Efin; cbn.
    - split.
      + intros [<-|[]]. auto.
      + intros [Heq _]. left. congruence.
    - split; [tauto|]. intros [Heq Hfin]. congruence. }
  split.
  - intros r Hr. apply Hmem, in_flat_map in Hr. destruct Hr as (c & Hc & Hr).
    apply Hrec in Hr. destruct Hr as [Hcomp Hfin]. split; [assumption|].
    exists c. split; [|assumption]. rewrite Hall. apply in_or_app. left. assumption.
  - intros Hab c r Hc Hcomp Hfin. rewrite (Hdrop Hab), app_nil_r in Hall.
    apply Hmem, in_flat_map. exists c. split; [congruence|].
    apply Hrec. auto.
Qed.

(** C7, as the code has it. A candidate is skipped silently exactly when its
    computed logRatio is not finite: every run halts, its accumulated results
    hold only records with a finite logRatio, and a run that was not
    cancelled holds the record of every generated candidate with a finite
    logRatio, whatever its size; no candidate below 2 is generated. *)
Theorem skipped_iff_not_finite (u : UI) (maxN : Z) (density : Density) :
  Forall (fun c => 2 <= c) (generateCandidates maxN density) /\
  exists final,
    run (begin u maxN density) = Some final /\ pc final = Halted /\
    (forall r, In r (results final) ->
       isFinite (Result.logRn r) = true /\
       exists c, In c (generateCandidates maxN density) /\
                 computeLogRatio c = Some r) /\
    (abortRef (ui final) = false ->
     forall c r, In c (generateCandidates maxN density) ->
       computeLogRatio c = Some r -> isFinite (Result.logRn r) = true ->
       In r (results final)).
Proof.
  split; [|apply run_records].
  eapply Forall_impl; [|apply (generateCandidates_sound maxN density)].
  cbn. intros. lia.
Qed.

(** What cancellation leaves: the accumulated results only ever grow by
    appending while the abort flag is set, and nothing is published. *)
Lemma cancelled_state (u : UI) (maxN : Z) (density : Density) (k : nat) :
  exists m,
    exec k (begin u maxN density) = Some m /\
    (forall j m', exec j m = Some m' -> abortRef (ui m') = true ->
                  exists more, results m' = results m ++ more) /\
    (abortRef (ui m) = true ->
     computing (ui m) = false /\ allData (ui m) = [] /\ spikes (ui m) = [] /\
     stats (ui m) = None /\ ~ In 100 (progressLog m)).
Proof.
  destruct (exec_run_inv _ k _ (begin_run_inv u maxN density))
    as (m & Hk & _ & _ & (_ & Hprog) & Hpub & _).
  exists m. split; [assumption|]. split; [intros j m'; apply exec_results_prefix|].
  intros Hab.
  destruct Hpub as [(Hall & Hsp & Hst & Hcomp)|(_ & Hab')]; [|congruence].
  repeat split; auto.
  intros Hin. destruct Hprog as [(Hlog & _)|(_ & Hab' & _)]; [|congruence].
  rewrite Forall_forall in Hlog. specialize (Hlog 100 Hin). unfold in99 in Hlog. lia.
Qed.

(** C5, as the code has it. Once a cancellation signal has been observed,
    all work accumulated before it stays in the controller's result list,
    in place and in order, up to the Cancelled terminal state (no rollback);
    but a cancelled run publishes nothing: the result set, the spike set and
    the summary of the component stay as reset at the start of the run, and
    progress never reaches 100. *)
Theorem cancellation_keeps_results_unpublished
    (u : UI) (maxN : Z) (density : Density) (k : nat) :
  exists m final,
    exec k (begin u maxN density) = Some m /\
    run (begin u maxN density) = Some final /\ pc final = Halted /\
    (abortRef (ui m) = true -> abortRef (ui final) = true) /\
    (abortRef (ui final) = true ->
     (exists more, results final = results m ++ more) /\
     computing (ui final) = false /\ allData (ui final) = [] /\
     spikes (ui final) = [] /\ stats (ui final) = None /\
     ~ In 100 (progressLog final)).
Proof.
  destruct (cancelled_state u maxN density k) as (m & Hk & _).
  destruct (run_from u maxN density k m Hk) as (j & final & Hj & Hpc & Hrun & _).
  exists m, final. repeat (split; [assumption|]).
  split; [intros Hab; eapply exec_abort_mono; eassumption|].
  intros Hab. split; [eapply exec_results_prefix; eassumption|].
  destruct (cancelled_state u maxN density (weight (begin u maxN density)))
    as (f & Hf & _ & Hquiet).
  assert (f = final) by (unfold run in Hrun; congruence). subst f.
  apply Hquiet. assumption.
Qed.
End ControllerClaims.

(** ** Concrete runs without rounding *)

Lemma ideal_record_of (c : Z) :
  2 <= c ->
  exists r, computeLogRatio (M := idealMath) c = Some r /\
            record_of (M := idealMath) c = [r].
Proof.
  intros Hc. destruct (ideal_logRn_finite c Hc) as (r & Hcomp & Hfin).
  exists r. split; [assumption|]. unfold record_of. rewrite Hcomp, Hfin. reflexivity.
Qed.

Lemma never_stopped_not_aborted {M : MathOps} :
  forall (k : nat) (m m' : Machine),
    abortRef (ui m) = false ->
    exec (H := neverStopped) k m = Some m' -> abortRef (ui m') = false.
Proof.
  intros k m m'. apply (exec_invariant (fun m => abortRef (ui m) = false)).
  clear. intros m m' Hab Hs. unfold step in Hs.
  destruct (pc m) as [[|n rest]|rest|[|c todo] rest|[|c todo]| |] eqn:Epc;
    cbv zeta in Hs.
  - injection Hs as <-. assumption.
  - rewrite Hab in Hs. break_match Hs; injection Hs as <-; assumption.
  - injection Hs as <-. assumption.
  - injection Hs as <-. assumption.
  - destruct (process_full c m) as [m1|] eqn:Hp; [|discriminate].
    injection Hs as <-. destruct (process_full_frame c m m1 Hp) as (_ & _ & Hu & _).
    cbn. congruence.
  - injection Hs as <-. assumption.
  - rewrite Hab in Hs.
    destruct (process_rest c m) as [m1|] eqn:Hp; [|discriminate].
    injection Hs as <-. destruct (process_rest_frame c m m1 Hp) as (_ & _ & Hu & _).
    cbn. congruence.
  - injection Hs as <-. unfold finish. rewrite Hab. cbn -[Array_sort firstn].
    destruct (firstn 50 _); assumption.
  - injection Hs as <-. assumption.
Qed.

(** C7, refuted as stated. The run for maxN = 2 that is never stopped
    evaluates the candidate 2, which is below 3, and keeps its record. *)
Lemma candidate_two_is_recorded :
  exists final r,
    run (M := idealMath) (H := neverStopped) (begin idle 2 medium) = Some final /\
    pc final = Halted /\
    In 2 (generateCandidates 2 medium) /\ 2 < 3 /\
    computeLogRatio (M := idealMath) 2 = Some r /\
    In r (results final).
Proof.
  destruct (run_records (M := idealMath) (H := neverStopped) idle 2 medium)
    as (final & Hrun & Hpc & _ & Hcomplete).
  destruct (ideal_logRn_finite 2 ltac:(lia)) as (r & Hcomp & Hfin).
  exists final, r. repeat (split; [assumption || (left; reflexivity) || reflexivity |]).
  apply (Hcomplete) with (c := 2); try assumption.
  - eapply never_stopped_not_aborted; [|exact Hrun]. reflexivity.
  - left. reflexivity.
Qed.

(** C5, refuted as stated. The run for maxN = 2000 that is stopped during
    its first suspension ends Cancelled with evaluated records in its
    accumulated results, and none of them is handed to the component: the
    published result set is empty. *)
Lemma cancelled_results_not_returned :
  exists final,
    run (M := idealMath) (H := stoppedAtFirstYield) (begin idle 2000 medium)
      = Some final /\
    pc final = Halted /\ abortRef (ui final) = true /\
    results final <> [] /\
    allData (ui final) = [] /\
    allData (ui final) <> results final.
Proof.
  set (m0 := begin idle 2000 medium).
  assert (Hfirst : exists m1 todo rest,
             exec (M := idealMath) (H := stoppedAtFirstYield) 501 m0 = Some m1 /\
             pc m1 = Inner (2 :: todo) rest /\
             abortRef (ui m1) = true /\ results m1 = []).
  { eexists. eexists. eexists. split; [vm_compute; reflexivity|].
    split; [reflexivity|]. split; reflexivity. }
  destruct Hfirst as (m1 & todo & rest & H501 & Hpc1 & Hab1 & Hres1).
  destruct (process_full_returns (M := idealMath) (H := stoppedAtFirstYield) 2 m1 ltac:(lia))
    as (m1' & Hp).
  pose proof (process_full_record 2 m1 m1' Hp) as Hrec.
  destruct (ideal_record_of 2 ltac:(lia)) as (r & _ & Hr). rewrite Hr, Hres1 in Hrec.
  set (m2 := goto (Inner todo rest) m1').
  assert (H502 : exec (M := idealMath) (H := stoppedAtFirstYield) 502 m0 = Some m2).
  { change 502%nat with (501 + 1)%nat. rewrite exec_plus, H501.
    cbn [exec]. unfold step. rewrite Hpc1, Hp. reflexivity. }
  assert (Hab2 : abortRef (ui m2) = true).
  { destruct (process_full_frame 2 m1 m1' Hp) as (_ & _ & Hu & _). cbn. congruence. }
  destruct (run_from idle 2000 medium 502 m2 H502)
    as (j & final & Hj & Hpc & Hrun & _ & _ & _ & Hpub & _).
  assert (Hab : abortRef (ui final) = true)
    by (eapply exec_abort_mono; eassumption).
  destruct (exec_results_prefix j m2 final Hj Hab) as (more & Hmore).
  assert (Hres2 : results m2 = [r]) by (cbn; assumption).
  rewrite Hres2 in Hmore.
  assert (Hdata : allData (ui final) = []).
  { destruct Hpub as [(Hall & _)|(_ & Hab')]; [assumption | congruence]. }
  exists final. repeat (split; [assumption|]).
  split; [rewrite Hmore; discriminate|].
  split; [assumption|]. rewrite Hdata, Hmore. discriminate.
Qed.

(** ** The input guards *)

(** The guard of [computeData]: a missing maxN (NaN) and every maxN below 2
    return before anything is touched. *)
Lemma computeData_rejects {M : MathOps} (u : UI) (density : Density) :
  computeData u None density = Rejected u /\
  forall maxN, maxN < 2 -> computeData u (Some maxN) density = Rejected u.
Proof.
  split; [reflexivity|]. intros maxN Hlt. unfold computeData.
  destruct (Z.ltb_spec maxN 2); [|lia]. rewrite orb_true_r. reflexivity.
Qed.

(** The guard of [handleSetMaxN] in the earlier variant: a missing maxN, a
    non-positive one and one above 10^15 leave the setting as it was. *)
Lemma handleSetMaxN_rejects (maxN : Z) :
  HighPerf.handleSetMaxN None maxN = maxN /\
  forall val, val <= 0 \/ 10 ^ 15 < val ->
              HighPerf.handleSetMaxN (Some val) maxN = maxN.
Proof.
  split; [reflexivity|]. intros val Hval. unfold HighPerf.handleSetMaxN.
  destruct (Z.ltb_spec 0 val), (Z.leb_spec val (10 ^ 15)); try reflexivity; lia.
Qed.

(** C6, at the failing input. A start request with maxN = 10^15 + 1, above
    the supported ceiling, is not rejected by [computeData] of index.js: the
    run starts, the component is set to computing and its progress, results,
    spikes and summary are reset; [handleSetMaxN] of the earlier variant
    rejects the same value. *)
Theorem computeData_starts_above_ceiling {M : MathOps} :
  computeData idle (Some (10 ^ 15 + 1)) medium
    = Started (begin idle (10 ^ 15 + 1) medium) /\
  ui (begin idle (10 ^ 15 + 1) medium) = mkUI true 0 None [] [] None false /\
  ui (begin idle (10 ^ 15 + 1) medium) <> idle /\
  HighPerf.handleSetMaxN (Some (10 ^ 15 + 1)) 1000000 = 1000000.
Proof.
  split; [reflexivity|]. split; [reflexivity|].
  split; [discriminate | reflexivity].
Qed.


(** * Further properties *)

(** ** The factorizer off its precondition *)

(** X1. The standalone factorizer returns on every non-zero BigInt, negative
    ones included, with the exact factorization of its argument; on 0 its
    first loop never leaves, whatever the number of passes.  Hence
    [extract23Powers] fails to return exactly for n = 0 and n = -1. *)
Theorem extract23PowersBigInt_returns_iff_nonzero (P : Z) :
  (HighPerf.extract23PowersBigInt P = None <-> P = 0) /\
  (forall r, HighPerf.extract23PowersBigInt P = Some r ->
     2 ^ Z.of_nat (Powers.pow2 r) * 3 ^ Z.of_nat (Powers.pow3 r) * Powers.remainder r = P /\
     Z.rem (Powers.remainder r) 2 <> 0 /\ Z.rem (Powers.remainder r) 3 <> 0) /\
  (forall fuel pow, while fuel (strip_cond 2) (strip_body 2) (0, pow) = None) /\
  (forall n, extract23Powers n = None <-> n = 0 \/ n = -1).
Proof.
  assert (Hiff : forall Q, HighPerf.extract23PowersBigInt Q = None <-> Q = 0).
  { intros Q. split.
    - intros Hnone. destruct (Z.eq_dec Q 0) as [|Hne]; [assumption|].
      destruct (extract23PowersBigInt_factors Q Hne) as (r & Hr & _). congruence.
    - intros ->. reflexivity. }
  split; [apply Hiff|]. split; [|split].
  - intros r Hr.
    assert (HP : P <> 0).
    { intros HP. apply Hiff in HP. congruence. }
    destruct (extract23PowersBigInt_factors P HP) as (r' & Hr' & Hprod & H2 & H3 & _).
    assert (r' = r) by congruence. subst r'. auto.
  - intros fuel pow. apply strip_zero_diverges.
  - intros n. rewrite extract23Powers_on_product, Hiff. nia.
Qed.

Lemma pow_factor_unique (d : Z) :
  2 <= d ->
  forall (a a' : nat) (x x' : Z),
    d ^ Z.of_nat a * x = d ^ Z.of_nat a' * x' ->
    Z.rem x d <> 0 -> Z.rem x' d <> 0 ->
    a = a' /\ x = x'.
Proof.
  intros Hd.
  assert (Hdiv : forall (k : nat) (y z : Z),
             y = d ^ Z.of_nat (S k) * z -> Z.rem y d = 0).
  { intros k y z ->. rewrite Nat2Z.inj_succ, Z.pow_succ_r by lia.
    replace (d * d ^ Z.of_nat k * z) with (d ^ Z.of_nat k * z * d) by ring.
    apply Z.rem_mul. lia. }
  induction a as [|a IH]; intros [|a'] x x' Heq Hx Hx'.
  - change (Z.of_nat 0) with 0 in Heq. rewrite Z.pow_0_r in Heq. split; [reflexivity | lia].
  - exfalso. apply Hx. apply (Hdiv a' x x').
    change (Z.of_nat 0) with 0 in Heq. rewrite Z.pow_0_r in Heq. lia.
  - exfalso. apply Hx'. apply (Hdiv a x' x).
    change (Z.of_nat 0) with 0 in Heq. rewrite Z.pow_0_r in Heq. lia.
  - rewrite !Nat2Z.inj_succ, !Z.pow_succ_r in Heq by lia.
    assert (Heq' : d ^ Z.of_nat a * x = d ^ Z.of_nat a' * x').
    { apply (Z.mul_reg_l _ _ d); [lia|]. rewrite !Z.mul_assoc. assumption. }
    destruct (IH a' x x' Heq' Hx Hx') as [-> ->]. split; reflexivity.
Qed.

Lemma rem2_odd (x : Z) : Z.rem x 2 <> 0 <-> Z.odd x = true.
Proof.
  rewrite Z.rem_divide by lia. split.
  - intros Hnd. destruct (Z.odd x) eqn:Hodd; [reflexivity|].
    exfalso. apply Hnd. rewrite <- Z.negb_even in Hodd.
    apply Bool.negb_false_iff, Z.even_spec in Hodd.
    destruct Hodd as [q ->]. exists q. ring.
  - intros Hodd [q ->]. rewrite Z.odd_mul, Z.odd_2, andb_false_r in Hodd. discriminate.
Qed.

(** X2. The factorizer takes out the largest powers: whenever a non-zero P is
    2^a * 3^b * m with m divisible by neither 2 nor 3, the factorizer
    returns exactly (a, b, m). *)
Theorem extract23PowersBigInt_unique (P : Z) (a b : nat) (m : Z) :
  P <> 0 ->
  P = 2 ^ Z.of_nat a * 3 ^ Z.of_nat b * m ->
  Z.rem m 2 <> 0 -> Z.rem m 3 <> 0 ->
  HighPerf.extract23PowersBigInt P = Some (Powers.mk a b m) /\
  LogSafe.extract23PowersBigInt P = Some (LogSafe.mkKL a b m).
Proof.
  intros HP Heq Hm2 Hm3.
  destruct (extract23PowersBigInt_factors P HP) as ([a' b' m'] & Hr & Hprod & H2 & H3 & _).
  cbn [Powers.pow2 Powers.pow3 Powers.remainder] in *.
  assert (Hodd : forall (k : nat) (y : Z), Z.rem y 2 <> 0 -> Z.rem (3 ^ Z.of_nat k * y) 2 <> 0).
  { intros k y Hy. apply rem2_odd. apply rem2_odd in Hy.
    rewrite Z.odd_mul, Hy, andb_true_r.
    induction k as [|k IHk]; [reflexivity|].
    rewrite Nat2Z.inj_succ, Z.pow_succ_r, Z.odd_mul, IHk by lia. reflexivity. }
  destruct (pow_factor_unique 2 ltac:(lia) a a' (3 ^ Z.of_nat b * m) (3 ^ Z.of_nat b' * m'))
    as [-> H3m]; [rewrite !Z.mul_assoc; congruence | auto | auto |].
  destruct (pow_factor_unique 3 ltac:(lia) b b' m m' H3m Hm3 H3) as [-> ->].
  rewrite LogSafe_extract_as_HighPerf, Hr. split; reflexivity.
Qed.

Lemma extract23PowersBigInt_unique_witness :
  HighPerf.extract23PowersBigInt (-360) = Some (Powers.mk 3 2 (-5)) /\
  LogSafe.extract23PowersBigInt (-360) = Some (LogSafe.mkKL 3 2 (-5)).
Proof.
  apply (extract23PowersBigInt_unique (-360) 3 2 (-5)); [lia | reflexivity | | ];
    vm_compute; discriminate.
Defined.


(** ** The generator, point by point *)

Lemma addAll_app (maxN : Z) (l1 l2 c : list Z) :
  addAll maxN (l1 ++ l2) c = addAll maxN l2 (addAll maxN l1 c).
Proof. unfold addAll. apply fold_left_app. Qed.

Lemma addAll_in (maxN : Z) (ns : list Z) :
  forall (c : list Z) (x : Z),
    In x (addAll maxN ns c) <-> In x c \/ (In x ns /\ 2 <= x <= maxN).
Proof.
  induction ns as [|n ns IH]; intros c x; cbn.
  - tauto.
  - change (fold_left _ ns ?c') with (addAll maxN ns c'). rewrite IH.
    unfold tryAdd.
    destruct (Z.geb_spec n 2) as [Hlo|Hlo]; cbn;
      [destruct (Z.leb_spec n maxN) as [Hhi|Hhi]; cbn;
       [destruct (has c n) eqn:Hhas; cbn;
        [apply has_true_iff in Hhas | rewrite in_app_iff; cbn] | ] | ];
      intuition (subst; auto; try lia).
Qed.

Lemma upto_in (lo hi k : Z) : In k (upto lo hi) <-> lo <= k <= hi.
Proof.
  unfold upto. rewrite in_map_iff. split.
  - intros (i & <- & Hi). apply in_seq in Hi. lia.
  - intros Hk. exists (Z.to_nat (k - lo)). split; [lia|]. apply in_seq. lia.
Qed.

Lemma visited_in (lo hi : Z) (stop : Z -> bool) (k : Z) :
  In k (visited lo hi stop) <-> lo <= k <= hi /\ stop k = false.
Proof.
  unfold visited. rewrite filter_In, upto_in, negb_true_iff. tauto.
Qed.

(** A counting loop whose [break] test, once true, stays true equals the
    attempts of the passes before the [break]. *)
Lemma for_range_attempts (maxN : Z) (stop : Z -> bool) (g : Z -> list Z)
    (body : Z -> list Z -> Flow (list Z)) :
  (forall k c, body k c = if stop k then Break c else Continue (addAll maxN (g k) c)) ->
  forall (count : nat) (lo : Z) (c : list Z),
    (forall k k', lo <= k <= k' -> stop k = true -> stop k' = true) ->
    for_range count lo body c
    = addAll maxN
        (flat_map g (filter (fun k => negb (stop k))
                       (map (fun i => lo + Z.of_nat i) (seq 0 count)))) c.
Proof.
  intros Hbody. induction count as [|count IH]; intros lo c Hmono; [reflexivity|].
  cbn [for_range seq map]. rewrite Hbody.
  assert (Hshift : map (fun i => lo + Z.of_nat i) (seq 1 count)
                   = map (fun i => lo + 1 + Z.of_nat i) (seq 0 count)).
  { rewrite <- seq_shift, map_map. apply map_ext. intros i. lia. }
  rewrite Hshift. cbn [filter]. replace (lo + Z.of_nat 0) with lo by lia.
  destruct (stop lo) eqn:Hstop; cbn [negb].
  - assert (Hnone : filter (fun k => negb (stop k))
                      (map (fun i => lo + 1 + Z.of_nat i) (seq 0 count)) = []).
    { clear Hshift IH. induction (seq 0 count) as [|i l IHl]; [reflexivity|]. cbn.
      rewrite (Hmono lo (lo + 1 + Z.of_nat i)) by (lia || assumption). cbn. apply IHl. }
    rewrite Hnone. reflexivity.
  - cbn [flat_map]. rewrite addAll_app. apply IH.
    intros k k' Hk. apply Hmono. lia.
Qed.

Lemma for_to_attempts (maxN : Z) (stop : Z -> bool) (g : Z -> list Z)
    (body : Z -> list Z -> Flow (list Z)) (lo hi : Z) (c : list Z) :
  (forall k c, body k c = if stop k then Break c else Continue (addAll maxN (g k) c)) ->
  (forall k k', lo <= k <= k' -> stop k = true -> stop k' = true) ->
  for_to lo hi body c = addAll maxN (flat_map g (visited lo hi stop)) c.
Proof.
  intros Hbody Hmono. unfold for_to, visited, upto.
  apply for_range_attempts; assumption.
Qed.

Lemma visited_all (lo hi : Z) : visited lo hi (fun _ => false) = upto lo hi.
Proof.
  unfold visited. induction (upto lo hi) as [|k l IH]; [reflexivity|].
  cbn [filter negb]. f_equal. exact IH.
Qed.

Lemma pow_stop_mono (base scale maxN lo : Z) :
  1 <= base -> 0 <= scale -> 0 <= lo ->
  forall k k', lo <= k <= k' ->
    (scale * base ^ k >? maxN) = true -> (scale * base ^ k' >? maxN) = true.
Proof.
  intros Hb Hs Hlo k k' Hk Hstop.
  apply Z.gtb_lt in Hstop. apply Z.gtb_lt.
  assert (base ^ k <= base ^ k') by (apply Z.pow_le_mono_r; lia).
  nia.
Qed.

(** The stepping loop of the sparse sampling tries the lattice points. *)
Lemma for_step_lattice (maxN step bound : Z) :
  0 < step ->
  forall (p : nat) (n : Z) (c : list Z),
    p = passes n step bound ->
    for_step p n step bound (fun n c => fst (tryAdd maxN c n)) c
    = addAll maxN (map (fun i => n + step * Z.of_nat i) (seq 0 p)) c.
Proof.
  intros Hstep. induction p as [|p IH]; intros n c Hp; [reflexivity|].
  cbn [for_step seq map].
  assert (Hn : n <= bound).
  { unfold passes in Hp. destruct (Z.le_gt_cases n bound) as [|Hgt]; [assumption|].
    assert ((bound - n) / step < 0) by (apply Z.div_lt_upper_bound; lia). lia. }
  destruct (Z.leb_spec n bound); [|lia].
  rewrite <- seq_shift, map_map.
  replace (n + step * Z.of_nat 0) with n by lia.
  change (addAll maxN (n :: ?l) c) with (addAll maxN l (fst (tryAdd maxN c n))).
  rewrite IH.
  - f_equal. apply map_ext. intros i. lia.
  - unfold passes in *.
    replace (bound - (n + step)) with ((bound - n) + (-1) * step) by ring.
    rewrite Z.div_add by lia. lia.
Qed.

(** The generator is [tryAdd] over its attempts, then the sort. *)
Lemma generateCandidates_attempts (maxN : Z) (density : Density) :
  generateCandidates maxN density
  = Array_sort (fun a b => compareBigInt a b >? 0)
      (addAll maxN (attempts maxN density) []).
Proof.
  unfold generateCandidates, attempts. cbv zeta. f_equal.
  rewrite !addAll_app.
  assert (Hpow : forall base lo maxN', 1 <= base -> 0 <= lo ->
            forall k k', lo <= k <= k' ->
              (base ^ k >? maxN') = true -> (base ^ k' >? maxN') = true).
  { intros base lo maxN' Hb Hlo k k' Hk Hs.
    pose proof (pow_stop_mono base 1 maxN' lo Hb ltac:(lia) Hlo k k' Hk) as Hm.
    rewrite !Z.mul_1_l in Hm. auto. }
  unfold lattice.
  rewrite <- (for_step_lattice maxN (step_of density) maxN)
    by (destruct density; reflexivity).
  f_equal.
  erewrite (for_to_attempts maxN (fun k => 3 ^ k >? maxN)
              (fun k => flat_map (fun offset => [3 ^ k + offset])
                          (upto (- radius_of density) (radius_of density))));
    [f_equal | | apply (Hpow 3 6); lia].
  2:{ intros k c. destruct (3 ^ k >? maxN); [reflexivity|]. f_equal.
      rewrite <- visited_all. apply for_to_attempts; [reflexivity | discriminate]. }
  erewrite (for_to_attempts maxN (fun k => 2 ^ k >? maxN)
              (fun k => flat_map (fun offset => [2 ^ k + offset])
                          (upto (- radius_of density) (radius_of density))));
    [f_equal | | apply (Hpow 2 10); lia].
  2:{ intros k c. destruct (2 ^ k >? maxN); [reflexivity|]. f_equal.
      rewrite <- visited_all. apply for_to_attempts; [reflexivity | discriminate]. }
  erewrite (for_to_attempts maxN (fun a => 2 ^ a >? maxN)
              (fun a => flat_map (fun b => [2 ^ a * 3 ^ b - 1; 2 ^ a * 3 ^ b + 1])
                          (visited 1 80 (fun b => 2 ^ a * 3 ^ b >? maxN))));
    [f_equal | | apply (Hpow 2 1); lia].
  2:{ intros a c. destruct (2 ^ a >? maxN) eqn:Hstop; [reflexivity|]. f_equal.
      apply for_to_attempts; [reflexivity|].
      apply pow_stop_mono; try lia; apply Z.pow_nonneg; lia. }
  erewrite (for_to_attempts maxN (fun k => 3 ^ k >? maxN) (fun k => [3 ^ k - 1]));
    [f_equal | reflexivity | apply (Hpow 3 2); lia].
  erewrite (for_to_attempts maxN (fun k => 2 ^ k >? maxN) (fun k => [2 ^ k - 1]));
    [reflexivity | reflexivity | apply (Hpow 2 2); lia].
Qed.

Lemma lattice_in (step maxN n : Z) :
  0 < step ->
  (In n (lattice step maxN) /\ n <= maxN) <-> (exists i, 0 <= i /\ n = 2 + i * step) /\ n <= maxN.
Proof.
  intros Hstep. unfold lattice. rewrite in_map_iff. split.
  - intros [(i & <- & Hi) Hle]. split; [|assumption].
    exists (Z.of_nat i). split; lia.
  - intros [(i & Hi & ->) Hle]. split; [|assumption].
    exists (Z.to_nat i). split; [lia|]. apply in_seq. unfold passes.
    assert (i <= (maxN - 2) / step) by (apply Z.div_le_lower_bound; lia).
    lia.
Qed.

Lemma attempts_in (maxN : Z) (density : Density) (n : Z) :
  n <= maxN -> (In n (attempts maxN density) <-> candidate_form maxN density n).
Proof.
  intros Hle. unfold attempts, candidate_form.
  assert (Hstep : 0 < step_of density) by (destruct density; reflexivity).
  pose proof (lattice_in (step_of density) maxN n Hstep) as Hlat.
  assert (Hgt : forall x, (x >? maxN) = false <-> x <= maxN).
  { intros x. destruct (Z.gtb_spec x maxN); split; intros; try lia; congruence. }
  assert (Hprod : forall a b, 1 <= a -> 1 <= b -> 2 ^ a * 3 ^ b <= maxN -> 2 ^ a <= maxN).
  { intros a b Ha Hb Hp.
    assert (0 < 2 ^ a) by (apply Z.pow_pos_nonneg; lia).
    assert (0 < 3 ^ b) by (apply Z.pow_pos_nonneg; lia). nia. }
  rewrite !in_app_iff. split.
  - intros [H|[H|[H|[H|[H|H]]]]].
    + apply in_flat_map in H. destruct H as (k & Hk & [<-|[]]).
      apply visited_in in Hk. destruct Hk as [Hk Hs]. apply Hgt in Hs.
      left. exists k. auto.
    + apply in_flat_map in H. destruct H as (k & Hk & [<-|[]]).
      apply visited_in in Hk. destruct Hk as [Hk Hs]. apply Hgt in Hs.
      right. left. exists k. auto.
    + apply in_flat_map in H. destruct H as (a & Ha & H).
      apply in_flat_map in H. destruct H as (b & Hb & H).
      apply visited_in in Ha. destruct Ha as [Ha _].
      apply visited_in in Hb. destruct Hb as [Hb Hs]. apply Hgt in Hs.
      right. right. left. exists a, b.
      destruct H as [<-|[<-|[]]]; auto.
    + apply in_flat_map in H. destruct H as (k & Hk & H).
      apply in_flat_map in H. destruct H as (off & Hoff & [<-|[]]).
      apply visited_in in Hk. destruct Hk as [Hk Hs]. apply Hgt in Hs.
      apply upto_in in Hoff.
      right. right. right. left. exists k, off. auto.
    + apply in_flat_map in H. destruct H as (k & Hk & H).
      apply in_flat_map in H. destruct H as (off & Hoff & [<-|[]]).
      apply visited_in in Hk. destruct Hk as [Hk Hs]. apply Hgt in Hs.
      apply upto_in in Hoff.
      right. right. right. right. left. exists k, off. auto.
    + right. right. right. right. right. apply Hlat. auto.
  - intros [H|[H|[H|[H|[H|H]]]]].
    + destruct H as (k & Hk & Hp & ->). left.
      apply in_flat_map. exists k. split; [|left; reflexivity].
      apply visited_in. split; [assumption | apply Hgt; assumption].
    + destruct H as (k & Hk & Hp & ->). right. left.
      apply in_flat_map. exists k. split; [|left; reflexivity].
      apply visited_in. split; [assumption | apply Hgt; assumption].
    + destruct H as (a & b & Ha & Hb & Hp & Hn). right. right. left.
      apply in_flat_map. exists a. split.
      * apply visited_in. split; [assumption|]. apply Hgt. apply (Hprod a b); lia.
      * apply in_flat_map. exists b. split.
        -- apply visited_in. split; [assumption | apply Hgt; assumption].
        -- destruct Hn as [->| ->]; [left | right; left]; reflexivity.
    + destruct H as (k & off & Hk & Hp & Hoff & ->). right. right. right. left.
      apply in_flat_map. exists k. split.
      * apply visited_in. split; [assumption | apply Hgt; assumption].
      * apply in_flat_map. exists off. split; [apply upto_in; assumption | left; reflexivity].
    + destruct H as (k & off & Hk & Hp & Hoff & ->). right. right. right. right. left.
      apply in_flat_map. exists k. split.
      * apply visited_in. split; [assumption | apply Hgt; assumption].
      * apply in_flat_map. exists off. split; [apply upto_in; assumption | left; reflexivity].
    + right. right. right. right. right. apply Hlat. auto.
Qed.

Lemma addAll_length (maxN : Z) (ns : list Z) :
  forall c, (length (addAll maxN ns c) <= length c + length ns)%nat.
Proof.
  induction ns as [|n ns IH]; intros c; cbn [addAll fold_left length]; [lia|].
  change (fold_left _ ns ?c') with (addAll maxN ns c').
  specialize (IH (fst (tryAdd maxN c n))).
  assert (Hone : (length (fst (tryAdd maxN c n)) <= S (length c))%nat).
  { unfold tryAdd. destruct (_ && _); cbn [fst]; [rewrite length_app; cbn | ]; lia. }
  lia.
Qed.

Lemma flat_map_length_le {A B : Type} (f : A -> list B) (c : nat) (l : list A) :
  (forall x, (length (f x) <= c)%nat) ->
  (length (flat_map f l) <= c * length l)%nat.
Proof.
  intros Hf. induction l as [|x l IH]; cbn [flat_map length]; [lia|].
  rewrite length_app. specialize (Hf x). lia.
Qed.

Lemma upto_length (lo hi : Z) : length (upto lo hi) = Z.to_nat (hi - lo + 1).
Proof. unfold upto. rewrite length_map, length_seq. reflexivity. Qed.

Lemma visited_length (lo hi : Z) (stop : Z -> bool) :
  (length (visited lo hi stop) <= Z.to_nat (hi - lo + 1))%nat.
Proof.
  unfold visited. rewrite <- upto_length. apply filter_length_le.
Qed.

Lemma lattice_count (maxN : Z) (density : Density) :
  maxN <= 10000000000 ->
  Z.of_nat (length (lattice (step_of density) maxN)) <= 10000001.
Proof.
  intros HmaxN. unfold lattice, passes. rewrite length_map, length_seq.
  assert (Hq : (maxN - 2) / step_of density <= 10000000).
  { apply Z.div_le_upper_bound; destruct density; cbn [step_of]; lia. }
  lia.
Qed.

(** Up to 10^10 the generator makes fewer attempts than 2^24. *)
Lemma attempts_count (maxN : Z) (density : Density) :
  maxN <= 10 ^ 10 -> Z.of_nat (length (attempts maxN density)) <= 10332645.
Proof.
  intros HmaxN. change (10 ^ 10) with 10000000000 in HmaxN.
  unfold attempts. rewrite !length_app.
  pose proof (flat_map_length_le (fun k => [2 ^ k - 1]) 1
                (visited 2 200 (fun k => 2 ^ k >? maxN)) ltac:(intros; cbn; lia)) as H1.
  pose proof (flat_map_length_le (fun k => [3 ^ k - 1]) 1
                (visited 2 130 (fun k => 3 ^ k >? maxN)) ltac:(intros; cbn; lia)) as H2.
  pose proof (visited_length 2 200 (fun k => 2 ^ k >? maxN)) as V1.
  pose proof (visited_length 2 130 (fun k => 3 ^ k >? maxN)) as V2.
  pose proof (visited_length 1 100 (fun a => 2 ^ a >? maxN)) as V3.
  pose proof (visited_length 10 200 (fun k => 2 ^ k >? maxN)) as V4.
  pose proof (visited_length 6 130 (fun k => 3 ^ k >? maxN)) as V5.
  assert (H3 : le (length (flat_map (fun a =>
                   flat_map (fun b => [2 ^ a * 3 ^ b - 1; 2 ^ a * 3 ^ b + 1])
                            (visited 1 80 (fun b => 2 ^ a * 3 ^ b >? maxN)))
                 (visited 1 100 (fun a => 2 ^ a >? maxN))))
                (Nat.mul 160 (length (visited 1 100 (fun a => 2 ^ a >? maxN))))).
  { apply flat_map_length_le. intros a.
    pose proof (flat_map_length_le (fun b => [2 ^ a * 3 ^ b - 1; 2 ^ a * 3 ^ b + 1]) 2
                  (visited 1 80 (fun b => 2 ^ a * 3 ^ b >? maxN))
                  ltac:(intros; cbn; lia)) as Hin.
    pose proof (visited_length 1 80 (fun b => 2 ^ a * 3 ^ b >? maxN)). lia. }
  assert (Hradius : 0 <= radius_of density <= 500) by (destruct density; cbn; lia).
  assert (Hwindow : forall c : Z,
             le (length (flat_map (fun offset => [c + offset])
                           (upto (- radius_of density) (radius_of density))))
                1001%nat).
  { intros c.
    pose proof (flat_map_length_le (fun offset => [c + offset]) 1
                  (upto (- radius_of density) (radius_of density))
                  ltac:(intros; cbn; lia)) as Hin.
    rewrite upto_length in Hin. lia. }
  pose proof (flat_map_length_le
                (fun k => flat_map (fun offset => [2 ^ k + offset])
                            (upto (- radius_of density) (radius_of density)))
                1001 (visited 10 200 (fun k => 2 ^ k >? maxN))
                (fun k => Hwindow (2 ^ k))) as H4.
  pose proof (flat_map_length_le
                (fun k => flat_map (fun offset => [3 ^ k + offset])
                            (upto (- radius_of density) (radius_of density)))
                1001 (visited 6 130 (fun k => 3 ^ k >? maxN))
                (fun k => Hwindow (3 ^ k))) as H5.
  pose proof (lattice_count maxN density HmaxN) as H6.
  clear Hwindow. lia.
Qed.

(** X3. For a setting up to 10^10, where the sampling counter is an exact
    Number and the set stays below 2^24 entries, the generator yields
    exactly the integers of [[2, maxN]] that have one of the forms it looks
    for: nothing else, and none of them is missed. *)
Theorem generateCandidates_characterised (maxN : Z) (density : Density) (n : Z) :
  maxN <= 10 ^ 10 ->
  (In n (generateCandidates maxN density) <->
   2 <= n <= maxN /\ candidate_form maxN density n) /\
  Z.of_nat (length (generateCandidates maxN density)) < 2 ^ 24.
Proof.
  intros HmaxN. rewrite generateCandidates_attempts. split.
  - assert (Hperm : In n (Array_sort (fun a b => compareBigInt a b >? 0)
                            (addAll maxN (attempts maxN density) []))
                    <-> In n (addAll maxN (attempts maxN density) [])).
    { split; apply Permutation_in;
        [apply Array_sort_perm | apply Permutation_sym, Array_sort_perm]. }
    rewrite Hperm, addAll_in. cbn [In]. split.
    + intros [[]|[Hin Hr]]. split; [assumption|].
      apply attempts_in; [lia | assumption].
    + intros [Hr Hform]. right. split; [|assumption].
      apply attempts_in; [lia | assumption].
  - rewrite (Permutation_length (Array_sort_perm _ _)).
    pose proof (addAll_length maxN (attempts maxN density) []) as Hadd.
    pose proof (attempts_count maxN density HmaxN) as Hcount.
    cbn [length] in Hadd. change (2 ^ 24) with 16777216. lia.
Qed.

Lemma generateCandidates_characterised_witness :
  (In 7 (generateCandidates 30 low) <-> 2 <= 7 <= 30 /\ candidate_form 30 low 7) /\
  Z.of_nat (length (generateCandidates 30 low)) < 2 ^ 24.
Proof.
  apply (generateCandidates_characterised 30 low 7). vm_compute. discriminate.
Defined.

(** ** The running maximum *)

Lemma num_gt_below_new_max (x x' mx : Number) :
  isFinite x = true ->
  num_gt x mx = false -> num_gt x' mx = true -> num_gt x x' = false.
Proof.
  destruct x as [| | |a], x' as [| | |b], mx as [| | |c]; simpl;
    try discriminate; try reflexivity.
  intros _. destruct (Rlt_dec c a), (Rlt_dec c b), (Rlt_dec b a);
    try discriminate; try reflexivity.
  intros _ _. exfalso. lra.
Qed.

Section RunningMax.
Context {M : MathOps} {H : Host}.

Lemma track_max_inv (r : Result.t) (m : Machine) :
  isFinite (Result.logRn r) = true -> max_inv m -> max_inv (track r m).
Proof.
  intros Hfin (Hallfin & Hauto & Htop).
  destruct (track_frame r m) as (_ & _ & _ & _ & _ & _ & Hres).
  unfold max_inv. rewrite Hres.
  split; [apply Forall_app; split; [assumption | constructor; [assumption | constructor]]|].
  destruct (track_spikes r m) as [[Hs Hm]|(Hon & Hgt & Hs & Hm)]; rewrite Hs, Hm.
  - split.
    + intros Hon. destruct (Hauto Hon) as [Hbelow Hincl]. split.
      * apply Forall_app. split; [assumption|]. constructor; [|constructor].
        unfold track in Hs. cbn in Hs. rewrite Hon in Hs. cbn in Hs.
        destruct (num_gt (Result.logRn r) (maxLogRn m)) eqn:Hgt; [|reflexivity].
        cbn in Hs. exfalso. apply (f_equal (@length _)) in Hs.
        rewrite length_app in Hs. cbn in Hs. lia.
      * apply incl_appl. assumption.
    + assumption.
  - split; [|congruence]. intros _. destruct (Hauto Hon) as [Hbelow Hincl]. split.
    + apply Forall_app. split.
      * rewrite Forall_forall in *. intros x Hx.
        apply (num_gt_below_new_max _ _ (maxLogRn m)); auto.
      * constructor; [apply num_gt_irrefl | constructor].
    + apply incl_app; [apply incl_appl; assumption|].
      apply incl_appr. apply incl_refl.
Qed.

Lemma max_inv_frame (m m' : Machine) :
  results m' = results m -> spikeResults m' = spikeResults m ->
  maxLogRn m' = maxLogRn m -> max_inv m -> max_inv m'.
Proof. unfold max_inv. intros -> -> ->. tauto. Qed.

Lemma max_inv_perm (m m' : Machine) :
  Permutation (results m) (results m') -> spikeResults m' = spikeResults m ->
  maxLogRn m' = maxLogRn m -> max_inv m -> max_inv m'.
Proof.
  unfold max_inv. intros Hperm -> -> (Hfin & Hauto & Htop).
  split; [eapply Permutation_Forall; eassumption|]. split; [|assumption].
  intros Hon. destruct (Hauto Hon) as [Hbelow Hincl]. split.
  - eapply Permutation_Forall; eassumption.
  - intros x Hx. eapply Permutation_in; [eassumption | apply Hincl; assumption].
Qed.

Lemma step_max_inv (m m' : Machine) :
  max_inv m -> step m = Some m' -> max_inv m'.
Proof.
  intros Hinv Hs. unfold step in Hs.
  destruct (pc m) as [[|n rest]|rest|[|c todo] rest|[|c todo]| |] eqn:Epc;
    cbv zeta in Hs.
  - injection Hs as <-. assumption.
  - break_match Hs; injection Hs as <-; assumption.
  - injection Hs as <-. destruct (stopAt (awaits m)); assumption.
  - injection Hs as <-. assumption.
  - destruct (process_full c m) as [m1|] eqn:Hp; [|discriminate].
    injection Hs as <-.
    destruct (process_full_effect c m m1 Hp)
      as (r & _ & [[_ ->]|(Hfin & Hres & Hsp & Hmx & _)]); [assumption|].
    destruct (track_frame r m) as (_ & _ & _ & _ & _ & _ & Hres').
    eapply max_inv_frame; [| | |apply (track_max_inv r m Hfin Hinv)]; cbn; congruence.
  - injection Hs as <-. assumption.
  - destruct (abortRef (ui m)); [injection Hs as <-; assumption|].
    destruct (process_rest c m) as [m1|] eqn:Hp; [|discriminate].
    injection Hs as <-.
    destruct (process_rest_effect c m m1 Hp) as (r & _ & [[_ ->]|[Hfin ->]]).
    + assumption.
    + apply (track_max_inv r m Hfin Hinv).
  - injection Hs as <-. unfold finish.
    destruct (abortRef (ui m)); cbn -[Array_sort firstn]; [assumption|].
    eapply max_inv_perm; [| | |exact Hinv].
    + destruct (firstn 50 _); cbn -[Array_sort firstn];
        apply Permutation_sym, Array_sort_perm.
    + destruct (firstn 50 _); reflexivity.
    + destruct (firstn 50 _); reflexivity.
  - injection Hs as <-. assumption.
Qed.

Lemma begin_max_inv (u : UI) (maxN : Z) (density : Density) :
  max_inv (begin u maxN density).
Proof.
  unfold max_inv. cbn. split; [constructor|]. split; intros _; split;
    try constructor; try reflexivity. intros x [].
Qed.

(** X4. At every point of a run the running maximum is what its name says.
    With auto-tracking on, no accumulated record has a logRatio above it,
    every spike is one of the accumulated records, and as soon as there is
    a record there is a spike whose logRatio is the running maximum; with
    auto-tracking off the spike list stays empty and the running maximum
    stays at -Infinity. *)
Theorem runningMax_is_maximum (u : UI) (maxN : Z) (density : Density) (k : nat) :
  exists m,
    exec k (begin u maxN density) = Some m /\
    (autoTrackSpikes = true ->
     Forall (fun r => num_gt (Result.logRn r) (maxLogRn m) = false) (results m) /\
     incl (spikeResults m) (results m) /\
     (results m <> [] ->
      exists r, In r (results m) /\ In r (spikeResults m) /\
                Result.logRn r = maxLogRn m)) /\
    (autoTrackSpikes = false -> spikeResults m = [] /\ maxLogRn m = NegInf).
Proof.
  destruct (exec_run_inv _ k _ (begin_run_inv u maxN density))
    as (m & Hk & _ & (_ & _ & Hlast & Hnil) & _).
  exists m. split; [assumption|].
  assert (Hinv : max_inv m).
  { apply (exec_invariant max_inv (fun a b => step_max_inv a b) k _ m
             (begin_max_inv u maxN density) Hk). }
  destruct Hinv as (Hfin & Hauto & Htop). split; [|assumption].
  intros Hon. destruct (Hauto Hon) as [Hbelow Hincl].
  split; [assumption|]. split; [assumption|].
  intros Hne.
  destruct (spikeResults m) as [|s0 ss] eqn:Hsp using rev_ind.
  - exfalso. specialize (Hnil eq_refl).
    destruct (results m) as [|r rs]; [congruence|].
    inversion Hfin as [|? ? Hr _]; subst. inversion Hbelow as [|? ? Hb _]; subst.
    rewrite Hnil in Hb. destruct (Result.logRn r); discriminate.
  - exists s0. split; [apply Hincl, in_or_app; right; left; reflexivity|].
    split; [apply in_or_app; right; left; reflexivity|].
    apply (Hlast ss s0). reflexivity.
Qed.
End RunningMax.

(** ** Records *)

Section Records.
Context {M : MathOps} {H : Host}.

Lemma record_of_exact (c : Z) (r : Result.t) :
  2 <= c -> In r (record_of c) ->
  Result.n r = Number_of_BigInt c /\
  2 ^ Z.of_nat (Result.pow2 r) * 3 ^ Z.of_nat (Result.pow3 r) * Result.remainder r
    = c * (c + 1) /\
  Z.rem (Result.remainder r) 2 <> 0 /\ Z.rem (Result.remainder r) 3 <> 0 /\
  (1 <= Result.pow2 r)%nat /\
  Result.ratio r = Math_exp (Result.logRn r) /\
  isFinite (Result.logRn r) = true.
Proof.
  intros Hc Hin. unfold record_of, computeLogRatio in Hin.
  destruct (extract23PowersBigInt_factors (c * (c + 1)) ltac:(nia))
    as (p & Hp & Hprod & H2 & H3 & Hpow2).
  rewrite extract23Powers_on_product, Hp in Hin. cbv zeta in Hin.
  match type of Hin with
  | In r (if isFinite ?x then _ else _) => destruct (isFinite x) eqn:Hfin
  end; [|destruct Hin].
  destruct Hin as [<-|[]]. cbn.
  repeat split; try assumption.
  apply Hpow2, consecutive_product_even.
Qed.

(** X5. Every record a run has accumulated, at any point of the run, is the
    exact factorization of one of the generated candidates: its [n] is the
    candidate as a Number, 2^pow2 * 3^pow3 * remainder is the candidate
    times its successor, the remainder is divisible by neither 2 nor 3,
    pow2 is at least 1, the logRatio is finite and the ratio is its
    exponential. *)
Theorem accumulated_records_exact (u : UI) (maxN : Z) (density : Density) (k : nat) :
  exists m,
    exec k (begin u maxN density) = Some m /\
    Forall (fun r =>
      exists c, In c (generateCandidates maxN density) /\
        Result.n r = Number_of_BigInt c /\
        2 ^ Z.of_nat (Result.pow2 r) * 3 ^ Z.of_nat (Result.pow3 r)
          * Result.remainder r = c * (c + 1) /\
        Z.rem (Result.remainder r) 2 <> 0 /\ Z.rem (Result.remainder r) 3 <> 0 /\
        (1 <= Result.pow2 r)%nat /\
        Result.ratio r = Math_exp (Result.logRn r) /\
        isFinite (Result.logRn r) = true) (results m).
Proof.
  destruct (exec_run_inv _ k _ (begin_run_inv u maxN density))
    as (m & Hk & _ & _ & _ & _ & (done & dropped & Hall & _ & Hres)).
  exists m. split; [assumption|].
  assert (Hmem : forall r, In r (results m) -> In r (flat_map record_of done)).
  { intros r. destruct Hres as [->|(_ & _ & ->)]; [tauto|].
    apply Permutation_in, Array_sort_perm. }
  apply Forall_forall. intros r Hr. apply Hmem, in_flat_map in Hr.
  destruct Hr as (c & Hc & Hr).
  assert (Hcand : In c (generateCandidates maxN density))
    by (rewrite Hall; apply in_or_app; left; assumption).
  assert (Hc2 : 2 <= c).
  { pose proof (proj1 (generateCandidates_sound maxN density)) as Hrange.
    rewrite Forall_forall in Hrange. specialize (Hrange c Hcand). lia. }
  exists c. split; [assumption|]. apply record_of_exact; assumption.
Qed.
End Records.

(** ** What a completed run publishes *)

Lemma In_firstn {A : Type} (n : nat) (l : list A) (x : A) :
  In x (firstn n l) -> In x l.
Proof.
  intros Hx. rewrite <- (firstn_skipn n l). apply in_or_app. left. assumption.
Qed.

Section Completion.
Context {M : MathOps} {H : Host}.

Lemma step_into_halted (m m' : Machine) :
  step m = Some m' -> pc m' = Halted ->
  pc m = Halted \/ (pc m = Epilogue /\ m' = goto Halted (finish m)).
Proof.
  intros Hs Hpc. unfold step in Hs.
  destruct (pc m) as [[|n rest]|rest|[|c todo] rest|[|c todo]| |] eqn:Epc;
    cbv zeta in Hs; try (left; reflexivity);
    try (break_match Hs; try discriminate; injection Hs as <-; discriminate Hpc).
  injection Hs as <-. right. split; reflexivity.
Qed.

(** A run that halts does so by its epilogue. *)
Lemma halted_by_epilogue :
  forall (k : nat) (m0 final : Machine),
    pc m0 <> Halted -> exec k m0 = Some final -> pc final = Halted ->
    exists j m, exec j m0 = Some m /\ pc m = Epilogue /\
                final = goto Halted (finish m).
Proof.
  induction k as [|k IH]; intros m0 final Hne Hexec Hpc; simpl in Hexec.
  - injection Hexec as <-. contradiction.
  - destruct (step m0) as [m1|] eqn:Hs; [|discriminate].
    destruct (pc m1) eqn:Epc1;
      try (destruct (IH m1 final ltac:(rewrite Epc1; discriminate) Hexec Hpc)
             as (j & m & Hj & Hm & Hfin);
           exists (S j), m; simpl; rewrite Hs; auto).
    destruct (step_into_halted m0 m1 Hs Epc1) as [|[Hep ->]]; [contradiction|].
    rewrite exec_halted in Hexec by reflexivity. injection Hexec as <-.
    exists 0%nat, m0. auto.
Qed.

(** X6. A run that ends without having been cancelled hands over what it
    accumulated: the published result set is the accumulated list, a
    rearrangement of the records of all generated candidates with a finite
    logRatio; the published spikes are the spike history (auto-tracking) or
    the first 50 of the results sorted by descending logRatio (top mode);
    the summary exists exactly when there is a result, counts the results
    and reports a record of the results as the maximum; progress shows 100
    and the component is no longer computing. *)
Theorem completed_run_publishes (u : UI) (maxN : Z) (density : Density) :
  exists final,
    run (begin u maxN density) = Some final /\ pc final = Halted /\
    (abortRef (ui final) = false ->
     allData (ui final) = results final /\
     Permutation (results final)
                 (flat_map record_of (generateCandidates maxN density)) /\
     spikes (ui final)
       = (if autoTrackSpikes then spikeResults final
          else firstn 50 (Array_sort after_logRn (results final))) /\
     (autoTrackSpikes = false -> (length (spikes (ui final)) <= 50)%nat) /\
     computing (ui final) = false /\ progress (ui final) = 100 /\
     match stats (ui final) with
     | None => results final = []
     | Some s =>
         Stats.total s = length (results final) /\
         Stats.spikes s = length (spikes (ui final)) /\
         exists top, In top (results final) /\
                     Stats.maxLogRn s = Result.logRn top /\
                     Stats.maxRatio s = Result.ratio top /\
                     Stats.maxN s = Result.n top
     end).
Proof.
  destruct (run_halts u maxN density) as (final & Hrun & Hpc).
  exists final. split; [assumption|]. split; [assumption|]. intros Hab.
  assert (Hstart : pc (begin u maxN density) <> Halted) by (cbn; discriminate).
  destruct (halted_by_epilogue _ (begin u maxN density) final Hstart Hrun Hpc)
    as (j & m & Hj & Hm & ->).
  destruct (exec_run_inv _ j _ (begin_run_inv u maxN density))
    as (m' & Hj' & _ & _ & _ & Hpub & (done & dropped & Hall & Hdrop & Hres)).
  assert (m' = m) by congruence. subst m'.
  destruct Hpub as [(_ & _ & Hstats & _)|(Hpc' & _)]; [|congruence].
  destruct Hres as [Hres|(Hpc' & _)]; [|congruence].
  unfold pending in Hall. rewrite Hm in Hall. cbn [app] in Hall.
  assert (Habm : abortRef (ui m) = false).
  { unfold finish in Hab. destruct (abortRef (ui m)) eqn:E; [cbn in Hab; congruence | reflexivity]. }
  rewrite (Hdrop Habm), app_nil_r in Hall. subst done.
  unfold finish. rewrite Habm. cbn -[Array_sort firstn].
  set (sorted := Array_sort _ (results m)).
  set (top := firstn 50 (Array_sort _ sorted)).
  assert (Hperm : Permutation sorted (flat_map record_of (generateCandidates maxN density))).
  { rewrite <- Hres. apply Array_sort_perm. }
  assert (Htoplen : (length top <= 50)%nat) by apply firstn_le_length.
  assert (Htopin : forall r, In r top -> In r sorted).
  { intros r Hr. unfold top in Hr. apply In_firstn in Hr.
    eapply Permutation_in; [apply Array_sort_perm | exact Hr]. }
  assert (Hspikes : firstn 50 (Array_sort after_logRn sorted) = top) by reflexivity.
  destruct top as [|maxResult rest] eqn:Etop; cbn -[Array_sort firstn].
  - assert (Hempty : sorted = []).
    { destruct sorted as [|r rs] eqn:Es; [reflexivity|]. exfalso.
      assert (Hlen : length (Array_sort after_logRn (r :: rs)) = length (r :: rs))
        by (apply Permutation_length, Array_sort_perm).
      unfold top, after_logRn in Etop.
      destruct (Array_sort _ (r :: rs)); cbn in *; [lia | discriminate]. }
    rewrite Hstats. repeat split; auto.
    + destruct autoTrackSpikes; [reflexivity|]. symmetry. exact Hspikes.
    + intros ->. cbn. lia.
  - repeat split; auto.
    + destruct autoTrackSpikes; [reflexivity|]. symmetry. exact Hspikes.
    + intros ->. exact Htoplen.
    + exists maxResult. split; [apply Htopin; left; reflexivity|]. auto.
Qed.
End Completion.

(** ** Runs shorter than a batch *)

Section ShortRuns.
Context {M : MathOps} {H : Host}.

Lemma step_short_inv (m m' : Machine) :
  short_inv m -> step m = Some m' -> short_inv m'.
Proof.
  intros (Haw & Hab & Hproc & Hpc) Hs. unfold step in Hs. unfold short_inv.
  destruct (pc m) as [[|n rest]|rest|[|c todo] rest|[|c todo]| |] eqn:Epc;
    cbv zeta in Hs; try contradiction.
  - injection Hs as <-. cbn. tauto.
  - rewrite Hab in Hs. destruct Hpc as [Hlen Hlog].
    cbn [batch set_batch] in Hs.
    destruct (Nat.leb_spec batchSize (length (batch m ++ [n]))) as [Hfull|Hroom].
    + exfalso. rewrite length_app in Hfull. cbn [length] in *. lia.
    + injection Hs as <-. cbn [pc goto set_batch batch awaits ui processed progressLog].
      repeat split; try assumption.
      rewrite length_app. cbn [length] in *. lia.
  - injection Hs as <-. cbn. tauto.
  - rewrite Hab in Hs.
    destruct (process_rest c m) as [m1|] eqn:Hp; [|discriminate].
    injection Hs as <-.
    destruct (process_rest_frame c m m1 Hp) as (_ & _ & Hu & _ & Hl).
    assert (Hproc1 : processed m1 = processed m /\ awaits m1 = awaits m).
    { destruct (process_rest_effect c m m1 Hp) as (r & _ & [[_ ->]|[_ ->]]);
        [split; reflexivity|].
      unfold track. cbn. destruct (autoTrackSpikes && _); split; reflexivity. }
    destruct Hproc1 as [Hp1 Ha1].
    cbn [pc goto awaits ui processed progressLog]. rewrite Hu, Hl, Hp1, Ha1. tauto.
  - injection Hs as <-. unfold finish. rewrite Hab. cbn -[Array_sort firstn].
    destruct (firstn 50 _); cbn -[Array_sort firstn]; rewrite Hpc; tauto.
  - injection Hs as <-. rewrite Epc. tauto.
Qed.

(** X7. A run over fewer than 500 candidates never suspends: whatever the
    host does, the Stop button cannot reach it.  It ends completed, with
    the progress reports 0 and 100 and nothing in between, and without
    having counted a processed candidate. *)
Theorem short_run_never_suspends (u : UI) (maxN : Z) (density : Density) :
  (length (generateCandidates maxN density) < 500)%nat ->
  exists final,
    run (begin u maxN density) = Some final /\ pc final = Halted /\
    abortRef (ui final) = false /\ awaits final = 0%nat /\
    progressLog final = [0; 100] /\ processed final = 0.
Proof.
  intros Hshort.
  destruct (run_halts u maxN density) as (final & Hrun & Hpc).
  exists final. split; [assumption|]. split; [assumption|].
  assert (Hinv : short_inv final).
  { apply (exec_invariant short_inv step_short_inv _ _ final) with (2 := Hrun).
    unfold short_inv. cbn. repeat split; try reflexivity. exact Hshort. }
  destruct Hinv as (Haw & Hab & Hproc & Hlog). rewrite Hpc in Hlog. auto.
Qed.

End ShortRuns.

Lemma short_run_never_suspends_witness :
  exists final,
    run (M := idealMath) (H := stoppedAtFirstYield) (begin idle 700 high) = Some final /\
    pc final = Halted /\
    abortRef (ui final) = false /\ awaits final = 0%nat /\
    progressLog final = [0; 100] /\ processed final = 0.
Proof.
  apply (short_run_never_suspends (M := idealMath) (H := stoppedAtFirstYield)
           idle 700 high).
  vm_compute. lia.
Defined.

(** ** Cancellation, batch by batch *)

Section Batches.
Context {M : MathOps} {H : Host}.

Lemma process_full_awaits (c : Z) (m m' : Machine) :
  process_full c m = Some m' -> awaits m' = awaits m.
Proof.
  unfold process_full, track. intros Hp.
  destruct (computeLogRatio c) as [r|]; [|discriminate].
  break_match Hp; injection Hp as <-; reflexivity.
Qed.

(** Pulling candidates into a batch that does not fill up. *)
Lemma exec_pull :
  forall (b2 : list Z) (m : Machine) (rest : list Z),
    pc m = Pull (b2 ++ rest) -> abortRef (ui m) = false ->
    (length (batch m) + length b2 < batchSize)%nat ->
    exec (length b2) m = Some (goto (Pull rest) (set_batch (batch m ++ b2) m)).
Proof.
  induction b2 as [|n b2 IH]; intros m rest Hpc Hab Hlen.
  - cbn [length exec]. rewrite app_nil_r. destruct m; cbn in *. subst. reflexivity.
  - cbn [length exec]. unfold step at 1. rewrite Hpc. cbn [app]. rewrite Hab.
    cbv zeta. cbn [batch set_batch].
    destruct (Nat.leb_spec batchSize (length (batch m ++ [n]))) as [Hfull|Hroom].
    + exfalso. rewrite length_app in Hfull. cbn [length] in *. lia.
    + rewrite (IH _ rest).
      * cbn. rewrite <- app_assoc. reflexivity.
      * reflexivity.
      * assumption.
      * cbn [batch goto set_batch]. rewrite length_app. cbn [length] in *. lia.
Qed.

(** The loop over a full batch evaluates all of it. *)
Lemma exec_inner :
  forall (todo : list Z) (m : Machine) (rest : list Z),
    pc m = Inner todo rest -> Forall (fun c => 2 <= c) todo ->
    exists m',
      exec (length todo) m = Some m' /\ pc m' = Inner [] rest /\
      results m' = results m ++ flat_map record_of todo /\
      abortRef (ui m') = abortRef (ui m) /\ awaits m' = awaits m.
Proof.
  induction todo as [|c todo IH]; intros m rest Hpc Hall.
  - exists m. cbn. rewrite app_nil_r. auto.
  - inversion Hall as [|? ? Hc Hrest]; subst.
    destruct (process_full_returns c m Hc) as (m1 & Hp).
    destruct (process_full_frame c m m1 Hp) as (_ & _ & Hab & _).
    destruct (IH (goto (Inner todo rest) m1) rest eq_refl Hrest)
      as (m' & Hexec & Hpc' & Hres & Hab' & Haw').
    exists m'. cbn [length exec]. unfold step at 1. rewrite Hpc, Hp.
    split; [assumption|]. split; [assumption|].
    cbn [results goto ui awaits] in *.
    rewrite Hres, (process_full_record c m m1 Hp), <- app_assoc.
    rewrite Hab', Hab, Haw', (process_full_awaits c m m1 Hp). auto.
Qed.

(** One full batch: 500 candidates pulled, one suspension, all of them
    evaluated, whatever the host did during the suspension. *)
Lemma exec_round (m : Machine) (b rest : list Z) :
  pc m = Pull (b ++ rest) -> batch m = [] -> abortRef (ui m) = false ->
  length b = batchSize -> Forall (fun c => 2 <= c) b ->
  exists k m',
    exec k m = Some m' /\ pc m' = Pull rest /\ batch m' = [] /\
    abortRef (ui m') = stopAt (awaits m) /\ awaits m' = S (awaits m) /\
    results m' = results m ++ flat_map record_of b.
Proof.
  intros Hpc Hbatch Hab Hlen Hall.
  destruct b as [|n b] using rev_ind; [discriminate|]. clear IHb.
  rewrite length_app in Hlen. cbn [length] in Hlen.
  rewrite <- app_assoc in Hpc. cbn [app] in Hpc.
  pose proof (exec_pull b m (n :: rest) Hpc Hab) as Hpull.
  rewrite Hbatch in Hpull. cbn [length app] in Hpull.
  specialize (Hpull ltac:(lia)).
  set (m1 := goto (Pull (n :: rest)) (set_batch b m)) in *.
  (* the pull that fills the batch *)
  assert (Hfill : step m1 = Some (goto (Await rest) (set_batch (b ++ [n]) m1))).
  { unfold step. cbn [pc goto m1]. cbn [ui goto set_batch m1]. rewrite Hab.
    cbv zeta. cbn [batch set_batch goto m1].
    destruct (Nat.leb_spec batchSize (length (b ++ [n]))) as [_|Hroom]; [reflexivity|].
    exfalso. rewrite length_app in Hroom. cbn [length] in Hroom. lia. }
  set (m2 := goto (Await rest) (set_batch (b ++ [n]) m1)) in *.
  (* the suspension *)
  set (m3 := goto (Inner (b ++ [n]) rest)
               (suspended (if stopAt (awaits m) then set_ui (handleStop (ui m)) m2 else m2))).
  assert (Hawait : step m2 = Some m3).
  { unfold step. cbn [pc goto m2]. cbv zeta. cbn [awaits goto set_batch m2 m1].
    unfold m3. destruct (stopAt (awaits m)); reflexivity. }
  (* the loop over the batch *)
  destruct (exec_inner (b ++ [n]) m3 rest eq_refl Hall)
    as (m4 & Hinner & Hpc4 & Hres4 & Hab4 & Haw4).
  exists (length b + S (S (length (b ++ [n]) + 1)))%nat.
  exists (goto (Pull rest) (set_batch [] m4)).
  split.
  { rewrite exec_plus, Hpull. cbn [exec]. rewrite Hfill, Hawait.
    rewrite exec_plus, Hinner. cbn [exec]. unfold step. rewrite Hpc4. reflexivity. }
  cbn [pc goto batch set_batch ui awaits results].
  split; [reflexivity|]. split; [reflexivity|].
  rewrite Hab4, Haw4, Hres4. unfold m3.
  destruct (stopAt (awaits m)); cbn; rewrite ?Hab; auto.
Qed.

(** Full batches in a row while the host does not stop the run. *)
Lemma exec_rounds :
  forall (i : nat) (m : Machine) (done rest : list Z),
    pc m = Pull (done ++ rest) -> batch m = [] -> abortRef (ui m) = false ->
    length done = (i * batchSize)%nat -> Forall (fun c => 2 <= c) done ->
    (forall j, (j < i)%nat -> stopAt (awaits m + j) = false) ->
    exists k m',
      exec k m = Some m' /\ pc m' = Pull rest /\ batch m' = [] /\
      abortRef (ui m') = false /\ awaits m' = (awaits m + i)%nat /\
      results m' = results m ++ flat_map record_of done.
Proof.
  induction i as [|i IH]; intros m done rest Hpc Hbatch Hab Hlen Hall Hquiet.
  - destruct done; [|discriminate]. exists 0%nat, m. cbn [exec flat_map].
    rewrite app_nil_r, Nat.add_0_r. repeat split; auto.
  - assert (Hsplit : done = firstn batchSize done ++ skipn batchSize done)
      by (symmetry; apply firstn_skipn).
    set (b := firstn batchSize done) in *. set (later := skipn batchSize done) in *.
    assert (Hb : length b = batchSize).
    { unfold b. apply firstn_length_le. rewrite Hlen. cbn [Nat.mul]. lia. }
    assert (Hlater : length later = (i * batchSize)%nat).
    { unfold later. rewrite length_skipn, Hlen. cbn [Nat.mul]. lia. }
    rewrite Hsplit in Hall. apply Forall_app in Hall. destruct Hall as [Hallb Halll].
    rewrite Hsplit, <- app_assoc in Hpc.
    destruct (exec_round m b (later ++ rest) Hpc Hbatch Hab Hb Hallb)
      as (k1 & m1 & Hk1 & Hpc1 & Hbatch1 & Hab1 & Haw1 & Hres1).
    assert (Hq0 : stopAt (awaits m) = false).
    { rewrite <- (Nat.add_0_r (awaits m)). apply Hquiet. lia. }
    rewrite Hq0 in Hab1.
    destruct (IH m1 later rest Hpc1 Hbatch1 Hab1 Hlater Halll)
      as (k2 & m2 & Hk2 & Hpc2 & Hbatch2 & Hab2 & Haw2 & Hres2).
    { intros j Hj. rewrite Haw1.
      replace (S (awaits m) + j)%nat with (awaits m + S j)%nat by lia.
      apply Hquiet. lia. }
    exists (k1 + k2)%nat, m2. rewrite exec_plus, Hk1.
    split; [assumption|]. split; [assumption|]. split; [assumption|].
    split; [assumption|]. split; [lia|].
    rewrite Hres2, Hres1, Hsplit, flat_map_app, app_assoc. reflexivity.
Qed.

(** X8. Cancellation takes effect between batches only, and the batch in
    flight is finished first: when the Stop button is first clicked during
    the suspension number i (counting from 0) and that suspension happens,
    the run ends cancelled after exactly i + 1 suspensions, having
    accumulated the records of the first 500 * (i + 1) candidates, no more
    and no fewer. *)
Theorem cancelled_after_whole_batches
    (u : UI) (maxN : Z) (density : Density) (i : nat) :
  stopAt i = true -> (forall j, (j < i)%nat -> stopAt j = false) ->
  (batchSize * S i <= length (generateCandidates maxN density))%nat ->
  exists final,
    run (begin u maxN density) = Some final /\ pc final = Halted /\
    abortRef (ui final) = true /\ awaits final = S i /\
    results final
      = flat_map record_of (firstn (batchSize * S i) (generateCandidates maxN density)).
Proof.
  intros Hstop Hquiet Hlen.
  set (all := generateCandidates maxN density) in *.
  set (m0 := begin u maxN density).
  assert (Hall : Forall (fun c => 2 <= c) all).
  { eapply Forall_impl; [|apply (generateCandidates_sound maxN density)].
    cbn. intros. lia. }
  set (done := firstn (i * batchSize) all).
  set (b := firstn batchSize (skipn (i * batchSize) all)).
  set (rest := skipn batchSize (skipn (i * batchSize) all)).
  assert (Hsplit : all = done ++ b ++ rest).
  { unfold done, b, rest. rewrite !firstn_skipn. reflexivity. }
  assert (Hdone : length done = (i * batchSize)%nat)
    by (unfold done; apply firstn_length_le; lia).
  assert (Hb : length b = batchSize).
  { unfold b. apply firstn_length_le. rewrite length_skipn. lia. }
  assert (Hfirst : firstn (batchSize * S i) all = done ++ b).
  { rewrite Hsplit, app_assoc.
    replace (batchSize * S i)%nat with (length (done ++ b) + 0)%nat
      by (rewrite length_app, Hdone, Hb; lia).
    rewrite firstn_app_2. cbn. apply app_nil_r. }
  rewrite Hsplit in Hall. apply Forall_app in Hall. destruct Hall as [Halld Hallb].
  apply Forall_app in Hallb. destruct Hallb as [Hallb _].
  destruct (exec_rounds i m0 done (b ++ rest))
    as (k1 & m1 & Hk1 & Hpc1 & Hbatch1 & Hab1 & Haw1 & Hres1);
    try assumption; try reflexivity.
  { cbn [pc m0 begin]. fold all. exact (f_equal Pull Hsplit). }
  destruct (exec_round m1 b rest Hpc1 Hbatch1 Hab1 Hb Hallb)
    as (k2 & m2 & Hk2 & Hpc2 & Hbatch2 & Hab2 & Haw2 & Hres2).
  rewrite Haw1 in Hab2, Haw2. cbn [awaits m0 begin Nat.add] in Hab2, Haw2.
  rewrite Hstop in Hab2.
  (* the loop head sees the flag, the remaining batch is empty *)
  set (final := goto Halted (finish (goto Epilogue (goto (Tail []) m2)))).
  assert (Hk3 : exec 3 m2 = Some final).
  { cbn [exec]. unfold step at 1. rewrite Hpc2, Hab2, Hbatch2.
    assert (Htail : (match rest with
                     | [] => Some (goto (Tail []) m2)
                     | _ :: _ => Some (goto (Tail []) m2)
                     end) = Some (goto (Tail []) m2)) by (destruct rest; reflexivity).
    rewrite Htail. reflexivity. }
  assert (Hfinal : exec (k1 + (k2 + 3)) m0 = Some final)
    by (rewrite exec_plus, Hk1, exec_plus, Hk2; exact Hk3).
  destruct (run_halts u maxN density) as (final' & Hrun & Hpc').
  assert (final' = final).
  { symmetry.
    eapply (exec_halted_unique _ _ m0);
      [exact Hfinal | reflexivity | exact Hrun | exact Hpc']. }
  subst final'. exists final. split; [assumption|]. split; [reflexivity|].
  unfold final, finish. cbn [ui goto]. rewrite Hab2.
  cbn [negb pc goto ui set_ui abortRef setComputing awaits results].
  rewrite Hab2, Haw2, Hres2, Hres1, Hfirst, flat_map_app.
  cbn [results m0 begin app]. auto.
Qed.
End Batches.

Lemma cancelled_after_whole_batches_witness :
  exists final,
    run (M := idealMath) (H := stoppedAtFirstYield) (begin idle 2000 medium)
      = Some final /\ pc final = Halted /\
    abortRef (ui final) = true /\ awaits final = 1%nat /\
    results final
      = flat_map (record_of (M := idealMath))
          (firstn (batchSize * 1) (generateCandidates 2000 medium)).
Proof.
  apply (cancelled_after_whole_batches (M := idealMath) (H := stoppedAtFirstYield)
           idle 2000 medium 0).
  - reflexivity.
  - intros j Hj. lia.
  - vm_compute. lia.
Defined.

(** ** Downsampling *)

Lemma mod_succ_cases (s i : nat) :
  (0 < s)%nat ->
  (S i mod s = if (S (i mod s) =? s)%nat then 0 else S (i mod s))%nat.
Proof.
  intros Hs. pose proof (Nat.div_mod_eq i s) as Hdm.
  pose proof (Nat.mod_upper_bound i s ltac:(lia)) as Hub.
  destruct (Nat.eqb_spec (S (i mod s)) s) as [Heq|Hne].
  - symmetry. apply (Nat.mod_unique _ _ (S (i / s))); [lia|]. nia.
  - symmetry. apply (Nat.mod_unique _ _ (i / s)); [lia|]. nia.
Qed.

Lemma to_next_multiple_succ (s i : nat) :
  (0 < s)%nat ->
  to_next_multiple s (S i)
  = (if (i mod s =? 0)%nat then s - 1 else to_next_multiple s i - 1)%nat.
Proof.
  intros Hs. unfold to_next_multiple. rewrite (mod_succ_cases s i Hs).
  pose proof (Nat.mod_upper_bound i s ltac:(lia)) as Hub.
  destruct (Nat.eqb_spec (S (i mod s)) s) as [Heq|Hne];
    destruct (Nat.eqb_spec (i mod s) 0) as [Hz|Hnz]; cbn [Nat.eqb]; lia.
Qed.

(** Keeping every [step]-th index keeps one element in [step], up to the
    position of the first kept index. *)
Lemma filter_index_count {A : Type} (step : nat) :
  (0 < step)%nat ->
  forall (xs : list A) (i : nat),
    let kept := length (filter_index (fun _ j => (j mod step =? 0)%nat) i xs) in
    (length xs <= step * kept + to_next_multiple step i /\
     step * kept + to_next_multiple step i <= length xs + step - 1)%nat.
Proof.
  intros Hs. induction xs as [|x xs IH]; intros i; cbn zeta.
  - cbn [filter_index length]. unfold to_next_multiple.
    pose proof (Nat.mod_upper_bound i step ltac:(lia)).
    destruct (Nat.eqb_spec (i mod step) 0); lia.
  - cbn [filter_index]. specialize (IH (S i)). cbn zeta in IH.
    rewrite (to_next_multiple_succ step i Hs) in IH.
    unfold to_next_multiple in *.
    pose proof (Nat.mod_upper_bound i step ltac:(lia)).
    destruct (Nat.eqb_spec (i mod step) 0) as [Hz|Hnz]; cbn [length] in *; nia.
Qed.

Lemma filter_index_incl {A : Type} (keep : A -> nat -> bool) :
  forall (xs : list A) (i : nat), incl (filter_index keep i xs) xs.
Proof.
  induction xs as [|x xs IH]; intros i; cbn [filter_index].
  - apply incl_refl.
  - destruct (keep x i).
    + apply incl_cons; [left; reflexivity | apply incl_tl, IH].
    + apply incl_tl, IH.
Qed.

(** X9. The chart never gets more than 5000 points.  Up to 5000 results
    are shown as they are; beyond that every step-th result is kept,
    starting with the first, which leaves more than 2500 and at most 5000
    of them, all taken from the results. *)
Theorem getVisualData_bounded {A : Type} (allData : list A) :
  (length (getVisualData allData) <= 5000)%nat /\
  incl (getVisualData allData) allData /\
  ((length allData <= 5000)%nat -> getVisualData allData = allData) /\
  ((5000 < length allData)%nat ->
   (2500 < length (getVisualData allData))%nat /\
   hd_error (getVisualData allData) = hd_error allData).
Proof.
  unfold getVisualData.
  destruct (Nat.leb_spec (length allData) 5000) as [Hsmall|Hlarge].
  - split; [assumption|]. split; [apply incl_refl|]. split; [reflexivity | lia].
  - cbv zeta. set (step := ceil_div (length allData) 5000).
    assert (Hstep : (2 <= step /\ length allData <= step * 5000 /\
                     (step - 1) * 5000 < length allData)%nat).
    { unfold step, ceil_div.
      pose proof (Nat.div_mod_eq (length allData + 5000 - 1) 5000) as Hdm.
      pose proof (Nat.mod_upper_bound (length allData + 5000 - 1) 5000 ltac:(lia)) as Hub.
      lia. }
    destruct Hstep as (H2 & Hup & Hlow).
    pose proof (filter_index_count (A := A) step ltac:(lia) allData 0) as Hcount.
    cbn zeta in Hcount. unfold to_next_multiple in Hcount.
    rewrite Nat.Div0.mod_0_l in Hcount. cbn [Nat.eqb] in Hcount.
    split; [nia|]. split; [apply filter_index_incl|]. split; [lia|].
    intros _. split; [nia|].
    destruct allData as [|x xs]; [reflexivity|].
    cbn [filter_index]. rewrite Nat.Div0.mod_0_l. reflexivity.
Qed.

(** ** The generator of the high-performance variant *)

Lemma for_range_invariant_bounded {St : Type} (P : St -> Prop)
    (body : Z -> St -> Flow St) :
  forall (count : nat) (lo : Z) (s : St),
    (forall k s, lo <= k < lo + Z.of_nat count -> P s -> P (flow_state (body k s))) ->
    P s -> P (for_range count lo body s).
Proof.
  induction count as [|count IH]; intros lo s Hbody Hs; cbn [for_range].
  - assumption.
  - pose proof (Hbody lo s ltac:(lia) Hs) as Hstep.
    destruct (body lo s) as [s'|s']; cbn in Hstep; [|assumption].
    apply IH; [|assumption]. intros k s0 Hk. apply Hbody. lia.
Qed.

Lemma for_to_invariant_bounded {St : Type} (P : St -> Prop)
    (body : Z -> St -> Flow St) (lo hi : Z) (s : St) :
  (forall k s, lo <= k <= hi -> P s -> P (flow_state (body k s))) ->
  P s -> P (for_to lo hi body s).
Proof.
  intros Hbody Hs. unfold for_to. apply for_range_invariant_bounded; [|assumption].
  intros k s0 Hk. apply Hbody. lia.
Qed.

Lemma for_step_invariant_bounded {St : Type} (P : St -> Prop)
    (body : Z -> St -> St) (step bound : Z) :
  0 <= step ->
  forall (count : nat) (n : Z) (s : St),
    (forall n' s, n <= n' <= bound -> P s -> P (body n' s)) ->
    P s -> P (for_step count n step bound body s).
Proof.
  intros Hstep. induction count as [|count IH]; intros n s Hbody Hs; cbn [for_step].
  - assumption.
  - destruct (Z.leb_spec n bound); [|assumption].
    apply IH; [|apply Hbody; [lia | assumption]].
    intros n' s0 Hn'. apply Hbody. lia.
Qed.

Lemma Set_add_in_range_set (maxN : Z) (candidates : list Z) (n : Z) :
  2 <= n <= maxN -> in_range_set maxN candidates ->
  in_range_set maxN (Set_add candidates n).
Proof.
  intros Hn [Hnd Hall]. unfold Set_add.
  destruct (has candidates n) eqn:Hhas; [split; assumption|].
  assert (Hnotin : ~ In n candidates).
  { intros Hin. apply has_true_iff in Hin. congruence. }
  split.
  - apply NoDup_app; [assumption | constructor; [intros [] | constructor] |].
    intros x Hx [Hxn|[]]. subst. contradiction.
  - apply Forall_app. split; [assumption|]. constructor; [assumption | constructor].
Qed.

Lemma Set_add_keeps (candidates : list Z) (n x : Z) :
  In x candidates -> In x (Set_add candidates n).
Proof.
  intros Hin. unfold Set_add. destruct (has candidates n); [assumption|].
  apply in_or_app. left. assumption.
Qed.

Lemma Set_add_member (candidates : list Z) (n : Z) : In n (Set_add candidates n).
Proof.
  unfold Set_add. destruct (has candidates n) eqn:Hhas.
  - apply has_true_iff. assumption.
  - apply in_or_app. right. left. reflexivity.
Qed.

Lemma insert_ext {A : Type} (f g : A -> A -> bool) (x : A) (l : list A) :
  (forall a b, f a b = g a b) -> insert f x l = insert g x l.
Proof.
  intros Hfg. induction l as [|y l IH]; cbn; [reflexivity|].
  rewrite Hfg, IH. reflexivity.
Qed.

Lemma Array_sort_ext {A : Type} (f g : A -> A -> bool) (l : list A) :
  (forall a b, f a b = g a b) -> Array_sort f l = Array_sort g l.
Proof.
  intros Hfg. unfold Array_sort.
  induction l as [|x l IH]; cbn [fold_right]; [reflexivity|].
  rewrite IH. apply insert_ext. assumption.
Qed.

Lemma numeric_sort_as_BigInt_sort (l : list Z) :
  Array_sort (fun a b => a - b >? 0) l
  = Array_sort (fun a b => compareBigInt a b >? 0) l.
Proof.
  apply Array_sort_ext. intros a b. rewrite compareBigInt_pos.
  destruct (Z.gtb_spec (a - b) 0), (Z.ltb_spec b a); try reflexivity; lia.
Qed.

(** Membership survives the later loops of the sampler. *)
Ltac kept n :=
  lazymatch goal with
  | |- In _ (if ?c then _ else _) => destruct c; kept n
  | |- In _ (for_to _ _ _ _) =>
      apply (for_to_invariant (fun s => In n s));
      [intros ? ? ?; cbn [flow_state]; cbv zeta; kept n | kept n]
  | |- In _ (Set_add _ _) => apply Set_add_keeps; kept n
  | |- _ => assumption
  end.

(** The set the sampler builds before it sorts. *)
Lemma Sampler_set (maxN sampleCount : Z) :
  exists candidates step,
    step = Z.max 1 (maxN / Z.min sampleCount 1000) /\
    Sampler.generateCandidates maxN sampleCount
      = Array_sort (fun a b => a - b >? 0) candidates /\
    in_range_set maxN candidates /\
    (forall n, In n (for_step (passes 2 step maxN) 2 step maxN
                       (fun n c => Set_add c n) []) -> In n candidates).
Proof.
  unfold Sampler.generateCandidates. cbv zeta.
  eexists. eexists. split; [reflexivity|]. split; [reflexivity|].
  assert (Hpow : forall base k, 2 <= base -> 1 <= k -> 2 <= base ^ k).
  { intros base k Hb Hk. replace k with (Z.succ (k - 1)) by lia.
    rewrite Z.pow_succ_r by lia.
    assert (0 < base ^ (k - 1)) by (apply Z.pow_pos_nonneg; lia). nia. }
  split.
  - repeat (apply for_to_invariant_bounded;
            [intros k s Hk Hs; cbn [flow_state]; cbv zeta|]).
    all: try (apply for_step_invariant_bounded; [lia | |split; constructor]).
    all: try (intros n' s Hn' Hs; apply Set_add_in_range_set; [lia | assumption]).
    all: repeat match goal with
         | |- in_range_set _ (if ?c then _ else _) => destruct c eqn:?
         end; try assumption.
    all: try (apply for_to_invariant_bounded; [|assumption];
              intros k' s' Hk' Hs'; cbn [flow_state]; cbv zeta;
              repeat match goal with
                     | |- in_range_set _ (if ?c then _ else _) => destruct c eqn:?
                     end; try assumption).
    all: apply Set_add_in_range_set; try assumption.
    all: repeat match goal with
         | Hc : (_ <=? _) = true |- _ => apply Z.leb_le in Hc
         | Hc : (_ && _) = true |- _ => apply andb_prop in Hc; destruct Hc
         | Hc : (_ >=? _) = true |- _ => apply Z.geb_le in Hc
         end.
    all: split; try lia.
    all: try (pose proof (Hpow 2 (k - 1) ltac:(lia) ltac:(lia)) as H2;
              pose proof (Hpow 3 (k - 1) ltac:(lia) ltac:(lia)) as H3;
              replace k with (Z.succ (k - 1)) by lia;
              rewrite Z.pow_succ_r by lia; lia).
    pose proof (Hpow 2 k ltac:(lia) ltac:(lia)).
    pose proof (Hpow 3 k' ltac:(lia) ltac:(lia)). nia.
  - intros n Hn. kept n.
Qed.

Lemma for_step_reaches (step bound : Z) :
  0 < step ->
  forall (p : nat) (start : Z) (c : list Z) (i : Z),
    p = passes start step bound -> 0 <= i -> start + step * i <= bound ->
    In (start + step * i)
       (for_step p start step bound (fun n c => Set_add c n) c).
Proof.
  intros Hstep. induction p as [|p IH]; intros start c i Hp Hi Hle.
  - exfalso. unfold passes in Hp.
    assert (0 <= (bound - start) / step) by (apply Z.div_pos; nia). lia.
  - cbn [for_step]. destruct (Z.leb_spec start bound); [|nia].
    destruct (Z.eq_dec i 0) as [->|Hne].
    + replace (start + step * 0) with start by lia.
      apply for_step_invariant; [intros; apply Set_add_keeps; assumption|].
      apply Set_add_member.
    + replace (start + step * i) with ((start + step) + step * (i - 1)) by ring.
      apply IH; [|lia|nia].
      unfold passes in *.
      replace (bound - (start + step)) with ((bound - start) + (-1) * step) by ring.
      rewrite Z.div_add by lia. lia.
Qed.

(** The candidates of the sampler lie in [2, maxN] and ascend strictly,
    whatever the arguments. *)
Lemma Sampler_candidates (maxN sampleCount : Z) :
  Forall (fun n => 2 <= n <= maxN) (Sampler.generateCandidates maxN sampleCount) /\
  NoDup (Sampler.generateCandidates maxN sampleCount) /\
  StronglySorted Z.lt (Sampler.generateCandidates maxN sampleCount).
Proof.
  destruct (Sampler_set maxN sampleCount)
    as (candidates & step & Hstep & Hout & [Hnd Hall] & _).
  assert (Hperm : Permutation (Sampler.generateCandidates maxN sampleCount) candidates).
  { rewrite Hout. apply Array_sort_perm. }
  assert (Hnodup : NoDup (Sampler.generateCandidates maxN sampleCount))
    by (eapply Permutation_NoDup; [apply Permutation_sym, Hperm | assumption]).
  split; [|split; [assumption|]].
  - eapply Permutation_Forall; [apply Permutation_sym, Hperm | assumption].
  - apply ascending_nodup_strict; [|assumption].
    rewrite Hout, numeric_sort_as_BigInt_sort. apply Array_sort_ascending.
Qed.

(** The regular sampling reaches [2 + step * i] as long as that is within
    the range. *)
Lemma Sampler_samples (maxN sampleCount i : Z) :
  0 <= i -> 2 + Z.max 1 (maxN / Z.min sampleCount 1000) * i <= maxN ->
  In (2 + Z.max 1 (maxN / Z.min sampleCount 1000) * i)
     (Sampler.generateCandidates maxN sampleCount).
Proof.
  intros Hi Hle.
  destruct (Sampler_set maxN sampleCount)
    as (candidates & step & Hstep & Hout & _ & Hsampled).
  rewrite Hout. eapply Permutation_in; [apply Permutation_sym, Array_sort_perm|].
  apply Hsampled. rewrite <- Hstep in *.
  apply for_step_reaches; [lia | reflexivity | lia | lia].
Qed.

(** X10. The generator of the high-performance variant, for a setting its
    input guard admits: every candidate lies in [2, maxN], none occurs
    twice and the sequence is ascending; it is empty exactly for maxN = 1,
    it starts the sampling at 2, and as long as maxN is below twice the
    number of samples (2000 as the component calls it) it is exhaustive:
    every integer from 2 to maxN is a candidate. *)
Theorem Sampler_generateCandidates_sound (maxN sampleCount : Z) :
  1 <= sampleCount -> 0 < maxN <= 10 ^ 15 ->
  let out := Sampler.generateCandidates maxN sampleCount in
  Forall (fun n => 2 <= n <= maxN) out /\ NoDup out /\ StronglySorted Z.lt out /\
  (out = [] <-> maxN = 1) /\
  (maxN < 2 * Z.min sampleCount 1000 -> forall n, 2 <= n <= maxN -> In n out).
Proof.
  intros Hcount HmaxN out.
  destruct (Sampler_candidates maxN sampleCount) as (Hrange & Hnodup & Hsorted).
  fold out in Hrange, Hnodup, Hsorted.
  split; [assumption|]. split; [assumption|]. split; [assumption|]. split.
  - split.
    + intros Hempty. destruct (Z.eq_dec maxN 1) as [|Hne]; [assumption|].
      exfalso.
      pose proof (Sampler_samples maxN sampleCount 0 ltac:(lia) ltac:(lia)) as Htwo.
      fold out in Htwo. rewrite Hempty in Htwo. exact Htwo.
    + intros ->. destruct out as [|n l]; [reflexivity|].
      inversion Hrange; subst. lia.
  - intros Hsmall n Hn.
    assert (Hone : Z.max 1 (maxN / Z.min sampleCount 1000) = 1).
    { assert (maxN / Z.min sampleCount 1000 < 2)
        by (apply Z.div_lt_upper_bound; lia). lia. }
    pose proof (Sampler_samples maxN sampleCount (n - 2) ltac:(lia)) as Hreach.
    rewrite Hone in Hreach. replace (2 + 1 * (n - 2)) with n in Hreach by lia.
    apply Hreach. lia.
Qed.

Lemma Sampler_generateCandidates_sound_witness :
  let out := Sampler.generateCandidates 30 10000 in
  Forall (fun n => 2 <= n <= 30) out /\ NoDup out /\ StronglySorted Z.lt out /\
  (out = [] <-> 30 = 1) /\
  (30 < 2 * Z.min 10000 1000 -> forall n, 2 <= n <= 30 -> In n out).
Proof.
  apply (Sampler_generateCandidates_sound 30 10000); [lia|].
  split; [lia | vm_compute; discriminate].
Defined.
(** ** The controller of the high-performance variant *)

Lemma slices_concat {A : Type} (size : nat) :
  (0 < size)%nat ->
  forall (fuel : nat) (xs : list A),
    (length xs <= fuel)%nat ->
    concat (slices fuel size xs) = xs /\
    Forall (fun b => b <> []) (slices fuel size xs) /\
    length (slices fuel size xs) = ((length xs + size - 1) / size)%nat.
Proof.
  intros Hsize. induction fuel as [|fuel IH]; intros xs Hlen.
  - destruct xs; [|cbn in Hlen; lia]. cbn.
    split; [reflexivity|]. split; [constructor|].
    symmetry. apply Nat.div_small. lia.
  - destruct xs as [|x xs].
    + cbn. split; [reflexivity|]. split; [constructor|].
      symmetry. apply Nat.div_small. lia.
    + cbn [slices].
      assert (Hskip : (length (skipn size (x :: xs)) <= fuel)%nat).
      { rewrite length_skipn. cbn [length] in *. lia. }
      destruct (IH _ Hskip) as (Hcat & Hne & Hcount).
      split; [|split].
      * cbn [concat]. rewrite Hcat. apply firstn_skipn.
      * constructor; [|assumption].
        destruct size; [lia|]. cbn. discriminate.
      * cbn [length]. rewrite Hcount, length_skipn.
        cbn [length]. generalize (S (length xs)) (Nat.lt_0_succ (length xs)).
        intros n Hn.
        destruct (Nat.le_gt_cases n size) as [Hle|Hgt].
        -- replace (n - size + size - 1)%nat with (size - 1)%nat by lia.
           rewrite (Nat.div_small (size - 1)) by lia.
           apply Nat.div_unique with (r := (n - 1)%nat); lia.
        -- set (q := ((n - size + size - 1) / size)%nat).
           apply Nat.div_unique with (r := ((n - size + size - 1) mod size)%nat).
           ++ apply Nat.mod_upper_bound. lia.
           ++ pose proof (Nat.div_mod_eq (n - size + size - 1) size) as Hdm.
              fold q in Hdm. lia.
Qed.

Section RatioRuns.
Context {M : MathOps} {D : RatioOps}.

Lemma computeRatioBigInt_returns (n : Z) :
  2 <= n -> exists r, computeRatioBigInt n = Some r /\ Ratio.n r = n.
Proof.
  intros Hn. unfold computeRatioBigInt. cbv zeta.
  destruct (extract23PowersBigInt_factors (n * (n + 1)) ltac:(nia)) as (p & Hp & _).
  rewrite Hp. eexists. split; reflexivity.
Qed.

Lemma kept_result_n (n : Z) (r : Ratio.t) :
  In r (kept_result n) ->
  Ratio.n r = n /\ isFinite (Ratio.ratio r) = true /\
  num_gt (Ratio.ratio r) (Fin 0) = true /\ computeRatioBigInt n = Some r.
Proof.
  unfold kept_result. destruct (computeRatioBigInt n) as [result|] eqn:Hc; [|intros []].
  destruct (isFinite (Ratio.ratio result) && num_gt (Ratio.ratio result) (Fin 0))
    eqn:Hkeep; [|intros []].
  intros [<-|[]]. apply andb_prop in Hkeep. destruct Hkeep as [Hfin Hpos].
  repeat split; try assumption.
  unfold computeRatioBigInt in Hc. cbv zeta in Hc.
  destruct (HighPerf.extract23PowersBigInt (n * (n + 1))); [|discriminate].
  injection Hc as <-. reflexivity.
Qed.

Lemma evaluate_batch_kept (batch : list Z) :
  Forall (fun n => 2 <= n) batch ->
  forall results,
    evaluate_batch batch results = Some (results ++ flat_map kept_result batch).
Proof.
  induction 1 as [|n batch Hn Hall IH]; intros results; cbn [evaluate_batch flat_map].
  - rewrite app_nil_r. reflexivity.
  - unfold kept_result at 1.
    destruct (computeRatioBigInt_returns n Hn) as (r & Hr & _). rewrite Hr.
    destruct (isFinite (Ratio.ratio r) && num_gt (Ratio.ratio r) (Fin 0)).
    + rewrite IH, <- app_assoc. reflexivity.
    + rewrite IH. reflexivity.
Qed.
End RatioRuns.

Lemma Array_sort_sorted {A : Type} (after : A -> A -> bool) (l : list A) :
  StronglySorted (fun a b => after a b = false) l -> Array_sort after l = l.
Proof.
  unfold Array_sort. induction 1 as [|x l Hsorted IH Hall]; cbn [fold_right].
  - reflexivity.
  - rewrite IH. destruct l as [|y l]; [reflexivity|]. cbn [insert].
    inversion Hall as [|? ? Hxy]; subst. rewrite Hxy. reflexivity.
Qed.

Lemma StronglySorted_weaken {A : Type} (R R' : A -> A -> Prop) (l : list A) :
  (forall a b, R a b -> R' a b) -> StronglySorted R l -> StronglySorted R' l.
Proof.
  intros Himpl. induction 1 as [|x l Hsorted IH Hall]; constructor; [assumption|].
  eapply Forall_impl; [|exact Hall]. intros b. apply Himpl.
Qed.

Lemma StronglySorted_last {A : Type} (R : A -> A -> Prop) (l : list A) (x : A) :
  StronglySorted R (l ++ [x]) -> Forall (fun a => R a x) l.
Proof.
  induction l as [|a l IH]; cbn [app]; intros Hsorted; [constructor|].
  apply StronglySorted_inv in Hsorted. destruct Hsorted as [Htail Hall].
  constructor; [|apply IH; assumption].
  rewrite Forall_forall in Hall. apply Hall. apply in_or_app. right. left. reflexivity.
Qed.

Section RatioJobs.
Context {M : MathOps} {D : RatioOps}.

Lemma kept_results_ascending (candidates : list Z) :
  StronglySorted Z.lt candidates ->
  StronglySorted (fun a b => Ratio.n a < Ratio.n b) (flat_map kept_result candidates).
Proof.
  induction 1 as [|n l Hsorted IH Hall]; cbn [flat_map]; [constructor|].
  assert (Hhead : forall r, In r (kept_result n) -> Ratio.n r = n)
    by (intros r Hr; apply kept_result_n in Hr; tauto).
  destruct (kept_result n) as [|r [|r' rest]] eqn:Hkept.
  - assumption.
  - cbn [app]. constructor; [assumption|].
    apply Forall_forall. intros r' Hr'. apply in_flat_map in Hr'.
    destruct Hr' as (n' & Hn' & Hr'). apply kept_result_n in Hr'.
    rewrite Forall_forall in Hall. specialize (Hall n' Hn').
    rewrite (Hhead r (or_introl eq_refl)). destruct Hr' as (-> & _). assumption.
  - exfalso. unfold kept_result in Hkept.
    destruct (computeRatioBigInt n); [|discriminate].
    destruct (isFinite _ && _); discriminate.
Qed.

Lemma kept_results_in_order (candidates : list Z) :
  StronglySorted Z.lt candidates ->
  StronglySorted (fun a b => (Ratio.n a - Ratio.n b >? 0) = false)
                 (flat_map kept_result candidates).
Proof.
  intros Hsorted.
  apply (StronglySorted_weaken (fun a b => Ratio.n a < Ratio.n b));
    [|apply kept_results_ascending; assumption].
  intros a b Hab. destruct (Z.gtb_spec (Ratio.n a - Ratio.n b) 0); [lia | reflexivity].
Qed.

Lemma run_callbacks_trace (total : Z) :
  forall (batches : list (list Z)) (j : Job),
    batches <> [] ->
    Forall (fun b => b <> [] /\ Forall (fun n => 2 <= n) b) batches ->
    0 <= j_processed j ->
    j_processed j + Z.of_nat (length (concat batches)) = total ->
    exists before,
      run_callbacks total batches j
        = Some (let st := j_panel j in
                let '(results, st) :=
                  complete (j_results j ++ flat_map kept_result (concat batches))
                    (mkPanel (p_maxN st) (p_computing st) 100
                             (p_data st) (p_topValues st) (p_stats st)) in
                mkJob results total st (j_reported j ++ before ++ [100])) /\
      Forall (fun x => 100 * j_processed j / total <= x < 100) before /\
      StronglySorted Z.le before /\
      length before = pred (length batches).
Proof.
  induction batches as [|b batches IH]; intros j Hne Hall Hpos Htotal;
    [contradiction|].
  apply Forall_cons_iff in Hall. destruct Hall as [[Hb Hbatch] Hrest].
  assert (Hlen : 0 < Z.of_nat (length b)) by (destruct b; [contradiction | cbn; lia]).
  cbn [run_callbacks]. unfold callback.
  rewrite (evaluate_batch_kept b Hbatch). cbv zeta.
  destruct batches as [|b2 batches].
  - cbn [concat] in *. rewrite app_nil_r in *.
    exists []. rewrite Htotal, Z.geb_leb, Z.leb_refl.
    rewrite Z.div_mul by lia.
    destruct (complete _ _) as [results st] eqn:Hcomplete. cbn [run_callbacks app].
    split; [reflexivity|]. split; [constructor|]. split; [constructor | reflexivity].
  - assert (Hnext : 0 < Z.of_nat (length (concat (b2 :: batches)))).
    { pose proof (Forall_inv Hrest) as [Hb2 _].
      cbn [concat]. rewrite length_app. destruct b2; [contradiction | cbn; lia]. }
    assert (Hsplit : Z.of_nat (length (concat (b :: b2 :: batches)))
                     = Z.of_nat (length b) + Z.of_nat (length (concat (b2 :: batches)))).
    { cbn [concat]. rewrite !length_app. lia. }
    destruct (Z.geb_spec (j_processed j + Z.of_nat (length b)) total) as [Hge|Hlt];
      [lia|].
    set (j1 := mkJob _ _ _ _).
    destruct (IH j1 ltac:(discriminate) Hrest) as (before & Hrun & Hbefore & Hsorted & Hcount).
    { unfold j1. cbn [j_processed]. lia. }
    { unfold j1. cbn [j_processed]. lia. }
    exists (100 * (j_processed j + Z.of_nat (length b)) / total :: before).
    rewrite Hrun. subst j1. cbn [j_panel j_results j_reported j_processed
      p_maxN p_computing p_data p_topValues p_stats] in *.
    assert (Hflat : (j_results j ++ flat_map kept_result b)
                      ++ flat_map kept_result (concat (b2 :: batches))
                    = j_results j ++ flat_map kept_result (concat (b :: b2 :: batches))).
    { cbn [concat]. rewrite !flat_map_app, <- !app_assoc. reflexivity. }
    rewrite Hflat, <- !app_assoc. cbn [app].
    split; [reflexivity|].
    assert (Hmono : 100 * j_processed j / total
                    <= 100 * (j_processed j + Z.of_nat (length b)) / total)
      by (apply Z.div_le_mono; lia).
    assert (Hbelow : 100 * (j_processed j + Z.of_nat (length b)) / total < 100)
      by (apply Z.div_lt_upper_bound; lia).
    split; [|split].
    + constructor; [lia|].
      eapply Forall_impl; [|exact Hbefore]. cbn beta. intros x Hx. lia.
    + constructor; [assumption|].
      eapply Forall_impl; [|exact Hbefore]. cbn beta. intros x Hx. lia.
    + cbn [length] in *. lia.
Qed.
End RatioJobs.

Section RatioCompletion.
Context {M : MathOps} {D : RatioOps}.

Lemma complete_ascending (results : list Ratio.t) (st : Panel) :
  StronglySorted (fun a b => (Ratio.n a - Ratio.n b >? 0) = false) results ->
  complete results st
  = (results,
     let sorted :=
       Array_sort (fun a b =>
         num_gt (num_sub (Ratio.ratio b) (Ratio.ratio a)) (Fin 0)) results in
     match sorted, rev results with
     | first :: _, last :: _ =>
         mkPanel (p_maxN st) false (p_progress st) results (firstn 30 sorted)
           (Some (RatioStats.mk (length results) (Ratio.ratio first) (Ratio.n first)
                    (Ratio.ratio (nth (length sorted / 2) sorted first))
                    (Ratio.n last)))
     | _, _ =>
         mkPanel (p_maxN st) (p_computing st) (p_progress st) results
                 (firstn 30 sorted) (p_stats st)
     end).
Proof.
  intros Hsorted. unfold complete. cbv zeta.
  rewrite (Array_sort_sorted _ results Hsorted).
  destruct (Array_sort _ results) as [|first sorted]; [reflexivity|].
  destruct (rev results); reflexivity.
Qed.

Lemma ratio_computeData_idle (st : Panel) :
  Sampler.generateCandidates (p_maxN st) 10000 = [] ->
  ratio_computeData st
  = Some (mkJob [] 0
            (mkPanel (p_maxN st) true 0 (p_data st) (p_topValues st) (p_stats st))
            [0]).
Proof.
  intros Hempty. unfold ratio_computeData. cbv zeta. cbn [p_maxN].
  rewrite Hempty. reflexivity.
Qed.

Lemma ratio_computeData_runs (st : Panel) :
  Sampler.generateCandidates (p_maxN st) 10000 <> [] ->
  exists before,
    ratio_computeData st
    = Some (let '(results, p) :=
              complete
                (flat_map kept_result (Sampler.generateCandidates (p_maxN st) 10000))
                (mkPanel (p_maxN st) true 100 (p_data st) (p_topValues st)
                         (p_stats st)) in
            mkJob results
                  (Z.of_nat (length (Sampler.generateCandidates (p_maxN st) 10000)))
                  p (0 :: before ++ [100])) /\
    Forall (fun x => 0 <= x < 100) before /\
    StronglySorted Z.le before /\
    S (length before)
    = ((length (Sampler.generateCandidates (p_maxN st) 10000) + 999) / 1000)%nat.
Proof.
  intros Hne. unfold ratio_computeData. cbv zeta. cbn [p_maxN].
  set (candidates := Sampler.generateCandidates (p_maxN st) 10000) in *.
  destruct (Sampler_candidates (p_maxN st) 10000) as (Hrange & _ & _).
  fold candidates in Hrange.
  destruct (slices_concat 1000 ltac:(lia) (length candidates) candidates (Nat.le_refl _))
    as (Hcat & Hnonempty & Hcount).
  set (batches := slices (length candidates) 1000 candidates) in *.
  assert (Hbatches : batches <> []).
  { intros Hnil. rewrite Hnil in Hcat. apply Hne. symmetry. exact Hcat. }
  assert (Hall : Forall (fun b => b <> [] /\ Forall (fun n => 2 <= n) b) batches).
  { apply Forall_forall. intros b Hb. split.
    - rewrite Forall_forall in Hnonempty. apply Hnonempty. assumption.
    - apply Forall_forall. intros n Hn.
      assert (Hin : In n candidates).
      { rewrite <- Hcat. apply in_concat. exists b. split; assumption. }
      rewrite Forall_forall in Hrange. apply Hrange in Hin. lia. }
  destruct (run_callbacks_trace (Z.of_nat (length candidates)) batches
              (mkJob [] 0
                 (mkPanel (p_maxN st) true 0 (p_data st) (p_topValues st) (p_stats st))
                 [0]) Hbatches Hall)
    as (before & Hrun & Hbefore & Hsorted & Hlen).
  { cbn. lia. }
  { cbn [j_processed]. rewrite Hcat. lia. }
  exists before. rewrite Hrun.
  cbn [j_panel j_results j_reported j_processed p_maxN p_computing p_data
       p_topValues p_stats app] in *.
  rewrite Hcat. split; [reflexivity|]. split; [|split; [assumption|]].
  - eapply Forall_impl; [|exact Hbefore]. cbn beta. intros x [Hlo Hhi].
    split; [|assumption].
    change (100 * 0) with 0 in Hlo. rewrite Zdiv_0_l in Hlo. assumption.
  - rewrite Hlen, Hcount.
    assert (Hpos : (0 < length batches)%nat).
    { destruct (length batches) eqn:Hzero; [|lia].
      apply length_zero_iff_nil in Hzero. contradiction. }
    rewrite Hcount in Hpos.
    replace (length candidates + 1000 - 1)%nat with (length candidates + 999)%nat in *
      by lia.
    lia.
Qed.
End RatioCompletion.

Section RatioClaims.
Context {M : MathOps} {D : RatioOps}.

Lemma complete_progress (results : list Ratio.t) (st : Panel) :
  p_progress (snd (complete results st)) = p_progress st /\
  p_maxN (snd (complete results st)) = p_maxN st.
Proof.
  unfold complete. cbv zeta.
  destruct (Array_sort _ (Array_sort _ results)); [split; reflexivity|].
  destruct (rev _); split; reflexivity.
Qed.

Lemma Sampler_nonempty (maxN sampleCount : Z) :
  2 <= maxN -> Sampler.generateCandidates maxN sampleCount <> [].
Proof.
  intros HmaxN Hempty.
  pose proof (Sampler_samples maxN sampleCount 0 ltac:(lia) ltac:(lia)) as Htwo.
  rewrite Hempty in Htwo. exact Htwo.
Qed.

(** X11. The progress of the high-performance variant, for a setting of at
    least 2: the run ends, with one timer callback per started thousand of
    candidates; the values handed to [setProgress] start at 0, never
    decrease, stay below 100 until the last callback and are 100 there, when
    every candidate has been processed. *)
Theorem ratio_computeData_progress (st : Panel) :
  2 <= p_maxN st <= 10 ^ 15 ->
  exists j before,
    ratio_computeData st = Some j /\
    j_reported j = 0 :: before ++ [100] /\
    Forall (fun x => 0 <= x < 100) before /\
    StronglySorted Z.le before /\
    S (length before)
    = ((length (Sampler.generateCandidates (p_maxN st) 10000) + 999) / 1000)%nat /\
    p_progress (j_panel j) = 100 /\
    j_processed j = Z.of_nat (length (Sampler.generateCandidates (p_maxN st) 10000)).
Proof.
  intros HmaxN.
  destruct (ratio_computeData_runs st (Sampler_nonempty _ _ (proj1 HmaxN)))
    as (before & Hrun & Hbefore & Hsorted & Hcount).
  pose proof (complete_progress
                (flat_map kept_result (Sampler.generateCandidates (p_maxN st) 10000))
                (mkPanel (p_maxN st) true 100 (p_data st) (p_topValues st) (p_stats st)))
    as [Hprogress _].
  destruct (complete _ _) as [results p]. cbn [snd p_progress] in Hprogress.
  eexists. exists before. split; [exact Hrun|].
  cbn [j_reported j_panel j_processed].
  split; [reflexivity|]. split; [assumption|]. split; [assumption|].
  split; [assumption|]. split; [assumption | reflexivity].
Qed.
End RatioClaims.

Lemma ratio_computeData_progress_witness :
  exists j before,
    ratio_computeData (M := idealMath) (D := idealRatio) mounted = Some j /\
    j_reported j = 0 :: before ++ [100] /\
    Forall (fun x => 0 <= x < 100) before /\
    StronglySorted Z.le before /\
    S (length before)
    = ((length (Sampler.generateCandidates (p_maxN mounted) 10000) + 999) / 1000)%nat /\
    p_progress (j_panel j) = 100 /\
    j_processed j = Z.of_nat (length (Sampler.generateCandidates (p_maxN mounted) 10000)).
Proof.
  apply (ratio_computeData_progress (M := idealMath) (D := idealRatio) mounted).
  split; [cbn; lia | vm_compute; discriminate].
Defined.

Section RatioPublishing.
Context {M : MathOps} {D : RatioOps}.

Lemma kept_result_iff (candidates : list Z) (r : Ratio.t) :
  In r (flat_map kept_result candidates) <->
  exists n, In n candidates /\ computeRatioBigInt n = Some r /\
            isFinite (Ratio.ratio r) = true /\
            num_gt (Ratio.ratio r) (Fin 0) = true.
Proof.
  rewrite in_flat_map. split.
  - intros (n & Hn & Hr). apply kept_result_n in Hr.
    exists n. tauto.
  - intros (n & Hn & Hc & Hfin & Hpos). exists n. split; [assumption|].
    unfold kept_result. rewrite Hc, Hfin, Hpos. left. reflexivity.
Qed.

(** What the last callback leaves, in terms of the kept results. *)
Lemma ratio_computeData_result (st : Panel) :
  Sampler.generateCandidates (p_maxN st) 10000 <> [] ->
  exists j sorted,
    ratio_computeData st = Some j /\
    Permutation sorted (flat_map kept_result (Sampler.generateCandidates (p_maxN st) 10000)) /\
    j_results j = flat_map kept_result (Sampler.generateCandidates (p_maxN st) 10000) /\
    p_data (j_panel j) = j_results j /\
    p_topValues (j_panel j) = firstn 30 sorted /\
    p_maxN (j_panel j) = p_maxN st /\
    p_progress (j_panel j) = 100 /\
    match sorted, rev (j_results j) with
    | first :: _, last :: _ =>
        p_computing (j_panel j) = false /\
        exists median,
          p_stats (j_panel j)
          = Some (RatioStats.mk (length (j_results j)) (Ratio.ratio first)
                    (Ratio.n first) median (Ratio.n last))
    | _, _ => p_computing (j_panel j) = true /\ p_stats (j_panel j) = p_stats st
    end.
Proof.
  intros Hne. destruct (ratio_computeData_runs st Hne) as (before & Hrun & _).
  destruct (Sampler_candidates (p_maxN st) 10000) as (_ & _ & Hsorted).
  rewrite (complete_ascending _ _ (kept_results_in_order _ Hsorted)) in Hrun.
  cbv zeta in Hrun.
  set (kept := flat_map kept_result (Sampler.generateCandidates (p_maxN st) 10000)) in *.
  match type of Hrun with
  | context [Array_sort ?after kept] =>
      remember (Array_sort after kept) as sorted eqn:Hsort
  end.
  assert (Hperm : Permutation sorted kept)
    by (rewrite Hsort; apply Array_sort_perm).
  clear Hsort.
  destruct sorted as [|first sorted'].
  { eexists. exists []. split; [exact Hrun|].
    cbn [j_results j_panel p_data p_topValues p_maxN p_progress p_computing p_stats].
    repeat (split; [first [assumption | reflexivity]|]). split; reflexivity. }
  destruct (rev kept) as [|last rest] eqn:Hrev.
  { eexists. exists (first :: sorted'). split; [exact Hrun|].
    cbn [j_results j_panel p_data p_topValues p_maxN p_progress p_computing p_stats].
    rewrite Hrev.
    repeat (split; [first [assumption | reflexivity]|]). split; reflexivity. }
  eexists. exists (first :: sorted'). split; [exact Hrun|].
  cbn [j_results j_panel p_data p_topValues p_maxN p_progress p_computing p_stats].
  rewrite Hrev.
  split; [assumption|]. split; [reflexivity|]. split; [reflexivity|].
  split; [reflexivity|]. split; [reflexivity|]. split; [reflexivity|].
  split; [reflexivity|]. eexists. reflexivity.
Qed.

(** X12. What a run of the high-performance variant publishes, for a
    setting of at least 2.  The data are exactly the results of the
    candidates whose ratio is finite and positive, in ascending order of n
    (the sort by n finds them in order already); the table holds 30 of
    them, all of them when there are fewer.  When at least one result is kept the run ends with computing
    off and a summary that counts the data, takes its maximum from the head
    of the table and its largest n from the data; when none is kept, the
    last callback stops at the read of the first table row: computing stays
    on and the summary is the one from before. *)
Theorem ratio_computeData_publishes (st : Panel) :
  2 <= p_maxN st <= 10 ^ 15 ->
  exists j,
    ratio_computeData st = Some j /\
    (forall r, In r (p_data (j_panel j)) <->
       exists n, In n (Sampler.generateCandidates (p_maxN st) 10000) /\
                 computeRatioBigInt n = Some r /\
                 isFinite (Ratio.ratio r) = true /\
                 num_gt (Ratio.ratio r) (Fin 0) = true) /\
    StronglySorted (fun a b => Ratio.n a < Ratio.n b) (p_data (j_panel j)) /\
    length (p_topValues (j_panel j)) = Nat.min 30 (length (p_data (j_panel j))) /\
    incl (p_topValues (j_panel j)) (p_data (j_panel j)) /\
    (p_data (j_panel j) <> [] ->
       p_computing (j_panel j) = false /\
       exists s first,
         p_stats (j_panel j) = Some s /\
         RatioStats.totalComputed s = length (p_data (j_panel j)) /\
         hd_error (p_topValues (j_panel j)) = Some first /\
         RatioStats.maxRatio s = Ratio.ratio first /\
         RatioStats.maxRatioN s = Ratio.n first /\
         In (RatioStats.largestN s) (map Ratio.n (p_data (j_panel j))) /\
         Forall (fun r => Ratio.n r <= RatioStats.largestN s) (p_data (j_panel j))) /\
    (p_data (j_panel j) = [] ->
       p_computing (j_panel j) = true /\ p_stats (j_panel j) = p_stats st).
Proof.
  intros HmaxN.
  destruct (ratio_computeData_result st (Sampler_nonempty _ _ (proj1 HmaxN)))
    as (j & sorted & Hrun & Hperm & Hresults & Hdata & Htop & _ & _ & Hend).
  destruct (Sampler_candidates (p_maxN st) 10000) as (_ & _ & Hsorted).
  pose proof (kept_results_ascending _ Hsorted) as Hasc.
  exists j. split; [assumption|]. rewrite Hdata, Htop, Hresults in *.
  set (kept := flat_map kept_result (Sampler.generateCandidates (p_maxN st) 10000)) in *.
  split; [intros r; apply kept_result_iff|]. split; [assumption|].
  split; [rewrite length_firstn, (Permutation_length Hperm); reflexivity|].
  split.
  { intros r Hr. apply In_firstn in Hr. eapply Permutation_in; eassumption. }
  destruct sorted as [|first sorted'].
  { apply Permutation_nil in Hperm.
    split; [intros Habs; contradiction|]. intros _. assumption. }
  destruct (rev kept) as [|last rest] eqn:Hrev.
  { exfalso. apply (f_equal (@rev _)) in Hrev. rewrite rev_involutive in Hrev.
    cbn [rev] in Hrev. rewrite Hrev in Hperm. apply Permutation_sym, Permutation_nil in Hperm.
    discriminate Hperm. }
  assert (Hkept : kept = rev rest ++ [last]).
  { rewrite <- (rev_involutive kept), Hrev. reflexivity. }
  destruct Hend as (Hcomputing & median & Hstats).
  split.
  - intros _. split; [assumption|].
    eexists. exists first. split; [exact Hstats|].
    cbn [RatioStats.totalComputed RatioStats.maxRatio RatioStats.maxRatioN
         RatioStats.largestN].
    split; [reflexivity|]. split; [reflexivity|]. split; [reflexivity|].
    split; [reflexivity|]. split.
    + apply in_map. rewrite Hkept. apply in_or_app. right. left. reflexivity.
    + rewrite Hkept in Hasc |- *. apply Forall_app. split.
      * apply StronglySorted_last in Hasc. eapply Forall_impl; [|exact Hasc].
        cbn beta. intros r Hr. lia.
      * constructor; [lia | constructor].
  - intros Hnil. rewrite Hnil in Hrev. discriminate Hrev.
Qed.

(** X13. The Compute button.  An entry the guard rejects, or one equal to
    the current setting, starts nothing: the component is as it was.  An
    accepted new setting keeps the setting within the guard's range and
    runs [computeData]; for a setting of at least 2 the bar ends at 100 and
    computing ends off exactly when some result was kept.  The setting 1,
    which the guard accepts, has no candidates: no callback is scheduled,
    computing stays on and the bar at 0, data, table and summary are left
    as they were, and the button stays disabled. *)
Theorem press_compute_settles (val : option Z) (st : Panel) :
  exists st',
    press_compute val st = Some st' /\
    p_maxN st' = HighPerf.handleSetMaxN val (p_maxN st) /\
    (p_maxN st' = p_maxN st -> st' = st) /\
    (p_maxN st' <> p_maxN st ->
       0 < p_maxN st' <= 10 ^ 15 /\ val = Some (p_maxN st') /\
       (2 <= p_maxN st' ->
          p_progress st' = 100 /\
          (p_computing st' = false <-> p_data st' <> [])) /\
       (p_maxN st' = 1 ->
          st' = mkPanel 1 true 0 (p_data st) (p_topValues st) (p_stats st))).
Proof.
  unfold press_compute. cbv zeta.
  set (maxN := HighPerf.handleSetMaxN val (p_maxN st)).
  destruct (Z.eqb_spec maxN (p_maxN st)) as [Hsame|Hnew].
  - exists st. split; [reflexivity|]. split; [symmetry; assumption|].
    split; [reflexivity|]. intros Habs. contradiction.
  - assert (Hguard : 0 < maxN <= 10 ^ 15 /\ val = Some maxN).
    { unfold maxN in *. unfold HighPerf.handleSetMaxN in *.
      destruct val as [v|]; [|contradiction].
      destruct ((0 <? v) && (v <=? 10 ^ 15)) eqn:Hcheck; [|contradiction].
      apply andb_prop in Hcheck. destruct Hcheck as [Hlo Hhi].
      apply Z.ltb_lt in Hlo. apply Z.leb_le in Hhi. auto. }
    set (st1 := mkPanel maxN (p_computing st) (p_progress st) (p_data st)
                        (p_topValues st) (p_stats st)).
    destruct (Z.eq_dec maxN 1) as [Hone|Hmore].
    + assert (Hempty : Sampler.generateCandidates (p_maxN st1) 10000 = []).
      { destruct (Sampler_candidates (p_maxN st1) 10000) as (Hrange & _).
        destruct (Sampler.generateCandidates (p_maxN st1) 10000) as [|n l];
          [reflexivity|].
        apply Forall_inv in Hrange. cbn [p_maxN st1] in Hrange. lia. }
      rewrite (ratio_computeData_idle st1 Hempty).
      eexists. split; [reflexivity|]. cbn [j_panel p_maxN st1 p_data p_topValues p_stats].
      split; [reflexivity|]. split; [intros Habs; contradiction|].
      intros _. split; [tauto|]. split; [tauto|]. split; [intros; lia|].
      intros _. rewrite Hone. reflexivity.
    + assert (Hne : Sampler.generateCandidates (p_maxN st1) 10000 <> [])
        by (apply Sampler_nonempty; cbn [p_maxN st1]; lia).
      destruct (ratio_computeData_result st1 Hne)
        as (j & sorted & Hrun & Hperm & Hresults & Hdata & _ & HmaxN & Hprogress & Hend).
      rewrite Hrun. exists (j_panel j). split; [reflexivity|].
      cbn [p_maxN st1] in HmaxN. rewrite HmaxN.
      split; [reflexivity|]. split; [intros Habs; contradiction|].
      intros _. split; [tauto|]. split; [tauto|]. split; [|intros; lia].
      intros _. split; [assumption|]. rewrite Hdata.
      destruct sorted as [|first sorted'].
      * rewrite <- Hresults in Hperm. apply Permutation_nil in Hperm.
        rewrite Hperm. destruct Hend as [Hcomputing _]. rewrite Hcomputing.
        split; [discriminate | intros Habs; contradiction].
      * destruct (rev (j_results j)) as [|last rest] eqn:Hrev.
        -- exfalso. apply (f_equal (@rev _)) in Hrev. rewrite rev_involutive in Hrev.
           cbn [rev] in Hrev. rewrite <- Hresults, Hrev in Hperm.
           apply Permutation_sym, Permutation_nil in Hperm. discriminate Hperm.
        -- destruct Hend as [Hcomputing _]. rewrite Hcomputing.
           split; [intros _ | reflexivity].
           intros Hnil. rewrite Hnil in Hrev. discriminate Hrev.
Qed.
End RatioPublishing.

Lemma ratio_computeData_publishes_witness :
  exists j,
    ratio_computeData (M := idealMath) (D := idealRatio) mounted = Some j /\
    (forall r, In r (p_data (j_panel j)) <->
       exists n, In n (Sampler.generateCandidates (p_maxN mounted) 10000) /\
                 computeRatioBigInt (M := idealMath) (D := idealRatio) n = Some r /\
                 isFinite (Ratio.ratio r) = true /\
                 num_gt (Ratio.ratio r) (Fin 0) = true) /\
    StronglySorted (fun a b => Ratio.n a < Ratio.n b) (p_data (j_panel j)) /\
    length (p_topValues (j_panel j)) = Nat.min 30 (length (p_data (j_panel j))) /\
    incl (p_topValues (j_panel j)) (p_data (j_panel j)) /\
    (p_data (j_panel j) <> [] ->
       p_computing (j_panel j) = false /\
       exists s first,
         p_stats (j_panel j) = Some s /\
         RatioStats.totalComputed s = length (p_data (j_panel j)) /\
         hd_error (p_topValues (j_panel j)) = Some first /\
         RatioStats.maxRatio s = Ratio.ratio first /\
         RatioStats.maxRatioN s = Ratio.n first /\
         In (RatioStats.largestN s) (map Ratio.n (p_data (j_panel j))) /\
         Forall (fun r => Ratio.n r <= RatioStats.largestN s) (p_data (j_panel j))) /\
    (p_data (j_panel j) = [] ->
       p_computing (j_panel j) = true /\ p_stats (j_panel j) = p_stats mounted).
Proof.
  apply (ratio_computeData_publishes (M := idealMath) (D := idealRatio) mounted).
  split; [cbn; lia | vm_compute; discriminate].
Defined.
